(** * rsicalc: the RSI tracker of [rsicalculator.py]

    A shallow embedding of [CryptoRSITracker]: the indicator computation
    [calculate_rsi], the rolling price history and the polling loop [run]
    with its failure handler, and the names that [__init__] and
    [fetch_price] derive from the symbol.

    Prices are Python floats, that is IEEE 754 binary64 numbers.  They are
    modelled by [spec_float] of the standard library with [prec = 53] and
    [emax = 1024], whose operations round to nearest, ties to even, and have
    signed zeros, infinities and NaN.  The code of the tracker is written
    once, over an interface [Arith] of the arithmetic it uses, and
    instantiated at binary64.

    What the loop does with its history and its errors holds in any
    arithmetic.  What [calculate_rsi] returns is settled in binary64,
    rounding, overflow and NaN included; for that the operations of
    [SpecFloat] are related to the rational numbers that floats stand
    for. *)

From Stdlib Require Import ZArith List Bool Lia.
From Stdlib Require Import QArith Qpower Lqa.
From Stdlib Require String.
From Stdlib Require Import Floats.SpecFloat.
Import ListNotations.

Set Implicit Arguments.
Local Open Scope Z_scope.

(** ** Python lists *)

Module PyList.

(** [len(xs)] as a Python integer. *)
Definition len {A} (xs : list A) : Z := Z.of_nat (length xs).

(** [xs[i:]] for any integer [i]: a negative index counts from the end
    and is clipped at the start of the list, [-0] is [0], and an index
    past the end gives the empty list. *)
Definition slice_from {A} (i : Z) (xs : list A) : list A :=
  if i <? 0
  then skipn (Z.to_nat (Z.max (len xs + i) 0)) xs
  else skipn (Z.to_nat i) xs.

(** The last [n] elements (all of them when the list is shorter). *)
Definition lastn {A} (n : nat) (xs : list A) : list A :=
  skipn (length xs - n) xs.

End PyList.
Import PyList.

(** ** The arithmetic the tracker uses *)

Class Arith (F : Type) := {
  f_zero : F;                     (* the literal 0 *)
  f_one : F;                      (* the literal 1 *)
  f_hundred : F;                  (* the literals 100 and 100.0 *)
  f_of_Z : Z -> F;                (* int to float *)
  f_add : F -> F -> F;
  f_sub : F -> F -> F;
  f_mul : F -> F -> F;
  f_div : F -> F -> F;
  f_neg : F -> F;
  f_ltb : F -> F -> bool;         (* < *)
  f_eqb : F -> F -> bool;         (* == *)
  f_is_nan : F -> bool;           (* x != x *)
  f_round2 : F -> F               (* round(x, 2) *)
}.

(** [x <= y]. *)
Definition f_leb {F : Type} `{Arith F} (x y : F) : bool :=
  f_ltb x y || f_eqb x y.

(** ** binary64 *)

Module B64.

Definition prec : Z := 53.
Definition emax : Z := 1024.

Definition float := spec_float.

Definition add : float -> float -> float := SFadd prec emax.
Definition sub : float -> float -> float := SFsub prec emax.
Definition mul : float -> float -> float := SFmul prec emax.
Definition div : float -> float -> float := SFdiv prec emax.
Definition neg : float -> float := SFopp.
Definition ltb : float -> float -> bool := SFltb.
Definition leb : float -> float -> bool := SFleb.
Definition eqb : float -> float -> bool := SFeqb.

(** [float(n)] for a Python integer [n], correctly rounded. *)
Definition of_Z (n : Z) : float := binary_normalize prec emax n 0 false.

Definition zero : float := S754_zero false.
Definition one : float := of_Z 1.
Definition hundred : float := of_Z 100.

(** [numpy.rint]: the nearest integer, ties to even, as a float of the
    same sign.  A finite float with a non-negative exponent is an
    integer already; otherwise the mantissa is shifted right down to
    exponent [0] and rounded on the bits shifted out. *)
Definition rint (x : float) : float :=
  match x with
  | S754_finite s m e =>
      if 0 <=? e then x
      else
        let '(mrs, _) := shr (shr_record_of_loc (Zpos m) loc_Exact) e (- e) in
        let n := round_nearest_even (shr_m mrs) (loc_of_shr_record mrs) in
        binary_normalize prec emax (cond_Zopp s n) 0 s
  | _ => x
  end.

(** [round(x, 2)] of a [numpy.float64], which is what the indicator is
    when it is rounded: NumPy rounds to [d] decimals by scaling,
    [rint(x * 10**d) / 10**d]. *)
Definition round2 (x : float) : float :=
  div (rint (mul x hundred)) hundred.

Definition is_nan (x : float) : bool :=
  match x with S754_nan => true | _ => false end.

(** [0 <= x <= 100]. *)
Definition in_0_100 (x : float) : bool := leb zero x && leb x hundred.

(** The largest finite float. *)
Definition max_float : float := SFmax_float prec emax.

(** A float that binary64 can hold: a finite one has its mantissa in
    canonical form and its exponent in range.  Every Python float is
    one. *)
Definition valid (x : float) : bool := valid_binary prec emax x.

(** Neither NaN nor of negative sign. *)
Definition nonneg (x : float) : bool :=
  match x with
  | S754_zero s | S754_infinity s | S754_finite s _ _ => negb s
  | S754_nan => false
  end.

(** A zero or a finite number. *)
Definition is_finite (x : float) : bool :=
  match x with
  | S754_zero _ | S754_finite _ _ _ => true
  | _ => false
  end.


Fixpoint decreasing (l : list float) : bool :=
  match l with
  | [] => true
  | x :: rest =>
      match rest with
      | [] => true
      | y :: _ => ltb y x && decreasing rest
      end
  end.

End B64.

#[export] Instance binary64 : Arith B64.float := {|
  f_zero := B64.zero;
  f_one := B64.one;
  f_hundred := B64.hundred;
  f_of_Z := B64.of_Z;
  f_add := B64.add;
  f_sub := B64.sub;
  f_mul := B64.mul;
  f_div := B64.div;
  f_neg := B64.neg;
  f_ltb := B64.ltb;
  f_eqb := B64.eqb;
  f_is_nan := B64.is_nan;
  f_round2 := B64.round2
|}.

(** ** numpy on one-dimensional arrays *)

Section Numpy.
Context {F : Type} `{Arith F}.

(** [np.diff(a)]: [out[i] = a[i+1] - a[i]]. *)
Fixpoint np_diff (a : list F) : list F :=
  match a with
  | [] => []
  | x :: rest =>
      match rest with
      | [] => []
      | y :: _ => f_sub y x :: np_diff rest
      end
  end.

(** [np.where(cond, a, 0)] with [cond] computed from [a] itself. *)
Definition np_where (cond : F -> bool) (val : F -> F) (a : list F) : list F :=
  map (fun d => if cond d then val d else f_zero) a.

(** The accumulators of the unrolled loop of NumPy's [pairwise_sum]:
    as long as 8 more elements are left, each of the 8 accumulators
    takes one of them.  The accumulators come back with what is left of
    the array, fewer than 8 elements. *)
Fixpoint unrolled (r : F * F * F * F * F * F * F * F) (a : list F)
    : F * F * F * F * F * F * F * F * list F :=
  match a with
  | x0 :: x1 :: x2 :: x3 :: x4 :: x5 :: x6 :: x7 :: rest =>
      let '(r0, r1, r2, r3, r4, r5, r6, r7) := r in
      unrolled (f_add r0 x0, f_add r1 x1, f_add r2 x2, f_add r3 x3,
                f_add r4 x4, f_add r5 x5, f_add r6 x6, f_add r7 x7) rest
  | _ => (r, a)
  end.

(** [pairwise_sum] on at most 128 elements.  Fewer than 8 are added
    from left to right, starting from the identity of the addition,
    [start].  Otherwise the accumulators start as the first 8 elements
    and go through the unrolled loop; they are added in pairs, and what
    is left of the array is added to that from left to right. *)
Definition sum_block (start : F) (a : list F) : F :=
  match a with
  | x0 :: x1 :: x2 :: x3 :: x4 :: x5 :: x6 :: x7 :: rest =>
      let '(r0, r1, r2, r3, r4, r5, r6, r7, rest') :=
        unrolled (x0, x1, x2, x3, x4, x5, x6, x7) rest in
      fold_left f_add rest'
        (f_add (f_add (f_add r0 r1) (f_add r2 r3))
               (f_add (f_add r4 r5) (f_add r6 r7)))
  | _ => fold_left f_add a start
  end.

(** [pairwise_sum]: more than 128 elements are cut in two, the first
    part half as long as the array, less what makes it a multiple of 8,
    and the sums of the two parts are added.  Each part is shorter than
    the array, so a [fuel] of the length of the array is never used
    up. *)
Fixpoint pairwise_sum (start : F) (fuel : nat) (a : list F) : F :=
  match fuel with
  | S fuel' =>
      if (128 <? length a)%nat then
        let n2 := (length a / 2 - (length a / 2) mod 8)%nat in
        f_add (pairwise_sum start fuel' (firstn n2 a))
              (pairwise_sum start fuel' (skipn n2 a))
      else sum_block start a
  | O => sum_block start a
  end.

(** [np.add.reduce(a)]: the reduction starts from the identity of the
    addition and adds to it the pairwise sum of the array. *)
Definition add_reduce (start : F) (a : list F) : F :=
  f_add start (pairwise_sum start (length a) a).

(** The sum that [np.mean] divides.  The identity of the addition is
    zero.  (Later versions of NumPy take -0.0 for it when the array is
    not empty, so that a sum of negative zeros keeps its sign.  The
    arrays that [calculate_rsi] sums hold no negative number and no
    negative zero, and to them both give the same sum, see
    [add_reduce_negative_zero].) *)
Definition np_sum (a : list F) : F := add_reduce f_zero a.

(** [sum_of P k s]: [s] comes from [k] numbers that satisfy [P] by
    additions in some order, zeros added anywhere. *)
Inductive sum_of (P : F -> Prop) : Z -> F -> Prop :=
| sum_of_zero : sum_of P 0 f_zero
| sum_of_one (x : F) : P x -> sum_of P 1 x
| sum_of_add (j k : Z) (x y : F) :
    sum_of P j x -> sum_of P k y -> sum_of P (j + k) (f_add x y).

(** All 8 accumulators satisfy [Q]. *)
Definition all8 (Q : F -> Prop) (r : F * F * F * F * F * F * F * F) : Prop :=
  let '(r0, r1, r2, r3, r4, r5, r6, r7) := r in
  Q r0 /\ Q r1 /\ Q r2 /\ Q r3 /\ Q r4 /\ Q r5 /\ Q r6 /\ Q r7.

(** [np.mean(a)]: the sum divided by the number of elements. *)
Definition np_mean (a : list F) : F :=
  f_div (np_sum a) (f_of_Z (len a)).

End Numpy.

(** ** [CryptoRSITracker.calculate_rsi] *)

Section RSI.
Context {F : Type} `{Arith F}.

Definition gains_of (deltas : list F) : list F :=
  np_where (fun d => f_ltb f_zero d) (fun d => d) deltas.

Definition losses_of (deltas : list F) : list F :=
  np_where (fun d => f_ltb d f_zero) f_neg deltas.

Definition calculate_rsi (period : Z) (prices : list F) : option F :=
  if len prices <? period + 1 then None
  else
    let deltas := np_diff prices in
    let gains := gains_of deltas in
    let losses := losses_of deltas in
    let avg_gain := np_mean (slice_from (- period) gains) in
    let avg_loss := np_mean (slice_from (- period) losses) in
    if f_eqb avg_loss f_zero then Some f_hundred
    else
      let rs := f_div avg_gain avg_loss in
      let rsi := f_sub f_hundred (f_div f_hundred (f_add f_one rs)) in
      Some (f_round2 rsi).

(** What [calculate_rsi] computes after its length test, as a function
    of the deltas that are averaged. *)
Definition rsi_of_window (deltas : list F) : F :=
  let avg_gain := np_mean (gains_of deltas) in
  let avg_loss := np_mean (losses_of deltas) in
  if f_eqb avg_loss f_zero then f_hundred
  else
    let rs := f_div avg_gain avg_loss in
    let rsi := f_sub f_hundred (f_div f_hundred (f_add f_one rs)) in
    f_round2 rsi.

End RSI.

(** ** The polling loop [CryptoRSITracker.run] *)

(** What Python raises.  [except Exception] catches every exception but
    the ones that stop a process from outside ([KeyboardInterrupt],
    [SystemExit]), which derive from [BaseException] only. *)
Inductive exn :=
| RequestException      (* network or HTTP error of either provider *)
| KeyError              (* the response lacks the price field *)
| ValueError            (* the price is not a number; a negative sleep length *)
| OverflowError         (* a sleep length that the clock cannot count *)
| OtherException        (* anything else deriving from [Exception] *)
| KeyboardInterrupt
| SystemExit.

Definition is_Exception (e : exn) : bool :=
  match e with
  | KeyboardInterrupt | SystemExit => false
  | _ => true
  end.

Inductive result (A : Type) :=
| Ok (a : A)
| Raise (e : exn).
Arguments Ok {A} a.
Arguments Raise {A} e.

(** The state of a tracker that the loop reads and writes. *)
Record tracker (F : Type) := {
  period : Z;
  api_delay : Z;
  prices : list F
}.

(** What one iteration gets from outside: what the request to each of
    the two price providers comes to (the price parsed from the
    response, or the exception raised on the way), the wall clock,
    whether the write to the CSV file succeeds, and the value of
    [random.uniform(-2, 2)], a float between -2 and 2. *)
Record input (F : Type) := {
  in_binance : result F;
  in_coingecko : result F;
  in_now : String.string;
  in_csv_ok : bool;
  in_jitter : F
}.

(** What the loop does to the outside, in order. *)
Inductive event (F : Type) :=
| EvStart                      (* logging.info at the start of run *)
| EvFetch (r : result F)       (* a call of fetch_price and its outcome *)
| EvCsvRow (timestamp : String.string) (price rsi : F)
                               (* a row appended to the CSV file *)
| EvCsvError                   (* log_data logs its own failure *)
| EvLoopError (e : exn)        (* logging.error of the handler *)
| EvSleep (seconds : F)        (* time.sleep of the jittered delay *)
| EvBackoff (seconds : Z).     (* time.sleep of the handler *)
Arguments EvStart {F}.
Arguments EvCsvError {F}.
Arguments EvLoopError {F} e.
Arguments EvBackoff {F} seconds.

Inductive outcome (F : Type) :=
| Continue (t : tracker F)                (* the loop goes to its next iteration *)
| Propagate (e : exn) (t : tracker F).    (* an exception leaves run *)

Definition tracker_of {F} (o : outcome F) : tracker F :=
  match o with
  | Continue t => t
  | Propagate _ t => t
  end.

Section Loop.
Context {F : Type} `{Arith F}.

Definition set_prices (t : tracker F) (ps : list F) : tracker F :=
  {| period := period t; api_delay := api_delay t; prices := ps |}.

(** [fetch_price]: the first provider, and the second one when the
    first fails with a [RequestException].  Any other exception, and any
    exception of the second provider, is logged and raised again. *)
Definition fetch_price (i : input F) : result F :=
  match in_binance i with
  | Ok price => Ok price
  | Raise RequestException => in_coingecko i
  | Raise e => Raise e
  end.

(** [log_data] catches whatever the write raises and logs it. *)
Definition log_data (timestamp : String.string) (price rsi : F)
    (csv_ok : bool) : list (event F) :=
  if csv_ok then [EvCsvRow timestamp price rsi] else [EvCsvError].

(** [time.sleep(seconds)] for a float.  A NaN raises [ValueError].  The
    length is taken in nanoseconds, [seconds * 1e9] rounded away from
    zero to an integer, and that must fit a signed 64-bit integer:
    beyond, and so for an infinite length, [OverflowError] is raised.
    A negative length raises [ValueError].  The rounding to an integer
    changes neither the range test nor the sign (from [2^52] on every
    float is an integer), so both are made on the product.

    In [time.sleep(self.api_delay + jitter)] an [api_delay] beyond the
    range of floats raises [OverflowError] in the addition already;
    here such a delay converts to infinity, the sum with a jitter
    between -2 and 2 is infinite, and the sleep raises the same
    exception. *)
Definition time_sleep (seconds : F) : result unit :=
  if f_is_nan seconds then Raise ValueError
  else
    let ns := f_mul seconds (f_of_Z (10 ^ 9)) in
    if f_leb (f_of_Z (- 2 ^ 63)) ns && f_ltb ns (f_of_Z (2 ^ 63))
    then if f_ltb ns f_zero then Raise ValueError else Ok tt
    else Raise OverflowError.

(** [time.sleep(seconds)] for an int: the same, without rounding. *)
Definition time_sleep_int (seconds : Z) : result unit :=
  let ns := seconds * 10 ^ 9 in
  if (ns <? - 2 ^ 63) || (2 ^ 63 - 1 <? ns) then Raise OverflowError
  else if ns <? 0 then Raise ValueError
  else Ok tt.

(** Keep only the recent prices. *)
Definition trim (period : Z) (ps : list F) : list F :=
  if period * 2 <? len ps then slice_from (- (period * 2)) ps else ps.

(** The delay of the handler. *)
Definition backoff_delay (api_delay : Z) : Z := Z.min (api_delay * 2) 300.

(** The body of [try:].  The assignments made before an exception
    stay. *)
Definition try_body (t : tracker F) (i : input F)
    : tracker F * list (event F) * result unit :=
  match fetch_price i with
  | Raise e => (t, [EvFetch (Raise e)], Raise e)
  | Ok current_price =>
      let t1 := set_prices t (prices t ++ [current_price]) in
      let rsi := calculate_rsi (period t1) (prices t1) in
      let timestamp := in_now i in
      let logged :=
        match rsi with
        | Some r => log_data timestamp current_price r (in_csv_ok i)
        | None => []
        end in
      let t2 := set_prices t1 (trim (period t1) (prices t1)) in
      let delay := f_add (f_of_Z (api_delay t2)) (in_jitter i) in
      (t2, EvFetch (Ok current_price) :: logged ++ [EvSleep delay],
       time_sleep delay)
  end.

(** [except Exception as e:]. *)
Definition handler (t : tracker F) (e : exn) : list (event F) * outcome F :=
  let seconds := backoff_delay (api_delay t) in
  ([EvLoopError e; EvBackoff seconds],
   match time_sleep_int seconds with
   | Ok _ => Continue t
   | Raise e' => Propagate e' t
   end).

(** One pass through the body of [while True:]. *)
Definition iteration (t : tracker F) (i : input F)
    : list (event F) * outcome F :=
  let '(t', evs, r) := try_body t i in
  match r with
  | Ok _ => (evs, Continue t')
  | Raise e =>
      if is_Exception e
      then let '(evs', o) := handler t' e in (evs ++ evs', o)
      else (evs, Propagate e t')
  end.

(** The loop, run against the inputs of its first iterations; it stops
    before the inputs are used up only if an exception leaves it. *)
Fixpoint run_iters (t : tracker F) (inputs : list (input F))
    : list (event F) * outcome F :=
  match inputs with
  | [] => ([], Continue t)
  | i :: rest =>
      match iteration t i with
      | (evs, Continue t') =>
          let '(evs', o) := run_iters t' rest in (evs ++ evs', o)
      | (evs, Propagate e t') => (evs, Propagate e t')
      end
  end.

Definition run (t : tracker F) (inputs : list (input F))
    : list (event F) * outcome F :=
  let '(evs, o) := run_iters t inputs in (EvStart :: evs, o).

(** [CryptoRSITracker(symbol, period, api_delay)]: the history starts
    empty. *)
Definition new_tracker (period api_delay : Z) : tracker F :=
  {| period := period; api_delay := api_delay; prices := [] |}.

(** The prices that the calls of [fetch_price] in a trace returned. *)
Fixpoint fetched (evs : list (event F)) : list F :=
  match evs with
  | [] => []
  | EvFetch (Ok x) :: rest => x :: fetched rest
  | _ :: rest => fetched rest
  end.

(** The rows written to the CSV file in a trace. *)
Fixpoint csv_rows (evs : list (event F)) : list (String.string * F * F) :=
  match evs with
  | [] => []
  | EvCsvRow ts p r :: rest => (ts, p, r) :: csv_rows rest
  | _ :: rest => csv_rows rest
  end.

(** The spec's order of an iteration: observe (append and trim at
    once), then compute the indicator on the trimmed history. *)
Definition try_body_spec_order (t : tracker F) (i : input F)
    : tracker F * list (event F) * result unit :=
  match fetch_price i with
  | Raise e => (t, [EvFetch (Raise e)], Raise e)
  | Ok current_price =>
      let t1 := set_prices t (trim (period t) (prices t ++ [current_price])) in
      let rsi := calculate_rsi (period t1) (prices t1) in
      let logged :=
        match rsi with
        | Some r => log_data (in_now i) current_price r (in_csv_ok i)
        | None => []
        end in
      let delay := f_add (f_of_Z (api_delay t1)) (in_jitter i) in
      (t1, EvFetch (Ok current_price) :: logged ++ [EvSleep delay],
       time_sleep delay)
  end.

(** The number of calls of [fetch_price] in a trace. *)
Fixpoint fetch_calls (evs : list (event F)) : nat :=
  match evs with
  | [] => 0
  | EvFetch _ :: rest => S (fetch_calls rest)
  | _ :: rest => fetch_calls rest
  end.

Definition iteration_spec_order (t : tracker F) (i : input F)
    : list (event F) * outcome F :=
  let '(t', evs, r) := try_body_spec_order t i in
  match r with
  | Ok _ => (evs, Continue t')
  | Raise e =>
      if is_Exception e
      then let '(evs', o) := handler t' e in (evs ++ evs', o)
      else (evs, Propagate e t')
  end.

Fixpoint run_iters_spec_order (t : tracker F) (inputs : list (input F))
    : list (event F) * outcome F :=
  match inputs with
  | [] => ([], Continue t)
  | i :: rest =>
      match iteration_spec_order t i with
      | (evs, Continue t') =>
          let '(evs', o) := run_iters_spec_order t' rest in (evs ++ evs', o)
      | (evs, Propagate e t') => (evs, Propagate e t')
      end
  end.

End Loop.

(** ** Observations on a trace of the loop *)

Section Observers.
Context {F : Type} `{Arith F}.

(** The number of calls of [log_data] in a trace: a call either writes
    its row or logs its own failure. *)
Fixpoint log_calls (evs : list (event F)) : nat :=
  match evs with
  | [] => 0
  | EvCsvRow _ _ _ :: rest => S (log_calls rest)
  | EvCsvError :: rest => S (log_calls rest)
  | _ :: rest => log_calls rest
  end.

(** A trace without what [log_data] did. *)
Fixpoint without_csv (evs : list (event F)) : list (event F) :=
  match evs with
  | [] => []
  | EvCsvRow _ _ _ :: rest => without_csv rest
  | EvCsvError :: rest => without_csv rest
  | ev :: rest => ev :: without_csv rest
  end.

(** The same input with another fate of the CSV write. *)
Definition set_csv_ok (ok : bool) (i : input F) : input F :=
  {| in_binance := in_binance i; in_coingecko := in_coingecko i;
     in_now := in_now i; in_csv_ok := ok; in_jitter := in_jitter i |}.

(** The lengths of the sleeps of the handler in a trace. *)
Fixpoint backoffs (evs : list (event F)) : list Z :=
  match evs with
  | [] => []
  | EvBackoff s :: rest => s :: backoffs rest
  | _ :: rest => backoffs rest
  end.

(** The rows of a trace, each with the prices fetched up to it, given
    the prices [seen] before the trace. *)
Fixpoint rows_with_seen (seen : list F) (evs : list (event F))
    : list (list F * (String.string * F * F)) :=
  match evs with
  | [] => []
  | EvFetch (Ok x) :: rest => rows_with_seen (seen ++ [x]) rest
  | EvCsvRow ts p r :: rest => (seen, (ts, p, r)) :: rows_with_seen seen rest
  | _ :: rest => rows_with_seen seen rest
  end.

(** A call of [time.sleep] that returned, having slept. *)
Definition slept (ev : event F) : bool :=
  match ev with
  | EvSleep s => match time_sleep s with Ok _ => true | Raise _ => false end
  | EvBackoff s => match time_sleep_int s with Ok _ => true | Raise _ => false end
  | _ => false
  end.

(** No provider is asked twice without a sleep in between: every fetch
    but the first of the trace comes after a sleep that followed the
    fetch before it.  [rested] tells whether the loop has slept since
    the last fetch. *)
Fixpoint paced (rested : bool) (evs : list (event F)) : bool :=
  match evs with
  | [] => true
  | EvFetch _ :: rest => rested && paced false rest
  | ev :: rest => paced (rested || slept ev) rest
  end.

(** The prices that [fetch_price] returns on a sequence of inputs. *)
Fixpoint returned (inputs : list (input F)) : list F :=
  match inputs with
  | [] => []
  | i :: rest =>
      match fetch_price i with
      | Ok x => x :: returned rest
      | Raise _ => returned rest
      end
  end.

(** The errors that the handler logged in a trace. *)
Fixpoint loop_errors (evs : list (event F)) : list exn :=
  match evs with
  | [] => []
  | EvLoopError e :: rest => e :: loop_errors rest
  | _ :: rest => loop_errors rest
  end.

(** The exceptions that the inputs make the body of [try:] raise when
    the delay is [d], one for each iteration that fails: that of the
    fetch, or else that of the sleep. *)
Fixpoint failures (d : Z) (inputs : list (input F)) : list exn :=
  match inputs with
  | [] => []
  | i :: rest =>
      match fetch_price i with
      | Raise e => e :: failures d rest
      | Ok _ =>
          match time_sleep (f_add (f_of_Z d) (in_jitter i)) with
          | Raise e => e :: failures d rest
          | Ok _ => failures d rest
          end
      end
  end.

(** What [log_data] is called with, and so what the trace holds between
    the fetch and the sleep. *)
Definition logged_of (t : tracker F) (i : input F) (x : F) : list (event F) :=
  match calculate_rsi (period t) (prices t ++ [x]) with
  | Some r => log_data (in_now i) x r (in_csv_ok i)
  | None => []
  end.

(** What a row holds. *)
Definition row_of (p : Z) (inputs : list (input F))
    (row : list F * (String.string * F * F)) : Prop :=
  let '(seen, (ts, x, r)) := row in
  (exists older, seen = older ++ [x])
  /\ calculate_rsi p seen = Some r
  /\ exists i, In i inputs /\ in_now i = ts /\ fetch_price i = Ok x.

End Observers.

(** ** Python strings

    A string is the sequence of its bytes.  What the tracker does to
    its symbol is modelled for symbols written in ASCII, where bytes and
    characters are the same; [upper] and [lower] change the letters [a]
    to [z] and [A] to [Z] only, as Python does on such a string. *)

Module PyStr.
Import Ascii String.
Local Open Scope string_scope.

Definition is_ascii_char (a : ascii) : bool := (N_of_ascii a <? 128)%N.

Definition is_lower_char (a : ascii) : bool :=
  ((97 <=? N_of_ascii a) && (N_of_ascii a <=? 122))%N.

Definition is_upper_char (a : ascii) : bool :=
  ((65 <=? N_of_ascii a) && (N_of_ascii a <=? 90))%N.

Definition upper_char (a : ascii) : ascii :=
  if is_lower_char a then ascii_of_N (N_of_ascii a - 32) else a.

Definition lower_char (a : ascii) : ascii :=
  if is_upper_char a then ascii_of_N (N_of_ascii a + 32) else a.

Fixpoint map_chars (f : ascii -> ascii) (s : string) : string :=
  match s with
  | EmptyString => EmptyString
  | String a rest => String (f a) (map_chars f rest)
  end.

Fixpoint all_chars (p : ascii -> bool) (s : string) : bool :=
  match s with
  | EmptyString => true
  | String a rest => p a && all_chars p rest
  end.

Definition is_ascii (s : string) : bool := all_chars is_ascii_char s.

(** [s.upper()] and [s.lower()]. *)
Definition upper (s : string) : string := map_chars upper_char s.
Definition lower (s : string) : string := map_chars lower_char s.

(** [s.replace(c, new)] for a pattern [c] of one character. *)
Fixpoint replace_char (c : ascii) (new : string) (s : string) : string :=
  match s with
  | EmptyString => EmptyString
  | String a rest =>
      if Ascii.eqb a c then new ++ replace_char c new rest
      else String a (replace_char c new rest)
  end.

(** [s.startswith(pre)]. *)
Fixpoint starts_with (pre s : string) : bool :=
  match pre with
  | EmptyString => true
  | String a pre' =>
      match s with
      | EmptyString => false
      | String b s' => Ascii.eqb a b && starts_with pre' s'
      end
  end.

(** [sub in s]. *)
Fixpoint contains (sub s : string) : bool :=
  starts_with sub s
  || match s with
     | EmptyString => false
     | String _ rest => contains sub rest
     end.

(** [s.split(sep)[0]] for a separator that is not empty: what comes
    before the first occurrence of [sep], all of [s] when there is
    none. *)
Fixpoint before_first (sep s : string) : string :=
  if starts_with sep s then EmptyString
  else match s with
       | EmptyString => EmptyString
       | String a rest => String a (before_first sep rest)
       end.

End PyStr.

(** ** The names the tracker derives from its symbol *)

Module Names.
Import Ascii String PyStr.
Local Open Scope string_scope.

(** [__init__]: the name of the CSV file. *)
Definition csv_filename (symbol : string) : string :=
  replace_char "/" "_" symbol ++ "_rsi_log.csv".

(** [fetch_price]: the symbol as the first provider wants it. *)
Definition api_symbol (symbol : string) : string :=
  upper (replace_char "/" "" symbol).

(** [fetch_price]: the coin the second provider is asked for, from the
    symbol of the first. *)
Definition coin_id (symbol : string) : string :=
  if contains "BTC" symbol then "bitcoin"
  else before_first "usdt" (lower symbol).

End Names.

(** ** The value of a float and the rounding of the operations *)

(** The exponent of the smallest positive float, [2^-1074]. *)
Definition emin : Z := -1074.

Definition pow2 (e : Z) : Q := (2 ^ e)%Q.

(** [m * 2^e]. *)
Definition scaled (m e : Z) : Q := (inject_Z m * pow2 e)%Q.

(** The rational number that a finite float stands for. *)
Definition value (x : spec_float) : Q :=
  match x with
  | S754_finite s m e => scaled (cond_Zopp s (Zpos m)) e
  | _ => 0%Q
  end.

(** Mantissa and exponent in canonical form, the exponent not bounded
    above: below [2^53], and at least [2^52] unless the exponent is the
    least one. *)
Definition wf (m e : Z) : Prop :=
  emin <= e /\ 0 <= m < 2 ^ 53 /\ (emin < e -> 2 ^ 52 <= m).

(** Where [y] lies between [m] and [m + 1], by the round bit [r] and the
    sticky bit [s]. *)
Definition inbetween (m : Z) (r s : bool) (y : Q) : Prop :=
  match r, s with
  | false, false => (y == inject_Z m)%Q
  | false, true => (inject_Z m < y < inject_Z m + (1 # 2))%Q
  | true, false => (y == inject_Z m + (1 # 2))%Q
  | true, true => (inject_Z m + (1 # 2) < y < inject_Z m + 1)%Q
  end.

(** The record [mrs] locates the number [x] on the grid of step [2^e]. *)
Definition represents (mrs : shr_record) (e : Z) (x : Q) : Prop :=
  0 <= shr_m mrs /\
  inbetween (shr_m mrs) (shr_r mrs) (shr_s mrs) (x * pow2 (- e))%Q.

(** The float that [binary_round_aux] makes of a rounded mantissa and
    its exponent. *)
Definition build (s : bool) (m e : Z) : spec_float :=
  match m with
  | Z0 => S754_zero s
  | Zpos p => if e <=? 971 then S754_finite s p e else S754_infinity s
  | Zneg _ => S754_nan
  end.

(** [m * 2^e] is [x] rounded to a neighbour in the format: the float
    just below or equal, or the one just above when [x] is not in the
    format. *)
Definition faithful (x : Q) (m e : Z) : Prop :=
  wf m e /\
  exists m' e',
    wf m' e' /\ (scaled m' e' <= x < scaled (m' + 1) e')%Q /\
    ((scaled m e == scaled m' e')%Q \/
     ((scaled m' e' < x)%Q /\ (scaled m e == scaled (m' + 1) e')%Q)).

(** A valid float between [0] and [c]. *)
Definition in_range (c x : B64.float) : Prop :=
  B64.valid x = true /\ B64.nonneg x = true /\ B64.leb x c = true.

Definition ten_thousand : B64.float := B64.of_Z 10000.

(** A number that is not zero, of sign [s]: a valid finite float or an
    infinity. *)
Definition signed (s : bool) (x : B64.float) : Prop :=
  exists m e, x = build s m e /\ wf m e /\ 1 <= m.

(** A valid float that is at least [k * 2^-1074]. *)
Definition at_least (k : Z) (x : B64.float) : Prop :=
  B64.valid x = true /\ B64.leb (S754_finite false (Z.to_pos k) emin) x = true.

(** ** Sample data *)

Module Samples.
Import String.

Definition price (n : Z) : B64.float := B64.of_Z n.

(** The history [10, 12, 11, 13] of the worked example. *)
Definition example : list B64.float := [price 10; price 12; price 11; price 13].

Definition short : list B64.float := [price 10; price 12; price 11].


(** Finite prices whose gains and losses both sum to infinity. *)
Definition overflowing : list B64.float :=
  [B64.zero; B64.max_float; B64.zero; B64.max_float; B64.zero].

Definition tracker3 : tracker B64.float :=
  {| period := 3; api_delay := 60; prices := [] |}.

Definition fetching (x : B64.float) : input B64.float :=
  {| in_binance := Ok x; in_coingecko := Raise RequestException;
     in_now := "2024-01-01 00:00:00"%string;
     in_csv_ok := true; in_jitter := B64.one |}.

Definition failing : input B64.float :=
  {| in_binance := Raise RequestException;
     in_coingecko := Raise RequestException;
     in_now := "2024-01-01 00:01:00"%string;
     in_csv_ok := true; in_jitter := B64.one |}.

Definition inputs : list (input B64.float) :=
  [fetching (price 10); fetching (price 12); failing;
   fetching (price 11); fetching (price 13)].

End Samples.

(** More sample data. *)

Module Examples.
Import String.

(** A tracker that polls every second. *)
Definition eager : tracker B64.float :=
  {| period := 3; api_delay := 1; prices := [] |}.

(** A fetch that succeeds, with the lowest jitter. *)
Definition early (x : B64.float) : input B64.float :=
  {| in_binance := Ok x; in_coingecko := Raise RequestException;
     in_now := "2024-01-01 00:00:00"%string;
     in_csv_ok := true; in_jitter := B64.of_Z (-2) |}.

(** Fifteen prices, enough for the default period of 14: going down by
    one; up and down; up by one seven times and down again. *)
Definition slide : list B64.float :=
  map Samples.price [15; 14; 13; 12; 11; 10; 9; 8; 7; 6; 5; 4; 3; 2; 1].

Definition ripple : list B64.float :=
  map Samples.price [44; 45; 43; 44; 46; 47; 45; 46; 48; 47; 49; 48; 50; 49; 51].

Definition hill : list B64.float :=
  map Samples.price [10; 11; 12; 13; 14; 15; 16; 17; 16; 15; 14; 13; 12; 11; 10].

(** The number 1 followed by 13 times [2^-53], half the gap between 1
    and the next float. *)
Definition ragged : list B64.float :=
  B64.one :: repeat (S754_finite false 4503599627370496 (-105)) 13.

(** A fetch that succeeds in an iteration whose CSV write fails. *)
Definition unwritable (x : B64.float) : input B64.float :=
  {| in_binance := Ok x; in_coingecko := Raise RequestException;
     in_now := "2024-01-01 00:04:00"%string;
     in_csv_ok := false; in_jitter := B64.one |}.

(** Five iterations: the third fetch fails, the last write fails. *)
Definition troubled : list (input B64.float) :=
  [Samples.fetching (Samples.price 10); Samples.fetching (Samples.price 12);
   Samples.failing; Samples.fetching (Samples.price 11);
   unwritable (Samples.price 13)].

(** The tracker of the samples after its first three prices. *)
Definition warmed : tracker B64.float :=
  {| period := 3; api_delay := 60;
     prices := [Samples.price 10; Samples.price 12; Samples.price 11] |}.

End Examples.

(** * Properties *)

(** ** Lists and slices *)

Section ListFacts.
Context {A : Type}.

Lemma len_nonneg (xs : list A) : 0 <= len xs.
Proof. unfold len. lia. Qed.

Lemma length_lastn (n : nat) (xs : list A) :
  length (lastn n xs) = Nat.min n (length xs).
Proof. unfold lastn. rewrite length_skipn. lia. Qed.

Lemma lastn_all (n : nat) (xs : list A) :
  (length xs <= n)%nat -> lastn n xs = xs.
Proof.
  intros Hn. unfold lastn.
  replace (length xs - n)%nat with 0%nat by lia. reflexivity.
Qed.

(** A negative slice start no longer than the list takes the last
    elements. *)
Lemma slice_from_neg (n : Z) (xs : list A) :
  1 <= n -> slice_from (- n) xs = lastn (Z.to_nat n) xs.
Proof.
  intros Hn. unfold slice_from, lastn, len.
  destruct (Z.ltb_spec (- n) 0) as [_|]; [|lia].
  f_equal. lia.
Qed.

Lemma lastn_lastn (n k : nat) (xs : list A) :
  (n <= k)%nat -> lastn n (lastn k xs) = lastn n xs.
Proof.
  intros Hnk. unfold lastn at 1 3. rewrite length_lastn.
  unfold lastn. rewrite skipn_skipn. f_equal. lia.
Qed.

Lemma lastn_app_r (n : nat) (xs ys : list A) :
  (n <= length ys)%nat -> lastn n (xs ++ ys) = lastn n ys.
Proof.
  intros Hn. unfold lastn. rewrite length_app, skipn_app.
  replace (length xs + length ys - n - length xs)%nat
    with (length ys - n)%nat by lia.
  rewrite skipn_all2 by lia. reflexivity.
Qed.

Lemma lastn_app_lastn (k : nat) (old new : list A) :
  lastn k (lastn k old ++ new) = lastn k (old ++ new).
Proof.
  destruct (Nat.le_gt_cases k (length new)) as [Hk|Hk].
  - now rewrite !lastn_app_r.
  - destruct (Nat.le_gt_cases (length old) k) as [Ho|Ho].
    + now rewrite (lastn_all old Ho).
    + unfold lastn at 1 3. rewrite !length_app, length_lastn.
      unfold lastn. rewrite !skipn_app, skipn_skipn, length_skipn.
      replace (Nat.min k (length old) + length new - k
               - (length old - (length old - k)))%nat with 0%nat by lia.
      replace (length old + length new - k - length old)%nat with 0%nat by lia.
      cbn [skipn]. f_equal. f_equal. lia.
Qed.

End ListFacts.

(** ** Facts that hold in any arithmetic *)

Section Generic.
Context {F : Type} `{Arith F}.

Lemma length_np_diff (a : list F) :
  length (np_diff a) = (length a - 1)%nat.
Proof.
  induction a as [|x [|y rest] IH]; cbn [np_diff length] in *; lia.
Qed.

Lemma np_diff_skipn (k : nat) (a : list F) :
  np_diff (skipn k a) = skipn k (np_diff a).
Proof.
  revert a. induction k as [|k IH]; intros a; [reflexivity|].
  destruct a as [|x [|y rest]]; try reflexivity.
  - cbn [skipn np_diff]. now destruct k.
  - change (skipn (S k) (x :: y :: rest)) with (skipn k (y :: rest)).
    rewrite IH. reflexivity.
Qed.

Lemma np_diff_lastn (n : nat) (a : list F) :
  (S n <= length a)%nat ->
  np_diff (lastn (S n) a) = lastn n (np_diff a).
Proof.
  intros Hn. unfold lastn. rewrite np_diff_skipn, length_np_diff.
  f_equal. lia.
Qed.

Lemma np_where_lastn (c : F -> bool) (v : F -> F) (n : nat) (a : list F) :
  lastn n (np_where c v a) = np_where c v (lastn n a).
Proof.
  unfold lastn, np_where. rewrite length_map. apply skipn_map.
Qed.

Lemma calculate_rsi_None (period : Z) (ps : list F) :
  len ps < period + 1 -> calculate_rsi period ps = None.
Proof.
  intros Hlen. unfold calculate_rsi.
  destruct (Z.ltb_spec (len ps) (period + 1)); [reflexivity | lia].
Qed.

(** With enough history the indicator is computed from the last
    [period] deltas, the deltas of the last [period + 1] prices. *)
Lemma calculate_rsi_Some (period : Z) (ps : list F) :
  1 <= period -> period + 1 <= len ps ->
  calculate_rsi period ps =
  Some (rsi_of_window (np_diff (lastn (Z.to_nat (period + 1)) ps))).
Proof.
  intros Hp Hlen. unfold calculate_rsi, rsi_of_window.
  destruct (Z.ltb_spec (len ps) (period + 1)); [lia|].
  rewrite !slice_from_neg by assumption.
  unfold gains_of, losses_of. rewrite !np_where_lastn.
  replace (Z.to_nat (period + 1)) with (S (Z.to_nat period)) by lia.
  rewrite np_diff_lastn by (unfold len in Hlen; lia).
  destruct (f_eqb _ _); reflexivity.
Qed.

Lemma trim_lastn (period : Z) (ps : list F) :
  1 <= period -> trim period ps = lastn (Z.to_nat (period * 2)) ps.
Proof.
  intros Hp. unfold trim.
  destruct (Z.ltb_spec (period * 2) (len ps)) as [Hgt|Hle].
  - apply slice_from_neg. lia.
  - symmetry. apply lastn_all. unfold len in Hle. lia.
Qed.

End Generic.

(** ** The sum of an array, in any arithmetic *)

Section Sums.
Context {F : Type} `{Arith F}.
Variable P : F -> Prop.

Lemma sum_of_count (k : Z) (s : F) : sum_of P k s -> 0 <= k.
Proof. induction 1; lia. Qed.

Lemma fold_left_sum_of (l : list F) (acc : F) (k : Z) :
  sum_of P k acc -> Forall P l -> sum_of P (k + len l) (fold_left f_add l acc).
Proof.
  revert acc k. induction l as [|x l IH]; intros acc k Hacc Hl.
  - cbn. now rewrite Z.add_0_r.
  - inversion Hl as [|? ? Hx Hl']; subst. cbn [fold_left].
    replace (k + len (x :: l)) with (k + 1 + len l)
      by (unfold len; cbn [length]; lia).
    apply IH; [|assumption]. apply sum_of_add; [assumption|]. now apply sum_of_one.
Qed.

Lemma unrolled_sum_of (n : nat) :
  forall (a : list F) (r : F * F * F * F * F * F * F * F) (k : Z),
    (length a <= n)%nat -> all8 (sum_of P k) r -> Forall P a ->
    exists k',
      all8 (sum_of P k') (fst (unrolled r a))
      /\ Forall P (snd (unrolled r a))
      /\ 8 * k' + len (snd (unrolled r a)) = 8 * k + len a.
Proof.
  induction n as [|n IH]; intros a r k Hn Hr Ha.
  - destruct a; [|cbn in Hn; lia]. exists k. cbn. auto.
  - destruct a as [|x0 [|x1 [|x2 [|x3 [|x4 [|x5 [|x6 [|x7 rest]]]]]]]];
      try solve [exists k; cbn [unrolled fst snd]; auto].
    destruct r as [[[[[[[r0 r1] r2] r3] r4] r5] r6] r7].
    cbn [unrolled].
    repeat match goal with
           | H : Forall P (_ :: _) |- _ =>
               let Hx := fresh "Hx" in
               let Hl := fresh "Hl" in
               inversion H as [|? ? Hx Hl]; subst; clear H
           end.
    destruct Hr as (H0 & H1 & H2 & H3 & H4 & H5 & H6 & H7).
    destruct (IH rest
                (f_add r0 x0, f_add r1 x1, f_add r2 x2, f_add r3 x3,
                 f_add r4 x4, f_add r5 x5, f_add r6 x6, f_add r7 x7) (k + 1))
      as (k' & Hr' & Hrest & Hk).
    + cbn [length] in Hn. lia.
    + cbn [all8]. repeat split; apply sum_of_add; try assumption;
        now apply sum_of_one.
    + assumption.
    + exists k'. split; [exact Hr'|]. split; [exact Hrest|].
      rewrite Hk. unfold len. cbn [length]. lia.
Qed.

Lemma sum_block_sum_of (a : list F) :
  Forall P a -> sum_of P (len a) (sum_block f_zero a).
Proof.
  intros Ha.
  assert (Hsmall : sum_of P (len a) (fold_left f_add a f_zero)).
  { change (len a) with (0 + len a). apply fold_left_sum_of; [constructor | exact Ha]. }
  destruct a as [|x0 [|x1 [|x2 [|x3 [|x4 [|x5 [|x6 [|x7 rest]]]]]]]];
    try exact Hsmall.
  clear Hsmall. cbn [sum_block].
  repeat match goal with
         | H : Forall P (_ :: _) |- _ =>
             let Hx := fresh "Hx" in
             let Hl := fresh "Hl" in
             inversion H as [|? ? Hx Hl]; subst; clear H
         end.
  destruct (@unrolled_sum_of (length rest) rest (x0, x1, x2, x3, x4, x5, x6, x7) 1)
    as (k' & Hr' & Hrest & Hk).
  - lia.
  - cbn [all8]. repeat split; now apply sum_of_one.
  - assumption.
  - destruct (unrolled _ rest) as [[[[[[[[r0 r1] r2] r3] r4] r5] r6] r7] rest'].
    cbn [fst snd all8] in *.
    destruct Hr' as (H0 & H1 & H2 & H3 & H4 & H5 & H6 & H7).
    replace (len (x0 :: x1 :: x2 :: x3 :: x4 :: x5 :: x6 :: x7 :: rest))
      with (k' + k' + (k' + k') + (k' + k' + (k' + k')) + len rest')
      by (unfold len in *; cbn [length]; lia).
    apply fold_left_sum_of; [|assumption].
    repeat apply sum_of_add; assumption.
Qed.

Lemma pairwise_sum_sum_of (fuel : nat) (a : list F) :
  Forall P a -> sum_of P (len a) (pairwise_sum f_zero fuel a).
Proof.
  revert a. induction fuel as [|fuel IH]; intros a Ha; cbn [pairwise_sum].
  - now apply sum_block_sum_of.
  - destruct (128 <? length a)%nat; [|now apply sum_block_sum_of].
    set (n2 := (length a / 2 - (length a / 2) mod 8)%nat).
    replace (len a) with (len (firstn n2 a) + len (skipn n2 a)).
    + apply sum_of_add; apply IH.
      * rewrite <- (firstn_skipn n2 a) in Ha. now apply Forall_app in Ha.
      * rewrite <- (firstn_skipn n2 a) in Ha. now apply Forall_app in Ha.
    + unfold len. rewrite <- Nat2Z.inj_add, <- length_app, firstn_skipn. reflexivity.
Qed.

(** Whatever the array, its sum comes from its elements by additions. *)
Lemma np_sum_sum_of (a : list F) : Forall P a -> sum_of P (len a) (np_sum a).
Proof.
  intros Ha. unfold np_sum, add_reduce. change (len a) with (0 + len a).
  apply sum_of_add; [constructor | now apply pairwise_sum_sum_of].
Qed.

End Sums.

(** ** The recursion of [pairwise_sum] *)

Section Fuel.
Context {F : Type} `{Arith F}.

Lemma halves_shorter (n : nat) :
  (128 < n)%nat ->
  let n2 := (n / 2 - (n / 2) mod 8)%nat in
  (1 <= n2 < n)%nat.
Proof.
  intros Hn n2. unfold n2.
  pose proof (Nat.mod_upper_bound (n / 2) 8 ltac:(lia)).
  pose proof (Nat.div_lt n 2 ltac:(lia) ltac:(lia)).
  assert (64 <= n / 2)%nat by (apply Nat.div_le_lower_bound; lia).
  lia.
Qed.

(** More fuel than the length of the array changes nothing. *)
Lemma pairwise_sum_fuel (start : F) (fuel1 : nat) :
  forall (fuel2 : nat) (a : list F),
    (length a <= fuel1)%nat -> (length a <= fuel2)%nat ->
    pairwise_sum start fuel1 a = pairwise_sum start fuel2 a.
Proof.
  induction fuel1 as [|fuel1 IH]; intros fuel2 a H1 H2.
  - destruct a; [|cbn in H1; lia]. now destruct fuel2.
  - destruct fuel2 as [|fuel2].
    + destruct a; [|cbn in H2; lia]. reflexivity.
    + cbn [pairwise_sum].
      destruct (Nat.ltb_spec 128 (length a)) as [Hbig|_]; [|reflexivity].
      pose proof (halves_shorter Hbig) as Hn2. cbn zeta in Hn2.
      set (n2 := (length a / 2 - (length a / 2) mod 8)%nat) in *.
      f_equal; apply IH; rewrite ?length_firstn, ?length_skipn; lia.
Qed.

(** The recursion of [pairwise_sum], as NumPy writes it. *)
Lemma pairwise_sum_eq (start : F) (a : list F) :
  pairwise_sum start (length a) a =
    if (128 <? length a)%nat then
      let n2 := (length a / 2 - (length a / 2) mod 8)%nat in
      f_add (pairwise_sum start (length (firstn n2 a)) (firstn n2 a))
            (pairwise_sum start (length (skipn n2 a)) (skipn n2 a))
    else sum_block start a.
Proof.
  destruct (length a) as [|n] eqn:Hl.
  - reflexivity.
  - cbn [pairwise_sum]. rewrite Hl.
    destruct (Nat.ltb_spec 128 (S n)) as [Hbig|_]; [|reflexivity].
    pose proof (halves_shorter Hbig) as Hn2. cbn zeta in Hn2. cbn zeta.
    set (n2 := (S n / 2 - (S n / 2) mod 8)%nat) in *.
    f_equal; apply pairwise_sum_fuel; rewrite ?length_firstn, ?length_skipn; lia.
Qed.

End Fuel.

(** ** The loop, in any arithmetic *)

Section LoopFacts.
Context {F : Type} `{Arith F}.

Lemma fetched_app (a b : list (event F)) :
  fetched (a ++ b) = fetched a ++ fetched b.
Proof.
  induction a as [|ev a IH]; [reflexivity|].
  destruct ev as [ | [x|e] | | | | | ]; cbn [app fetched]; now rewrite ?IH.
Qed.

Lemma fetch_calls_app (a b : list (event F)) :
  (fetch_calls (a ++ b) = fetch_calls a + fetch_calls b)%nat.
Proof.
  induction a as [|ev a IH]; [reflexivity|].
  destruct ev; cbn [app fetch_calls]; now rewrite ?IH.
Qed.

Lemma fetched_log_data ts (p r : F) ok : fetched (log_data ts p r ok) = [].
Proof. now destruct ok. Qed.

Lemma fetch_calls_log_data ts (p r : F) ok : fetch_calls (log_data ts p r ok) = 0%nat.
Proof. now destruct ok. Qed.

(** What the body of [try:] does when the fetch succeeds. *)
Lemma try_body_Ok (t : tracker F) (i : input F) (x : F) :
  fetch_price i = Ok x ->
  exists logged r,
    try_body t i =
      (set_prices t (trim (period t) (prices t ++ [x])),
       EvFetch (Ok x) :: logged
         ++ [EvSleep (f_add (f_of_Z (api_delay t)) (in_jitter i))],
       r)
    /\ fetched logged = [] /\ fetch_calls logged = 0%nat
    /\ (forall e, r = Raise e -> is_Exception e = true).
Proof.
  intros Hf. unfold try_body. rewrite Hf. cbn [period prices api_delay set_prices].
  eexists _, _. split; [reflexivity|].
  repeat split.
  - destruct (calculate_rsi _ _); [apply fetched_log_data | reflexivity].
  - destruct (calculate_rsi _ _); [apply fetch_calls_log_data | reflexivity].
  - intros e. unfold time_sleep.
    destruct (f_is_nan _); [|destruct (_ && _); [destruct (f_ltb _ _)|]];
      intros [= <-]; reflexivity.
Qed.

Lemma try_body_Raise (t : tracker F) (i : input F) (e : exn) :
  fetch_price i = Raise e ->
  try_body t i = (t, [EvFetch (Raise e)], Raise e).
Proof. intros Hf. unfold try_body. now rewrite Hf. Qed.

(** The state after an iteration, however it ends. *)
Lemma iteration_state (t : tracker F) (i : input F) :
  tracker_of (snd (iteration t i)) =
    match fetch_price i with
    | Ok x => set_prices t (trim (period t) (prices t ++ [x]))
    | Raise _ => t
    end
  /\ fetched (fst (iteration t i)) =
    match fetch_price i with Ok x => [x] | Raise _ => [] end
  /\ fetch_calls (fst (iteration t i)) = 1%nat.
Proof.
  unfold iteration.
  destruct (fetch_price i) as [x|e] eqn:Hf.
  - destruct (try_body_Ok t i Hf) as (logged & r & -> & Hl & Hc & _).
    destruct r as [u|e]; [|destruct (is_Exception e)];
      unfold handler; try destruct (time_sleep_int _);
      cbn [fst snd tracker_of];
      rewrite ?app_comm_cons, ?fetched_app, ?fetch_calls_app;
      cbn [fetched fetch_calls]; rewrite ?fetched_app, ?fetch_calls_app, Hl, Hc;
      cbn; auto.
  - rewrite (try_body_Raise t i Hf).
    destruct (is_Exception e); unfold handler;
      try destruct (time_sleep_int _); cbn; auto.
Qed.

Lemma run_iters_cons (t : tracker F) (i : input F) (rest : list (input F)) :
  run_iters t (i :: rest) =
    match snd (iteration t i) with
    | Continue t' =>
        (fst (iteration t i) ++ fst (run_iters t' rest),
         snd (run_iters t' rest))
    | Propagate e t' => (fst (iteration t i), Propagate e t')
    end.
Proof.
  cbn [run_iters]. destruct (iteration t i) as [evs [t'|e t']]; cbn [fst snd].
  - now destruct (run_iters t' rest).
  - reflexivity.
Qed.

(** The history after the loop has run: the last [2 * period] of what
    it held before followed by what was fetched. *)
Lemma run_iters_history (inputs : list (input F)) (t : tracker F) :
  1 <= period t ->
  len (prices t) <= period t * 2 ->
  let r := run_iters t inputs in
  prices (tracker_of (snd r)) =
    lastn (Z.to_nat (period t * 2)) (prices t ++ fetched (fst r))
  /\ period (tracker_of (snd r)) = period t.
Proof.
  revert t. induction inputs as [|i rest IH]; intros t Hp Hlen; cbn zeta.
  - cbn. rewrite app_nil_r. split; [|reflexivity].
    symmetry. apply lastn_all. unfold len in Hlen. lia.
  - rewrite run_iters_cons.
    destruct (iteration_state t i) as (Hst & Hfe & _).
    assert (Hone : prices (tracker_of (snd (iteration t i))) =
              lastn (Z.to_nat (period t * 2))
                (prices t ++ fetched (fst (iteration t i)))
            /\ period (tracker_of (snd (iteration t i))) = period t).
    { rewrite Hst, Hfe. destruct (fetch_price i) as [x|e].
      - cbn [set_prices prices period]. split; [|reflexivity].
        now apply trim_lastn.
      - rewrite app_nil_r. split; [|reflexivity].
        symmetry. apply lastn_all. unfold len in Hlen. lia. }
    destruct Hone as [Hpr Hper].
    destruct (snd (iteration t i)) as [t'|e t']; cbn [tracker_of] in *;
      cbn [fst snd tracker_of]; [|auto].
    assert (Hlen' : len (prices t') <= period t' * 2).
    { rewrite Hpr, Hper. unfold len. rewrite length_lastn. lia. }
    destruct (IH t' ltac:(lia) Hlen') as [IH1 IH2].
    rewrite IH1, IH2, Hper, Hpr, fetched_app, app_assoc.
    split; [|reflexivity].
    apply lastn_app_lastn.
Qed.

Lemma iteration_starts_with_fetch (t : tracker F) (i : input F) :
  exists evs, fst (iteration t i) = EvFetch (fetch_price i) :: evs.
Proof.
  unfold iteration. destruct (fetch_price i) as [x|e] eqn:Hf.
  - destruct (try_body_Ok t i Hf) as (logged & r & -> & _).
    destruct r as [u|e]; [|destruct (is_Exception e)];
      unfold handler; cbn [fst app]; eauto.
  - rewrite (try_body_Raise t i Hf).
    destruct (is_Exception e); unfold handler; cbn [fst app]; eauto.
Qed.

Lemma try_body_api_delay (t t' : tracker F) (i : input F) evs r :
  try_body t i = (t', evs, r) -> api_delay t' = api_delay t.
Proof.
  unfold try_body. destruct (fetch_price i); intros [= <- _ _]; reflexivity.
Qed.

Lemma try_body_raises (t t' : tracker F) (i : input F) evs e :
  try_body t i = (t', evs, Raise e) ->
  is_Exception e = true \/ fetch_price i = Raise e.
Proof.
  destruct (fetch_price i) as [x|e0] eqn:Hf.
  - destruct (try_body_Ok t i Hf) as (logged & r & -> & _ & _ & Hr).
    intros Heq. injection Heq as _ _ Hr'. left. now apply Hr.
  - rewrite (try_body_Raise t i Hf). intros Heq.
    injection Heq as _ _ He. right. now rewrite He.
Qed.

(** An exception that the handler catches: the error is logged, the
    loop sleeps for the backoff delay and goes on, unless the sleep
    itself is refused. *)
Lemma iteration_handled (t t' : tracker F) (i : input F) evs e :
  try_body t i = (t', evs, Raise e) -> is_Exception e = true ->
  iteration t i =
    (evs ++ [EvLoopError e; EvBackoff (backoff_delay (api_delay t))],
     match time_sleep_int (backoff_delay (api_delay t)) with
     | Ok _ => Continue t'
     | Raise e' => Propagate e' t'
     end).
Proof.
  intros Hb He. unfold iteration. rewrite Hb, He. unfold handler.
  rewrite (try_body_api_delay _ _ Hb). reflexivity.
Qed.

(** The handler's sleep is accepted when the delay is not negative. *)
Lemma backoff_delay_nonneg (d : Z) :
  0 <= d -> time_sleep_int (backoff_delay d) = Ok tt.
Proof.
  intros Hd. unfold time_sleep_int, backoff_delay.
  change (10 ^ 9) with 1000000000.
  change (2 ^ 63) with 9223372036854775808.
  rewrite !(proj2 (Z.ltb_ge _ _)) by lia. reflexivity.
Qed.

(** With a delay that is not negative, an iteration ends the loop only
    when the fetch is interrupted from outside. *)
Lemma iteration_continues (t : tracker F) (i : input F) :
  0 <= api_delay t ->
  (exists t', snd (iteration t i) = Continue t' /\ api_delay t' = api_delay t)
  \/ (exists e, snd (iteration t i) = Propagate e t
                /\ fetch_price i = Raise e /\ is_Exception e = false).
Proof.
  intros Hd.
  destruct (try_body t i) as [[t' evs] r] eqn:Hb.
  pose proof (try_body_api_delay _ _ Hb) as Hd'.
  destruct r as [u|e].
  - left. unfold iteration. rewrite Hb. cbn. eauto.
  - destruct (is_Exception e) eqn:He.
    + left. rewrite (iteration_handled _ _ Hb He), backoff_delay_nonneg by lia.
      cbn. eauto.
    + right. destruct (try_body_raises _ _ Hb) as [He'|Hf]; [congruence|].
      rewrite (try_body_Raise t i Hf) in Hb. injection Hb as <- <-.
      unfold iteration. rewrite (try_body_Raise t i Hf), He. cbn. eauto.
Qed.

(** Trimming the history does not change the indicator. *)
Lemma calculate_rsi_trim (p : Z) (ps : list F) :
  1 <= p -> calculate_rsi p (trim p ps) = calculate_rsi p ps.
Proof.
  intros Hp. unfold trim.
  destruct (Z.ltb_spec (p * 2) (len ps)) as [Hgt|Hle]; [|reflexivity].
  rewrite slice_from_neg by lia.
  assert (Hl : len (lastn (Z.to_nat (p * 2)) ps) = p * 2).
  { unfold len in *. rewrite length_lastn. lia. }
  rewrite !calculate_rsi_Some by lia.
  rewrite lastn_lastn by lia. reflexivity.
Qed.

Lemma try_body_spec_order_eq (t : tracker F) (i : input F) :
  1 <= period t -> try_body_spec_order t i = try_body t i.
Proof.
  intros Hp. unfold try_body, try_body_spec_order.
  destruct (fetch_price i) as [x|e]; [|reflexivity].
  cbn [set_prices period prices api_delay].
  now rewrite calculate_rsi_trim.
Qed.

Lemma iteration_spec_order_eq (t : tracker F) (i : input F) :
  1 <= period t -> iteration_spec_order t i = iteration t i.
Proof.
  intros Hp. unfold iteration, iteration_spec_order.
  now rewrite try_body_spec_order_eq.
Qed.

Lemma iteration_period (t : tracker F) (i : input F) :
  period (tracker_of (snd (iteration t i))) = period t.
Proof.
  destruct (iteration_state t i) as (-> & _).
  now destruct (fetch_price i).
Qed.

Lemma backoffs_app (a b : list (event F)) :
  backoffs (a ++ b) = backoffs a ++ backoffs b.
Proof.
  induction a as [|ev a IH]; [reflexivity|].
  destruct ev; cbn [app backoffs]; now rewrite ?IH.
Qed.

(** The whole of an iteration whose fetch succeeds. *)
Lemma iteration_Ok (t : tracker F) (i : input F) (x : F) :
  fetch_price i = Ok x ->
  let t' := set_prices t (trim (period t) (prices t ++ [x])) in
  let delay := f_add (f_of_Z (api_delay t)) (in_jitter i) in
  iteration t i =
    match time_sleep delay with
    | Ok _ =>
        (EvFetch (Ok x) :: logged_of t i x ++ [EvSleep delay], Continue t')
    | Raise e =>
        (EvFetch (Ok x) :: logged_of t i x
           ++ [EvSleep delay; EvLoopError e;
               EvBackoff (backoff_delay (api_delay t))],
         match time_sleep_int (backoff_delay (api_delay t)) with
         | Ok _ => Continue t'
         | Raise e' => Propagate e' t'
         end)
    end.
Proof.
  intros Hf t' delay. unfold iteration, try_body. rewrite Hf.
  cbn [set_prices period prices api_delay]. fold t' delay.
  unfold logged_of.
  destruct (time_sleep delay) as [u|e] eqn:Hs; [reflexivity|].
  assert (He : is_Exception e = true).
  { unfold time_sleep in Hs.
    destruct (f_is_nan _); [|destruct (_ && _); [destruct (f_ltb _ _)|]];
      try discriminate; injection Hs as <-; reflexivity. }
  rewrite He. unfold handler.
  cbn [api_delay set_prices]. rewrite <- app_comm_cons, <- app_assoc. cbn [app].
  now destruct (time_sleep_int _).
Qed.

Lemma iteration_Raise (t : tracker F) (i : input F) (e : exn) :
  fetch_price i = Raise e ->
  iteration t i =
    if is_Exception e
    then ([EvFetch (Raise e); EvLoopError e;
           EvBackoff (backoff_delay (api_delay t))],
          match time_sleep_int (backoff_delay (api_delay t)) with
          | Ok _ => Continue t
          | Raise e' => Propagate e' t
          end)
    else ([EvFetch (Raise e)], Propagate e t).
Proof.
  intros Hf. unfold iteration. rewrite (try_body_Raise t i Hf).
  destruct (is_Exception e); [|reflexivity].
  unfold handler. now destruct (time_sleep_int _).
Qed.

Lemma fetched_logged_of t i (x : F) : fetched (logged_of t i x) = [].
Proof.
  unfold logged_of. destruct (calculate_rsi _ _); [apply fetched_log_data | reflexivity].
Qed.

Lemma loop_errors_app (a b : list (event F)) :
  loop_errors (a ++ b) = loop_errors a ++ loop_errors b.
Proof.
  induction a as [|ev a IH]; [reflexivity|].
  destruct ev; cbn [app loop_errors]; now rewrite ?IH.
Qed.

Lemma fetch_calls_logged_of (t : tracker F) (i : input F) (x : F) :
  fetch_calls (logged_of t i x) = 0%nat.
Proof.
  unfold logged_of. destruct (calculate_rsi _ _); [|reflexivity].
  now destruct (in_csv_ok i).
Qed.

Lemma loop_errors_logged_of (t : tracker F) (i : input F) (x : F) :
  loop_errors (logged_of t i x) = [].
Proof.
  unfold logged_of. destruct (calculate_rsi _ _); [|reflexivity].
  now destruct (in_csv_ok i).
Qed.

Lemma backoffs_logged_of (t : tracker F) (i : input F) (x : F) :
  backoffs (logged_of t i x) = [].
Proof.
  unfold logged_of. destruct (calculate_rsi _ _); [|reflexivity].
  now destruct (in_csv_ok i).
Qed.

(** A write that fails is logged by [log_data] itself. *)
Lemma logged_of_csv_error (t : tracker F) (i : input F) (x r : F) :
  calculate_rsi (period t) (prices t ++ [x]) = Some r ->
  in_csv_ok i = false -> logged_of t i x = [EvCsvError].
Proof. intros Hr Hok. unfold logged_of, log_data. now rewrite Hr, Hok. Qed.

(** The whole of an iteration when the delay is not negative. *)
Lemma iteration_Ok_continues (t : tracker F) (i : input F) (x : F) :
  0 <= api_delay t -> fetch_price i = Ok x ->
  let delay := f_add (f_of_Z (api_delay t)) (in_jitter i) in
  iteration t i =
    (EvFetch (Ok x) :: logged_of t i x ++ EvSleep delay ::
       match time_sleep delay with
       | Ok _ => []
       | Raise e => [EvLoopError e; EvBackoff (backoff_delay (api_delay t))]
       end,
     Continue (set_prices t (trim (period t) (prices t ++ [x])))).
Proof.
  intros Hd Hf delay. pose proof (iteration_Ok t i Hf) as Hit.
  cbn zeta in Hit. fold delay in Hit. rewrite Hit.
  rewrite (backoff_delay_nonneg Hd). now destruct (time_sleep delay).
Qed.

Lemma iteration_Raise_continues (t : tracker F) (i : input F) (e : exn) :
  0 <= api_delay t -> fetch_price i = Raise e -> is_Exception e = true ->
  iteration t i =
    ([EvFetch (Raise e); EvLoopError e; EvBackoff (backoff_delay (api_delay t))],
     Continue t).
Proof.
  intros Hd Hf He. rewrite (iteration_Raise t i Hf), He.
  now rewrite (backoff_delay_nonneg Hd).
Qed.

(** The loop logs every failure of the body, once and in order, and
    sleeps for the backoff delay after each. *)
Lemma run_iters_errors (inputs : list (input F)) (t : tracker F) :
  0 <= api_delay t ->
  (forall i e, In i inputs -> fetch_price i = Raise e -> is_Exception e = true) ->
  exists evs t',
    run_iters t inputs = (evs, Continue t')
    /\ api_delay t' = api_delay t
    /\ fetch_calls evs = length inputs
    /\ loop_errors evs = failures (api_delay t) inputs
    /\ backoffs evs
       = map (fun _ => backoff_delay (api_delay t)) (loop_errors evs).
Proof.
  revert t. induction inputs as [|i rest IH]; intros t Hd Hin.
  - exists [], t. repeat split; reflexivity.
  - rewrite run_iters_cons. cbn [failures].
    destruct (fetch_price i) as [x|e] eqn:Hf.
    + rewrite (iteration_Ok_continues t i Hd Hf). cbn [fst snd].
      set (t1 := set_prices t (trim (period t) (prices t ++ [x]))).
      destruct (IH t1 Hd) as (evs & t' & Hrun & Hd' & Hn & He & Hb).
      { intros i0 e0 Hi0. apply Hin. now right. }
      rewrite Hrun. cbn [fst snd]. eexists _, t'. split; [reflexivity|].
      split; [exact Hd'|].
      cbn [api_delay t1 set_prices] in He, Hb.
      cbn [fetch_calls loop_errors backoffs app].
      rewrite ?fetch_calls_app, ?loop_errors_app, ?backoffs_app.
      rewrite fetch_calls_logged_of, loop_errors_logged_of, backoffs_logged_of.
      cbn [fetch_calls loop_errors backoffs app].
      rewrite ?fetch_calls_app, ?loop_errors_app, ?backoffs_app, Hn, Hb, He.
      destruct (time_sleep _); cbn [fetch_calls loop_errors backoffs app map length];
        repeat split; reflexivity.
    + pose proof (Hin i e (or_introl eq_refl) Hf) as He.
      rewrite (iteration_Raise_continues t i Hd Hf He). cbn [fst snd].
      destruct (IH t Hd) as (evs & t' & Hrun & Hd' & Hn & Hl & Hb).
      { intros i0 e0 Hi0. apply Hin. now right. }
      rewrite Hrun. cbn [fst snd]. eexists _, t'. split; [reflexivity|].
      split; [exact Hd'|].
      cbn [fetch_calls loop_errors backoffs app map length].
      rewrite Hn, Hb, Hl. repeat split; reflexivity.
Qed.

(** The prices in the trace are those that [fetch_price] returned in
    the iterations that the loop went through, and the loop goes
    through every input unless an exception leaves it. *)
Lemma run_iters_fetched (inputs : list (input F)) (t : tracker F) :
  let r := run_iters t inputs in
  fetched (fst r) = returned (firstn (fetch_calls (fst r)) inputs)
  /\ (forall t', snd r = Continue t' -> fetch_calls (fst r) = length inputs).
Proof.
  revert t. induction inputs as [|i rest IH]; intros t; cbn zeta.
  - split; reflexivity.
  - rewrite run_iters_cons.
    destruct (iteration_state t i) as (_ & Hfe & Hc).
    destruct (snd (iteration t i)) as [t1|e t1]; cbn [fst snd].
    + destruct (IH t1) as [IH1 IH2].
      rewrite fetched_app, fetch_calls_app, Hfe, Hc, IH1.
      cbn [Nat.add firstn returned]. split.
      * now destruct (fetch_price i).
      * intros t' Ht'. cbn [length]. f_equal. now apply (IH2 t').
    + rewrite Hfe, Hc. cbn [firstn returned]. split; [|discriminate].
      now destruct (fetch_price i).
Qed.

End LoopFacts.

(** * binary64

    What follows relates the operations of [SpecFloat] to the rational
    numbers that floats stand for, as far as the claims need it: each
    operation returns one of the two floats that enclose the exact
    result (the nearer one in fact, which is not needed here), and
    comparisons of valid floats compare their values. *)

Unset Implicit Arguments.

(** An inequality between rationals that are integers, by [lia]. *)
Ltac of_integers :=
  change 0%Q with (inject_Z 0); change 1%Q with (inject_Z 1);
  change 2%Q with (inject_Z 2);
  rewrite <- ?inject_Z_mult, <- ?inject_Z_plus;
  first [rewrite <- Zlt_Qlt | rewrite <- Zle_Qle]; lia.

(** ** Powers of two and the number of digits *)

Lemma pow2_pos e : (0 < pow2 e)%Q.
Proof. unfold pow2. apply Qpower_0_lt. reflexivity. Qed.

Lemma pow2_add a b : (pow2 (a + b) == pow2 a * pow2 b)%Q.
Proof. unfold pow2. apply Qpower_plus. discriminate. Qed.

Lemma pow2_inj (n : Z) : 0 <= n -> (pow2 n == inject_Z (2 ^ n))%Q.
Proof. intros. unfold pow2. rewrite Zpower_Qpower by assumption. reflexivity. Qed.

Lemma pow2_le a b : a <= b -> (pow2 a <= pow2 b)%Q.
Proof. intros. unfold pow2. apply Qpower_le_compat_l; [assumption|]. discriminate. Qed.

Lemma pow2_0 : (pow2 0 == 1)%Q.
Proof. reflexivity. Qed.

Lemma digits2_pos_spec (m : positive) :
  2 ^ (Zpos (digits2_pos m) - 1) <= Zpos m < 2 ^ Zpos (digits2_pos m).
Proof.
  induction m as [p IH|p IH|]; cbn [digits2_pos].
  - rewrite Pos2Z.inj_succ, (Pos2Z.inj_xI p).
    replace (Z.succ (Zpos (digits2_pos p)) - 1)
      with (Z.succ (Zpos (digits2_pos p) - 1)) by lia.
    rewrite !Z.pow_succ_r by lia.
    set (a := 2 ^ (Zpos (digits2_pos p) - 1)) in *.
    set (b := 2 ^ Zpos (digits2_pos p)) in *. clearbody a b. lia.
  - rewrite Pos2Z.inj_succ, (Pos2Z.inj_xO p).
    replace (Z.succ (Zpos (digits2_pos p)) - 1)
      with (Z.succ (Zpos (digits2_pos p) - 1)) by lia.
    rewrite !Z.pow_succ_r by lia.
    set (a := 2 ^ (Zpos (digits2_pos p) - 1)) in *.
    set (b := 2 ^ Zpos (digits2_pos p)) in *. clearbody a b. lia.
  - cbn. lia.
Qed.

Lemma Zdigits2_spec (m : Z) :
  0 < m -> 2 ^ (Zdigits2 m - 1) <= m < 2 ^ Zdigits2 m /\ 1 <= Zdigits2 m.
Proof.
  destruct m as [|p|p]; try lia. intros _. cbn [Zdigits2].
  split; [apply digits2_pos_spec | lia].
Qed.

Lemma Zdigits2_nonneg (m : Z) : 0 <= Zdigits2 m.
Proof. destruct m; cbn; lia. Qed.

Lemma Zdigits2_le (m d : Z) : 0 <= m < 2 ^ d -> 0 <= d -> Zdigits2 m <= d.
Proof.
  intros [Hlo Hhi] Hd.
  destruct (Z.eq_dec m 0) as [->|Hm]; [cbn; lia|].
  destruct (Zdigits2_spec m ltac:(lia)) as [[Hlo' Hhi'] Hd'].
  destruct (Z.le_gt_cases (Zdigits2 m) d) as [|Hgt]; [assumption|].
  assert (2 ^ d <= 2 ^ (Zdigits2 m - 1)) by (apply Z.pow_le_mono_r; lia). lia.
Qed.

Lemma Zdigits2_ge (m d : Z) : 2 ^ (d - 1) <= m -> 1 <= d -> d <= Zdigits2 m.
Proof.
  intros Hlo Hd.
  assert (Hm : 0 < m) by (pose proof (Z.pow_pos_nonneg 2 (d - 1)); lia).
  destruct (Zdigits2_spec m Hm) as [[Hlo' Hhi'] Hd'].
  destruct (Z.le_gt_cases d (Zdigits2 m)) as [|Hgt]; [assumption|].
  assert (2 ^ Zdigits2 m <= 2 ^ (d - 1)) by (apply Z.pow_le_mono_r; lia). lia.
Qed.

(** ** Canonical form and the order of values *)

Lemma fexp_eq (e : Z) : fexp 53 1024 e = Z.max (e - 53) emin.
Proof. reflexivity. Qed.

Lemma canonical_wf (m : positive) (e : Z) :
  canonical_mantissa 53 1024 m e = true <-> wf (Zpos m) e.
Proof.
  unfold canonical_mantissa, wf. rewrite Z.eqb_eq, fexp_eq.
  pose proof (digits2_pos_spec m) as [Hlo Hhi].
  set (d := Zpos (digits2_pos m)) in *.
  assert (Hd : 1 <= d) by (unfold d; lia). clearbody d.
  split.
  - intros Hc. split; [lia|]. split.
    + split; [lia|].
      assert (2 ^ d <= 2 ^ 53) by (apply Z.pow_le_mono_r; lia). lia.
    + intros He. assert (H53 : d = 53) by lia. rewrite H53 in Hlo. exact Hlo.
  - intros (He & [_ Hm] & Hn).
    assert (Hd53 : d <= 53).
    { destruct (Z.le_gt_cases d 53); [assumption|].
      assert (2 ^ 53 <= 2 ^ (d - 1)) by (apply Z.pow_le_mono_r; lia). lia. }
    destruct (Z.eq_dec e emin) as [->|Hne]; [lia|].
    assert (H52 : 2 ^ 52 <= Zpos m) by (apply Hn; lia).
    assert (53 <= d).
    { destruct (Z.le_gt_cases 53 d); [assumption|].
      assert (2 ^ d <= 2 ^ 52) by (apply Z.pow_le_mono_r; lia). lia. }
    lia.
Qed.

Lemma scaled_pos m e : 0 < m -> (0 < scaled m e)%Q.
Proof.
  intros Hm. unfold scaled. apply Qmult_lt_0_compat; [|apply pow2_pos].
  change 0%Q with (inject_Z 0). now rewrite <- Zlt_Qlt.
Qed.

Lemma scaled_0 e : (scaled 0 e == 0)%Q.
Proof. unfold scaled. change (inject_Z 0) with 0%Q. ring. Qed.

Lemma scaled_le_mono m1 m2 e : m1 <= m2 -> (scaled m1 e <= scaled m2 e)%Q.
Proof.
  intros Hm. unfold scaled. apply Qmult_le_compat_r; [|apply Qlt_le_weak, pow2_pos].
  now rewrite <- Zle_Qle.
Qed.

Lemma scaled_lt_mono m1 m2 e : m1 < m2 -> (scaled m1 e < scaled m2 e)%Q.
Proof.
  intros Hm. unfold scaled. apply Qmult_lt_compat_r; [apply pow2_pos|].
  now rewrite <- Zlt_Qlt.
Qed.

Lemma scaled_le_inv m1 m2 e : (scaled m1 e <= scaled m2 e)%Q -> m1 <= m2.
Proof.
  intros H. destruct (Z.le_gt_cases m1 m2) as [|Hgt]; [assumption|].
  apply (scaled_lt_mono _ _ e) in Hgt. lra.
Qed.

Lemma scaled_lt_inv m1 m2 e : (scaled m1 e < scaled m2 e)%Q -> m1 < m2.
Proof.
  intros H. destruct (Z.lt_ge_cases m1 m2) as [|Hge]; [assumption|].
  apply (scaled_le_mono _ _ e) in Hge. lra.
Qed.

(** A power of two moves between mantissa and exponent. *)
Lemma scaled_shift m e k : 0 <= k -> (scaled (m * 2 ^ k) e == scaled m (e + k))%Q.
Proof.
  intros Hk. unfold scaled. rewrite inject_Z_mult, pow2_add, <- pow2_inj by assumption.
  ring.
Qed.

(** In canonical form a smaller exponent means a smaller number. *)
Lemma scaled_lt_exp m1 e1 m2 e2 :
  wf m1 e1 -> wf m2 e2 -> e1 < e2 -> (scaled m1 e1 < scaled m2 e2)%Q.
Proof.
  intros (He1 & [Hm1 Hm1'] & _) (He2 & _ & Hn2) Hlt.
  assert (H52 : 2 ^ 52 <= m2) by (apply Hn2; lia).
  apply Qlt_le_trans with (scaled (2 ^ 53) e1).
  - apply scaled_lt_mono. lia.
  - apply Qle_trans with (scaled (2 ^ 52) (e1 + 1)).
    + change (2 ^ 53) with (2 ^ 52 * 2 ^ 1). rewrite scaled_shift by lia. lra.
    + apply Qle_trans with (scaled (2 ^ 52) e2).
      * unfold scaled. apply Qmult_le_l; [reflexivity|]. apply pow2_le. lia.
      * now apply scaled_le_mono.
Qed.

Lemma wf_order_le m1 e1 m2 e2 :
  wf m1 e1 -> wf m2 e2 -> (scaled m1 e1 <= scaled m2 e2)%Q ->
  e1 < e2 \/ (e1 = e2 /\ m1 <= m2).
Proof.
  intros H1 H2 Hle.
  destruct (Z.lt_trichotomy e1 e2) as [Hlt|[Heq|Hgt]].
  - now left.
  - right. split; [assumption|]. subst e2. now apply scaled_le_inv in Hle.
  - pose proof (scaled_lt_exp _ _ _ _ H2 H1 Hgt). lra.
Qed.

Lemma wf_order_lt m1 e1 m2 e2 :
  wf m1 e1 -> wf m2 e2 -> (scaled m1 e1 < scaled m2 e2)%Q ->
  e1 < e2 \/ (e1 = e2 /\ m1 < m2).
Proof.
  intros H1 H2 Hlt.
  destruct (Z.lt_trichotomy e1 e2) as [Hl|[Heq|Hgt]].
  - now left.
  - right. split; [assumption|]. subst e2. now apply scaled_lt_inv in Hlt.
  - pose proof (scaled_lt_exp _ _ _ _ H2 H1 Hgt). lra.
Qed.


(** ** Comparisons of valid floats compare their values *)

Lemma valid_wf s m e :
  valid_binary 53 1024 (S754_finite s m e) = true <-> wf (Zpos m) e /\ e <= 971.
Proof.
  cbn [valid_binary]. unfold bounded. rewrite andb_true_iff, canonical_wf, Z.leb_le.
  reflexivity.
Qed.

Lemma scaled_opp m e : (scaled (- m) e == - scaled m e)%Q.
Proof. unfold scaled. rewrite inject_Z_opp. ring. Qed.

Lemma Qcompare_Lt x y : (x < y)%Q -> (x ?= y)%Q = Lt.
Proof. intros. now apply Qlt_alt. Qed.
Lemma Qcompare_Gt x y : (y < x)%Q -> (x ?= y)%Q = Gt.
Proof. intros. now apply Qgt_alt. Qed.
Lemma Qcompare_Eq x y : (x == y)%Q -> (x ?= y)%Q = Eq.
Proof. intros. now apply Qeq_alt. Qed.

Lemma compare_pos_pos m1 e1 m2 e2 :
  wf (Zpos m1) e1 -> wf (Zpos m2) e2 ->
  match Z.compare e1 e2 with
  | Lt => Lt | Gt => Gt | Eq => Pos.compare_cont Eq m1 m2
  end = (scaled (Zpos m1) e1 ?= scaled (Zpos m2) e2)%Q.
Proof.
  intros H1 H2. symmetry.
  destruct (Z.compare_spec e1 e2) as [Heq|Hlt|Hgt].
  - subst e2. change (Pos.compare_cont Eq m1 m2) with (Zpos m1 ?= Zpos m2).
    destruct (Z.compare_spec (Zpos m1) (Zpos m2)) as [Hm|Hm|Hm].
    + apply Qcompare_Eq. now rewrite Hm.
    + apply Qcompare_Lt. now apply scaled_lt_mono.
    + apply Qcompare_Gt. now apply scaled_lt_mono.
  - apply Qcompare_Lt. now apply scaled_lt_exp.
  - apply Qcompare_Gt. now apply scaled_lt_exp.
Qed.

Lemma Qcompare_opp x y : (- x ?= - y)%Q = CompOpp (x ?= y)%Q.
Proof.
  destruct (Qcompare_spec x y) as [H|H|H]; cbn [CompOpp].
  - apply Qcompare_Eq. now rewrite H.
  - apply Qcompare_Gt. lra.
  - apply Qcompare_Lt. lra.
Qed.

Lemma SFcompare_value (x y : spec_float) :
  valid_binary 53 1024 x = true -> valid_binary 53 1024 y = true ->
  B64.is_finite x = true -> B64.is_finite y = true ->
  SFcompare x y = Some (value x ?= value y)%Q.
Proof.
  intros Vx Vy Fx Fy.
  destruct x as [sx| | |sx mx ex]; try discriminate;
  destruct y as [sy| | |sy my ey]; try discriminate.
  - reflexivity.
  - apply valid_wf in Vy as [Wy _]. cbn [SFcompare value]. f_equal. symmetry.
    pose proof (scaled_pos (Zpos my) ey ltac:(lia)) as Hp.
    destruct sy; cbn [cond_Zopp].
    + apply Qcompare_Gt. change (Z.opp (Zpos my)) with (- Zpos my).
      rewrite scaled_opp. lra.
    + apply Qcompare_Lt. lra.
  - apply valid_wf in Vx as [Wx _]. cbn [SFcompare value]. f_equal. symmetry.
    pose proof (scaled_pos (Zpos mx) ex ltac:(lia)) as Hp.
    destruct sx; cbn [cond_Zopp].
    + apply Qcompare_Lt. change (Z.opp (Zpos mx)) with (- Zpos mx).
      rewrite scaled_opp. lra.
    + apply Qcompare_Gt. lra.
  - apply valid_wf in Vx as [Wx _]. apply valid_wf in Vy as [Wy _].
    cbn [SFcompare value]. f_equal.
    pose proof (scaled_pos (Zpos mx) ex ltac:(lia)) as Hpx.
    pose proof (scaled_pos (Zpos my) ey ltac:(lia)) as Hpy.
    destruct sx, sy; cbn [cond_Zopp].
    + change (Z.opp (Zpos mx)) with (- Zpos mx).
      change (Z.opp (Zpos my)) with (- Zpos my).
      rewrite !scaled_opp, Qcompare_opp, <- compare_pos_pos by assumption.
      destruct (Z.compare ex ey); reflexivity.
    + symmetry. apply Qcompare_Lt.
      change (Z.opp (Zpos mx)) with (- Zpos mx). rewrite scaled_opp. lra.
    + symmetry. apply Qcompare_Gt.
      change (Z.opp (Zpos my)) with (- Zpos my). rewrite scaled_opp. lra.
    + now apply compare_pos_pos.
Qed.

(** ** Shifting the mantissa right keeps the place of the number *)

Lemma pow2_neg_succ e : (pow2 (- (e + 1)) == pow2 (- e) * (1 # 2))%Q.
Proof.
  replace (- (e + 1)) with (- e + - 1) by lia. rewrite pow2_add. reflexivity.
Qed.

Lemma inbetween_compat m r s (y y' : Q) :
  (y == y')%Q -> inbetween m r s y -> inbetween m r s y'.
Proof. intros Hy. destruct r, s; cbn [inbetween]; rewrite Hy; trivial. Qed.

Lemma shr_1_represents (mrs : shr_record) (e : Z) (x : Q) :
  represents mrs e x -> represents (shr_1 mrs) (e + 1) x.
Proof.
  unfold represents. intros [Hm Hy].
  assert (Hy' : inbetween (shr_m mrs) (shr_r mrs) (shr_s mrs)
                  (x * pow2 (- e))%Q) by exact Hy.
  set (y := (x * pow2 (- e))%Q) in *.
  assert (Hgoal : 0 <= shr_m (shr_1 mrs) /\
            inbetween (shr_m (shr_1 mrs)) (shr_r (shr_1 mrs)) (shr_s (shr_1 mrs))
              (y * (1 # 2))%Q).
  { clearbody y. clear Hy'.
    destruct mrs as [m r s]. cbn [shr_m shr_r shr_s] in *.
    destruct m as [|[p|p|]|]; try lia;
      destruct r, s; cbn [shr_1 shr_m shr_r shr_s orb inbetween] in *;
      (split; [lia|]);
      rewrite ?(Pos2Z.inj_xI p), ?(Pos2Z.inj_xO p),
        ?inject_Z_plus, ?inject_Z_mult in Hy;
      change (inject_Z 2) with 2%Q in *; change (inject_Z 1) with 1%Q in *;
      change (inject_Z 0) with 0%Q in *; lra. }
  destruct Hgoal as [G1 G2]. split; [exact G1|].
  apply (inbetween_compat _ _ _ (y * (1 # 2))%Q); [|exact G2].
  unfold y. rewrite pow2_neg_succ. ring.
Qed.

Lemma iter_shr_1_represents (n : positive) (mrs : shr_record) (e : Z) (x : Q) :
  represents mrs e x -> represents (iter_pos shr_1 n mrs) (e + Zpos n) x.
Proof.
  revert mrs e. induction n as [n IH|n IH|]; intros mrs e H; cbn [iter_pos].
  - replace (e + Zpos n~1) with (e + 1 + Zpos n + Zpos n) by lia.
    apply IH, IH, shr_1_represents, H.
  - replace (e + Zpos n~0) with (e + Zpos n + Zpos n) by lia.
    apply IH, IH, H.
  - apply shr_1_represents, H.
Qed.

Lemma shr_represents (mrs : shr_record) (e n : Z) (x : Q) :
  0 <= n -> represents mrs e x ->
  represents (fst (shr mrs e n)) (e + n) x /\ snd (shr mrs e n) = e + n.
Proof.
  intros Hn H. destruct n as [|p|p]; try lia; cbn [shr fst snd].
  - rewrite Z.add_0_r. now split.
  - split; [now apply iter_shr_1_represents | reflexivity].
Qed.

(** What a representation says about the mantissa. *)
Lemma represents_bounds (mrs : shr_record) (e : Z) (x : Q) :
  represents mrs e x ->
  (scaled (shr_m mrs) e <= x < scaled (shr_m mrs + 1) e)%Q.
Proof.
  intros [Hm Hy]. unfold scaled. rewrite inject_Z_plus. change (inject_Z 1) with 1%Q.
  set (y := (x * pow2 (- e))%Q) in *.
  assert (Hx : (x == y * pow2 e)%Q).
  { unfold y. rewrite <- Qmult_assoc, <- pow2_add.
    replace (- e + e) with 0 by lia. rewrite pow2_0. ring. }
  pose proof (pow2_pos e) as Hp.
  assert (Hb : (inject_Z (shr_m mrs) <= y < inject_Z (shr_m mrs) + 1)%Q).
  { clearbody y. destruct (shr_r mrs), (shr_s mrs); cbn [inbetween] in Hy; lra. }
  rewrite Hx. split.
  - apply Qmult_le_compat_r; lra.
  - apply Qmult_lt_compat_r; lra.
Qed.

Lemma shr_m_of_loc m l : shr_m (shr_record_of_loc m l) = m.
Proof. destruct l as [|[]]; reflexivity. Qed.

Lemma scaled_one k e : 0 <= k -> (scaled (2 ^ k) e == pow2 (e + k))%Q.
Proof.
  intros Hk. unfold scaled. rewrite pow2_add, <- pow2_inj by assumption. ring.
Qed.

Lemma represents_inexact (mrs : shr_record) (e : Z) (x : Q) :
  represents mrs e x -> shr_r mrs = true \/ shr_s mrs = true ->
  (scaled (shr_m mrs) e < x)%Q.
Proof.
  intros [Hm Hy] Hrs. unfold scaled.
  set (y := (x * pow2 (- e))%Q) in *.
  assert (Hx : (x == y * pow2 e)%Q).
  { unfold y. rewrite <- Qmult_assoc, <- pow2_add.
    replace (- e + e) with 0 by lia. rewrite pow2_0. ring. }
  pose proof (pow2_pos e) as Hp.
  assert (Hb : (inject_Z (shr_m mrs) < y)%Q).
  { clearbody y. destruct (shr_r mrs), (shr_s mrs); cbn [inbetween] in Hy;
      try lra. all: try (destruct Hrs; discriminate). }
  rewrite Hx. apply Qmult_lt_compat_r; lra.
Qed.

(** ** [binary_round_aux] rounds to a neighbour *)

Lemma round_nearest_even_cases (mrs : shr_record) (e : Z) (x : Q) :
  represents mrs e x ->
  let m'' := round_nearest_even (shr_m mrs) (loc_of_shr_record mrs) in
  m'' = shr_m mrs \/ (m'' = shr_m mrs + 1 /\ (scaled (shr_m mrs) e < x)%Q).
Proof.
  intros H m''. subst m''.
  pose proof (represents_inexact _ _ _ H) as Hin.
  destruct mrs as [m r s]. cbn [shr_m shr_r shr_s] in *.
  destruct r, s; cbn [loc_of_shr_record round_nearest_even]; auto.
  destruct (Z.even m); auto.
Qed.

(** The heart of the matter.  A mantissa whose exponent is not above the
    one its magnitude calls for is shifted right to that exponent; the
    result is in canonical form and lies just below the number, and
    rounding it up by one unit, with a carry into the next binade when
    the mantissa reaches [2^53], gives the float just above. *)
Lemma binary_round_aux_faithful (s : bool) (mx ex : Z) (lx : location) (x : Q) :
  represents (shr_record_of_loc mx lx) ex x ->
  ex <= fexp 53 1024 (Zdigits2 mx + ex) ->
  exists m e, binary_round_aux 53 1024 s mx ex lx = build s m e /\ faithful x m e.
Proof.
  intros Hrep HP.
  assert (Hmx : 0 <= mx) by (destruct Hrep as [H _]; now rewrite shr_m_of_loc in H).
  pose proof (represents_bounds _ _ _ Hrep) as [Hxlo Hxhi].
  rewrite shr_m_of_loc in Hxlo, Hxhi.
  unfold binary_round_aux, shr_fexp.
  set (d := Zdigits2 mx) in *.
  set (e1 := fexp 53 1024 (d + ex)) in *.
  assert (He1 : e1 = Z.max (d + ex - 53) emin) by reflexivity.
  assert (Hd0 : 0 <= d) by apply Zdigits2_nonneg.
  destruct (shr_represents _ ex (e1 - ex) x ltac:(lia) Hrep) as [Hrep' He'].
  replace (ex + (e1 - ex)) with e1 in * by lia.
  destruct (shr (shr_record_of_loc mx lx) ex (e1 - ex)) as [mrs' e'] eqn:Hs1.
  cbn [fst snd] in Hrep', He'. subst e'.
  pose proof (represents_bounds _ _ _ Hrep') as [Hlo Hhi].
  set (m' := shr_m mrs') in *.
  assert (Hm'0 : 0 <= m') by (destruct Hrep' as [H _]; exact H).
  (* the shifted mantissa is in canonical form *)
  assert (Hup : mx + 1 <= 2 ^ d).
  { destruct (Z.eq_dec mx 0) as [->|Hne]; [cbn; lia|].
    destruct (Zdigits2_spec mx ltac:(lia)) as [[_ H] _]. fold d in H. lia. }
  assert (Hwf : wf m' e1).
  { split; [lia|]. split; [split; [assumption|]|].
    - apply (scaled_lt_inv _ _ e1).
      apply Qle_lt_trans with x; [assumption|].
      apply Qlt_le_trans with (scaled (mx + 1) ex); [assumption|].
      apply Qle_trans with (scaled (2 ^ d) ex); [now apply scaled_le_mono|].
      rewrite !scaled_one by lia. apply pow2_le. lia.
    - intros Hgt.
      assert (Hmx' : 0 < mx).
      { destruct (Z.eq_dec mx 0) as [E|Hne]; [|lia].
        exfalso. assert (Hd : d = 0) by (unfold d; rewrite E; reflexivity). lia. }
      destruct (Zdigits2_spec mx Hmx') as [[H _] Hd1]. fold d in H, Hd1.
      assert (Hlt : (scaled (2 ^ 52) e1 < scaled (m' + 1) e1)%Q).
      { apply Qle_lt_trans with x; [|assumption].
        apply Qle_trans with (scaled mx ex); [|assumption].
        apply Qle_trans with (scaled (2 ^ (d - 1)) ex); [|now apply scaled_le_mono].
        rewrite !scaled_one by lia. apply pow2_le. lia. }
      apply scaled_lt_inv in Hlt. lia. }
  pose proof (round_nearest_even_cases _ _ _ Hrep') as Hrne. cbn zeta in Hrne.
  fold m' in Hrne.
  set (m'' := round_nearest_even m' (loc_of_shr_record mrs')) in *.
  destruct Hwf as (Hemin & [_ Hm53] & Hnorm).
  assert (Hwf : wf m' e1) by (repeat split; assumption).
  change (Z.sub 1024 53) with 971.
  destruct (Z.eq_dec m'' (2 ^ 53)) as [Hover|Hfit].
  - (* the round up carries into the next binade *)
    assert (Hm' : m'' = m' + 1 /\ (scaled m' e1 < x)%Q)
      by (destruct Hrne; [lia|assumption]).
    destruct Hm' as [Hm'' Hinex].
    rewrite Hover. change (Zdigits2 (2 ^ 53)) with 54.
    replace (fexp 53 1024 (54 + e1) - e1) with 1
      by (change (fexp 53 1024 (54 + e1)) with (Z.max (54 + e1 - 53) emin); lia).
    cbn [shr_record_of_loc shr iter_pos]. cbn.
    exists (2 ^ 52), (e1 + 1).
    split; [reflexivity|].
    assert (Hval : (scaled (2 ^ 52) (e1 + 1) == scaled (m' + 1) e1)%Q).
    { rewrite <- Hm'', Hover. rewrite <- scaled_shift by lia. reflexivity. }
    split.
    + split; [lia|]. split; [lia|]. intros _. lia.
    + exists m', e1. split; [assumption|]. split; [split; assumption|].
      right. split; assumption.
  - assert (Hm53'' : m'' < 2 ^ 53) by (destruct Hrne as [|[? _]]; lia).
    assert (Hm''0 : 0 <= m'') by (destruct Hrne as [|[? _]]; lia).
    assert (Hwf'' : wf m'' e1).
    { split; [lia|]. split; [lia|]. intros Hgt. specialize (Hnorm Hgt).
      destruct Hrne as [|[? _]]; lia. }
    assert (Hfexp : fexp 53 1024 (Zdigits2 m'' + e1) - e1 = 0).
    { change (fexp 53 1024 (Zdigits2 m'' + e1))
        with (Z.max (Zdigits2 m'' + e1 - 53) emin).
      pose proof (Zdigits2_le m'' 53 ltac:(lia) ltac:(lia)) as Hd53.
      destruct (Z.eq_dec e1 emin) as [E|Hne]; [lia|].
      destruct Hwf'' as (_ & _ & Hn''). specialize (Hn'' ltac:(lia)).
      pose proof (Zdigits2_ge m'' 53 Hn'' ltac:(lia)). lia. }
    rewrite Hfexp. cbn [shr_record_of_loc shr shr_m].
    exists m'', e1. split; [reflexivity|].
    split; [assumption|].
    exists m', e1. split; [assumption|]. split; [split; assumption|].
    destruct Hrne as [->|[-> Hinex]];
      [left; reflexivity | right; split; [assumption|reflexivity]].
Qed.

(** Rounding to a neighbour cannot cross a number of the format: a
    bound in the format on the exact result holds for the rounded
    one. *)
Lemma faithful_le (x : Q) (m e mc ec : Z) :
  faithful x m e -> wf mc ec -> (x <= scaled mc ec)%Q ->
  (scaled m e <= scaled mc ec)%Q.
Proof.
  intros (Hwf & m' & e' & Hwf' & [Hlo Hhi] & Hval) Hc Hle.
  destruct Hval as [Hv|[Hinex Hv]]; rewrite Hv; [lra|].
  destruct (wf_order_lt m' e' mc ec Hwf' Hc ltac:(lra)) as [Hlt|[-> Hm]].
  - destruct Hwf' as (He' & [_ Hm'] & _). destruct Hc as (_ & _ & Hn).
    apply Qle_trans with (scaled (2 ^ 53) e'); [apply scaled_le_mono; lia|].
    change (2 ^ 53) with (2 ^ 52 * 2 ^ 1). rewrite scaled_shift by lia.
    apply Qle_trans with (scaled (2 ^ 52) ec).
    + unfold scaled. apply Qmult_le_l; [reflexivity|]. apply pow2_le. lia.
    + apply scaled_le_mono. apply Hn. lia.
  - apply scaled_le_mono. lia.
Qed.

Lemma faithful_ge (x : Q) (m e mc ec : Z) :
  faithful x m e -> wf mc ec -> (scaled mc ec <= x)%Q ->
  (scaled mc ec <= scaled m e)%Q.
Proof.
  intros (Hwf & m' & e' & Hwf' & [Hlo Hhi] & Hval) Hc Hle.
  destruct Hval as [Hv|[Hinex Hv]]; rewrite Hv; [|lra].
  destruct (Z.lt_trichotomy ec e') as [Hlt|[->|Hgt]].
  - apply Qlt_le_weak. now apply scaled_lt_exp.
  - apply scaled_le_mono.
    assert (H : (scaled mc e' < scaled (m' + 1) e')%Q) by lra.
    apply scaled_lt_inv in H. lia.
  - exfalso.
    destruct Hwf' as (He' & [_ Hm'] & _). destruct Hc as (_ & _ & Hn).
    assert (H : (scaled (m' + 1) e' <= scaled mc ec)%Q).
    { apply Qle_trans with (scaled (2 ^ 53) e'); [apply scaled_le_mono; lia|].
      change (2 ^ 53) with (2 ^ 52 * 2 ^ 1). rewrite scaled_shift by lia.
      apply Qle_trans with (scaled (2 ^ 52) ec).
      + unfold scaled. apply Qmult_le_l; [reflexivity|]. apply pow2_le. lia.
      + apply scaled_le_mono. apply Hn. lia. }
    lra.
Qed.

(** ** Addition, subtraction and conversion of integers *)

Lemma iter_xO_spec (m d : positive) :
  Zpos (Pos.iter xO m d) = Zpos m * 2 ^ Zpos d
  /\ Zpos (digits2_pos (Pos.iter xO m d)) = Zpos (digits2_pos m) + Zpos d.
Proof.
  induction d as [|d [IH1 IH2]] using Pos.peano_ind.
  - cbn [Pos.iter digits2_pos]. split; lia.
  - rewrite Pos.iter_succ. cbn [digits2_pos].
    rewrite (Pos2Z.inj_xO (Pos.iter xO m d)), IH1, !Pos2Z.inj_succ, IH2.
    rewrite Z.pow_succ_r by lia. split; lia.
Qed.

Lemma shl_align_spec (mx : positive) (ex ex' : Z) :
  let mz := fst (shl_align mx ex ex') in
  let ez := snd (shl_align mx ex ex') in
  ez = Z.min ex ex' /\ Zpos mz = Zpos mx * 2 ^ (ex - ez)
  /\ Zpos (digits2_pos mz) + ez = Zpos (digits2_pos mx) + ex.
Proof.
  unfold shl_align. destruct (ex' - ex) as [|d|d] eqn:Hd; cbn [fst snd].
  - replace (ex - ex) with 0 by lia. cbn. lia.
  - replace (ex - ex) with 0 by lia. cbn. lia.
  - destruct (iter_xO_spec mx d) as [H1 H2].
    rewrite H1, H2. replace (ex - ex') with (Zpos d) by lia. lia.
Qed.

Lemma shl_align_value (mx : positive) (ex ex' : Z) :
  (scaled (Zpos (fst (shl_align mx ex ex'))) (snd (shl_align mx ex ex'))
   == scaled (Zpos mx) ex)%Q.
Proof.
  destruct (shl_align_spec mx ex ex') as (He & Hm & _).
  rewrite Hm, scaled_shift by lia.
  replace (snd (shl_align mx ex ex') + (ex - snd (shl_align mx ex ex'))) with ex by lia.
  reflexivity.
Qed.

Lemma represents_exact (m e : Z) :
  0 <= m -> represents (shr_record_of_loc m loc_Exact) e (scaled m e).
Proof.
  intros Hm. split; [exact Hm|]. cbn. unfold scaled.
  rewrite <- Qmult_assoc, <- pow2_add. replace (e + - e) with 0 by lia.
  rewrite pow2_0. ring.
Qed.

Lemma binary_round_faithful (s : bool) (mx : positive) (ex : Z) :
  exists m e,
    binary_round 53 1024 s mx ex = build s m e
    /\ faithful (scaled (Zpos mx) ex) m e.
Proof.
  unfold binary_round.
  pose proof (shl_align_spec mx ex (fexp 53 1024 (Zpos (digits2_pos mx) + ex)))
    as (He & _ & Hd).
  pose proof (shl_align_value mx ex (fexp 53 1024 (Zpos (digits2_pos mx) + ex))) as Hv.
  destruct (shl_align mx ex _) as [mz ez]. cbn [fst snd] in *.
  destruct (binary_round_aux_faithful s (Zpos mz) ez loc_Exact (scaled (Zpos mz) ez))
    as (m & e & Hr & Hf).
  - apply represents_exact. lia.
  - cbn [Zdigits2]. rewrite Hd. lia.
  - exists m, e. split; [exact Hr|].
    destruct Hf as (Hwf & m' & e' & Hwf' & Hb & Hval).
    split; [exact Hwf|]. exists m', e'. split; [exact Hwf'|].
    rewrite <- Hv. split; assumption.
Qed.

Lemma faithful_compat (x x' : Q) (m e : Z) :
  (x == x')%Q -> faithful x m e -> faithful x' m e.
Proof.
  intros Hx (Hwf & m' & e' & Hwf' & Hb & Hval).
  split; [exact Hwf|]. exists m', e'. split; [exact Hwf'|].
  rewrite <- Hx. split; assumption.
Qed.

(** [binary_normalize] by the sign of the integer. *)
Lemma binary_normalize_pos (M ez : Z) (sz : bool) :
  0 < M ->
  exists m e, binary_normalize 53 1024 M ez sz = build false m e
              /\ faithful (scaled M ez) m e.
Proof.
  intros HM. destruct M as [|p|p]; try lia. cbn [binary_normalize].
  apply binary_round_faithful.
Qed.

Lemma binary_normalize_neg (M ez : Z) (sz : bool) :
  M < 0 ->
  exists m e, binary_normalize 53 1024 M ez sz = build true m e
              /\ faithful (scaled (- M) ez) m e.
Proof.
  intros HM. destruct M as [|p|p]; try lia. cbn [binary_normalize].
  apply binary_round_faithful.
Qed.

(** The integer that [SFadd] and [SFsub] normalize. *)
Lemma aligned_value (s : bool) (m : positive) (e ez : Z) :
  ez <= e ->
  (scaled (cond_Zopp s (Zpos (fst (shl_align m e ez)))) ez
   == value (S754_finite s m e))%Q.
Proof.
  intros Hle. cbn [value].
  destruct (shl_align_spec m e ez) as (He & Hm & _).
  rewrite Z.min_r in He by lia.
  pose proof (shl_align_value m e ez) as Hv. rewrite He in Hv.
  destruct s; cbn [cond_Zopp].
  - change (Z.opp (Zpos (fst (shl_align m e ez))))
      with (- Zpos (fst (shl_align m e ez))).
    change (Z.opp (Zpos m)) with (- Zpos m).
    rewrite !scaled_opp, Hv. reflexivity.
  - exact Hv.
Qed.

Lemma scaled_add m1 m2 e : (scaled (m1 + m2) e == scaled m1 e + scaled m2 e)%Q.
Proof. unfold scaled. rewrite inject_Z_plus. ring. Qed.

Lemma scaled_sub m1 m2 e : (scaled (m1 - m2) e == scaled m1 e - scaled m2 e)%Q.
Proof. unfold scaled, Z.sub. rewrite inject_Z_plus, inject_Z_opp. ring. Qed.

Lemma add_finite (sx : bool) (mx : positive) (ex : Z)
    (sy : bool) (my : positive) (ey : Z) :
  exists M,
    B64.add (S754_finite sx mx ex) (S754_finite sy my ey)
      = binary_normalize 53 1024 M (Z.min ex ey) false
    /\ (scaled M (Z.min ex ey)
        == value (S754_finite sx mx ex) + value (S754_finite sy my ey))%Q.
Proof.
  eexists. split; [reflexivity|].
  rewrite scaled_add, !aligned_value by lia. reflexivity.
Qed.

Lemma sub_finite (sx : bool) (mx : positive) (ex : Z)
    (sy : bool) (my : positive) (ey : Z) :
  exists M,
    B64.sub (S754_finite sx mx ex) (S754_finite sy my ey)
      = binary_normalize 53 1024 M (Z.min ex ey) false
    /\ (scaled M (Z.min ex ey)
        == value (S754_finite sx mx ex) - value (S754_finite sy my ey))%Q.
Proof.
  eexists. split; [reflexivity|].
  rewrite scaled_sub, !aligned_value by lia. reflexivity.
Qed.

(** ** Bounds on a rounded result, as comparisons of floats *)

Lemma SFleb_value (x y : spec_float) :
  valid_binary 53 1024 x = true -> valid_binary 53 1024 y = true ->
  B64.is_finite x = true -> B64.is_finite y = true ->
  (SFleb x y = true <-> (value x <= value y)%Q).
Proof.
  intros Vx Vy Fx Fy. unfold SFleb. rewrite (SFcompare_value x y Vx Vy Fx Fy).
  rewrite Qle_alt. destruct (value x ?= value y)%Q; split; intros; congruence.
Qed.

Lemma SFltb_value (x y : spec_float) :
  valid_binary 53 1024 x = true -> valid_binary 53 1024 y = true ->
  B64.is_finite x = true -> B64.is_finite y = true ->
  (SFltb x y = true <-> (value x < value y)%Q).
Proof.
  intros Vx Vy Fx Fy. unfold SFltb. rewrite (SFcompare_value x y Vx Vy Fx Fy).
  rewrite Qlt_alt. destruct (value x ?= value y)%Q; split; intros; congruence.
Qed.

Lemma valid_build (s : bool) (m e : Z) :
  wf m e -> valid_binary 53 1024 (build s m e) = true.
Proof.
  intros Hwf. destruct m as [|p|p]; cbn [build]; [reflexivity| |reflexivity].
  destruct (Z.leb_spec e 971); [|reflexivity].
  apply valid_wf. now split.
Qed.

Lemma build_le_finite (m e : Z) (mc : positive) (ec : Z) :
  wf m e -> wf (Zpos mc) ec -> ec <= 971 ->
  (scaled m e <= scaled (Zpos mc) ec)%Q ->
  SFleb (build false m e) (S754_finite false mc ec) = true.
Proof.
  intros Hwf Hc Hec Hle.
  destruct m as [|p|p]; cbn [build].
  - reflexivity.
  - destruct (wf_order_le _ _ _ _ Hwf Hc Hle) as [Hlt|[-> _]].
    + destruct (Z.leb_spec e 971); [|lia].
      apply SFleb_value; try reflexivity; try (apply valid_wf; split; [assumption|lia]).
      exact Hle.
    + destruct (Z.leb_spec ec 971); [|lia].
      apply SFleb_value; try reflexivity; try (apply valid_wf; split; [assumption|lia]).
      exact Hle.
  - destruct Hwf as (_ & [H _] & _). lia.
Qed.

Lemma build_ge_finite (m e : Z) (mc : positive) (ec : Z) :
  wf m e -> wf (Zpos mc) ec -> ec <= 971 ->
  (scaled (Zpos mc) ec <= scaled m e)%Q ->
  SFleb (S754_finite false mc ec) (build false m e) = true
  /\ 1 <= m.
Proof.
  intros Hwf Hc Hec Hle.
  pose proof (scaled_pos (Zpos mc) ec ltac:(lia)) as Hpos.
  destruct m as [|p|p]; cbn [build].
  - rewrite scaled_0 in Hle. lra.
  - split; [|lia]. destruct (Z.leb_spec e 971); [|reflexivity].
    apply SFleb_value; try reflexivity; try (apply valid_wf; split; [assumption|lia]).
    exact Hle.
  - destruct Hwf as (_ & [H _] & _). lia.
Qed.

(** ** Multiplication *)

Lemma wf_digits (m : positive) (e : Z) :
  wf (Zpos m) e -> 1 <= Zdigits2 (Zpos m) <= 53 /\ (e = emin \/ Zdigits2 (Zpos m) = 53).
Proof.
  intros (He & [_ Hm] & Hn).
  destruct (Zdigits2_spec (Zpos m) ltac:(lia)) as [_ Hd].
  pose proof (Zdigits2_le (Zpos m) 53 ltac:(lia) ltac:(lia)) as Hd53.
  split; [lia|].
  destruct (Z.eq_dec e emin) as [|Hne]; [now left|right].
  pose proof (Zdigits2_ge (Zpos m) 53 (Hn ltac:(lia)) ltac:(lia)). lia.
Qed.

Lemma Zdigits2_mul (m1 m2 : positive) :
  Zdigits2 (Zpos m1) + Zdigits2 (Zpos m2) - 1 <= Zdigits2 (Zpos (m1 * m2)).
Proof.
  destruct (Zdigits2_spec (Zpos m1) ltac:(lia)) as [[H1 _] Hd1].
  destruct (Zdigits2_spec (Zpos m2) ltac:(lia)) as [[H2 _] Hd2].
  apply Zdigits2_ge; [|lia].
  replace (Zdigits2 (Zpos m1) + Zdigits2 (Zpos m2) - 1 - 1)
    with ((Zdigits2 (Zpos m1) - 1) + (Zdigits2 (Zpos m2) - 1)) by lia.
  rewrite Z.pow_add_r by lia. rewrite Pos2Z.inj_mul.
  apply Z.mul_le_mono_nonneg; try assumption; apply Z.pow_nonneg; lia.
Qed.

Lemma mul_finite (sx : bool) (mx : positive) (ex : Z)
    (sy : bool) (my : positive) (ey : Z) :
  wf (Zpos mx) ex -> wf (Zpos my) ey ->
  exists m e,
    B64.mul (S754_finite sx mx ex) (S754_finite sy my ey) = build (xorb sx sy) m e
    /\ faithful (scaled (Zpos mx) ex * scaled (Zpos my) ey) m e.
Proof.
  intros Hx Hy.
  unfold B64.mul. cbn [SFmul].
  destruct (binary_round_aux_faithful (xorb sx sy) (Zpos (mx * my)) (ex + ey) loc_Exact
              (scaled (Zpos (mx * my)) (ex + ey))) as (m & e & Hr & Hf).
  - apply represents_exact. lia.
  - change (fexp 53 1024 (Zdigits2 (Zpos (mx * my)) + (ex + ey)))
      with (Z.max (Zdigits2 (Zpos (mx * my)) + (ex + ey) - 53) emin).
    pose proof (Zdigits2_mul mx my).
    destruct (wf_digits _ _ Hx) as [? [?|?]], (wf_digits _ _ Hy) as [? [?|?]];
      unfold emin in *; lia.
  - exists m, e. split; [exact Hr|].
    apply (faithful_compat (scaled (Zpos (mx * my)) (ex + ey))); [|exact Hf].
    unfold scaled. rewrite Pos2Z.inj_mul, inject_Z_mult, pow2_add. ring.
Qed.

(** ** Division *)

(** The remainder of the integer division tells where the quotient
    lies between two integers. *)
Lemma new_location_spec (m2 r q : Z) (t : Q) :
  0 < m2 -> 0 <= r < m2 -> (t * inject_Z m2 == inject_Z r)%Q ->
  let mrs := shr_record_of_loc q (new_location m2 r) in
  inbetween (shr_m mrs) (shr_r mrs) (shr_s mrs) (inject_Z q + t)%Q.
Proof.
  intros Hm2 Hr Ht. cbn zeta. rewrite shr_m_of_loc.
  assert (HM : (0 < inject_Z m2)%Q) by of_integers.
  assert (HRM : (inject_Z r < inject_Z m2)%Q) by of_integers.
  unfold new_location.
  destruct (Z.even m2) eqn:Hev.
  - unfold new_location_even.
    destruct (Z.eqb_spec r 0) as [Hr0|Hr0].
    + cbn. assert (inject_Z r == 0)%Q by (rewrite Hr0; reflexivity). nra.
    + assert (HR : (0 < inject_Z r)%Q) by of_integers.
      destruct (Z.compare_spec (2 * r) m2) as [Hc|Hc|Hc]; cbn.
      * assert (2 * inject_Z r == inject_Z m2)%Q
          by (rewrite <- Hc, inject_Z_mult; reflexivity).
        nra.
      * assert (2 * inject_Z r < inject_Z m2)%Q by of_integers. split; nra.
      * assert (inject_Z m2 < 2 * inject_Z r)%Q by of_integers. split; nra.
  - unfold new_location_odd.
    destruct (Z.eqb_spec r 0) as [Hr0|Hr0].
    + cbn. assert (inject_Z r == 0)%Q by (rewrite Hr0; reflexivity). nra.
    + assert (HR : (0 < inject_Z r)%Q) by of_integers.
      assert (Hodd : 2 * r <> m2).
      { intros E. rewrite <- E, Z.even_mul in Hev. discriminate. }
      destruct (Z.compare_spec (2 * r + 1) m2) as [Hc|Hc|Hc]; cbn.
      * assert (2 * inject_Z r < inject_Z m2)%Q by of_integers. split; nra.
      * assert (2 * inject_Z r < inject_Z m2)%Q by of_integers. split; nra.
      * assert (inject_Z m2 < 2 * inject_Z r)%Q by of_integers. split; nra.
Qed.

Lemma pow2_opp e : (pow2 (- e) == / pow2 e)%Q.
Proof. unfold pow2. apply Qpower_opp. Qed.

Lemma pow2_neq0 e : ~ (pow2 e == 0)%Q.
Proof. pose proof (pow2_pos e). lra. Qed.

(** The integer quotient that [SFdiv] rounds has an exponent not above
    the one its magnitude calls for. *)
Lemma div_core_spec (m1 m2 : positive) (e1 e2 : Z) :
  let '(q, e', l) := SFdiv_core_binary 53 1024 (Zpos m1) e1 (Zpos m2) e2 in
  represents (shr_record_of_loc q l) e'
    (scaled (Zpos m1) e1 / scaled (Zpos m2) e2)
  /\ e' <= fexp 53 1024 (Zdigits2 q + e').
Proof.
  unfold SFdiv_core_binary.
  set (d1 := Zdigits2 (Zpos m1)). set (d2 := Zdigits2 (Zpos m2)).
  set (e' := Z.min (fexp 53 1024 (d1 + e1 - (d2 + e2))) (e1 - e2)).
  set (s := e1 - e2 - e').
  assert (Hs : 0 <= s) by (unfold s, e'; lia).
  set (m' := match s with
             | Z0 => Zpos m1
             | Zpos _ => Z.shiftl (Zpos m1) s
             | Zneg _ => 0
             end).
  assert (Hm' : m' = Zpos m1 * 2 ^ s).
  { unfold m'. destruct s as [|p|p] eqn:E; [cbn; lia | | lia].
    rewrite Z.shiftl_mul_pow2 by lia. reflexivity. }
  clearbody m'.
  pose proof (Z_div_mod m' (Zpos m2) ltac:(lia)) as Hdiv.
  destruct (Z.div_eucl m' (Zpos m2)) as [q r]. destruct Hdiv as [Hqr Hr].
  assert (Hpow : 0 < 2 ^ s) by (apply Z.pow_pos_nonneg; lia).
  assert (Hq : 0 <= q) by nia.
  assert (HM : (0 < inject_Z (Zpos m2))%Q) by reflexivity.
  split.
  - split; [now rewrite shr_m_of_loc|].
    apply (inbetween_compat _ _ _ (inject_Z q + inject_Z r / inject_Z (Zpos m2))%Q).
    + assert (He1 : (pow2 e1 == pow2 e2 * pow2 e' * pow2 s)%Q).
      { rewrite <- !pow2_add.
        replace (e2 + e' + s) with e1 by (unfold s; lia). reflexivity. }
      assert (Hm1 : (inject_Z (Zpos m1) * pow2 s
                     == inject_Z (Zpos m2) * inject_Z q + inject_Z r)%Q).
      { rewrite pow2_inj, <- !inject_Z_mult, <- inject_Z_plus, <- Hqr, Hm'
          by assumption.
        reflexivity. }
      unfold scaled. rewrite He1, pow2_opp.
      pose proof (pow2_neq0 e2). pose proof (pow2_neq0 e').
      assert (Hgoal : (inject_Z (Zpos m1) * (pow2 e2 * pow2 e' * pow2 s)
                       / (inject_Z (Zpos m2) * pow2 e2) * / pow2 e'
                       == (inject_Z (Zpos m1) * pow2 s) / inject_Z (Zpos m2))%Q).
      { field. repeat split; try assumption. lra. }
      rewrite Hgoal, Hm1. field. lra.
    + apply new_location_spec; [lia | assumption |]. field. lra.
  - assert (Hdq : d1 - d2 + s <= Zdigits2 q).
    { destruct (Z.le_gt_cases (d1 - d2 + s) 0) as [|Hk];
        [pose proof (Zdigits2_nonneg q); lia|].
      apply Zdigits2_ge; [|lia].
      destruct (Zdigits2_spec (Zpos m1) ltac:(lia)) as [[H1 _] Hd1].
      destruct (Zdigits2_spec (Zpos m2) ltac:(lia)) as [[_ H2] Hd2].
      fold d1 in H1, Hd1. fold d2 in H2, Hd2.
      assert (Hsplit : 2 ^ (d1 - 1) * 2 ^ s = 2 ^ (d1 - d2 + s - 1) * 2 ^ d2).
      { rewrite <- !Z.pow_add_r by lia. f_equal. lia. }
      assert (HT : 0 < 2 ^ (d1 - d2 + s - 1)) by (apply Z.pow_pos_nonneg; lia).
      set (T := 2 ^ (d1 - d2 + s - 1)) in *. set (P := 2 ^ d2) in *.
      set (A := 2 ^ (d1 - 1)) in *. set (S := 2 ^ s) in *.
      clearbody T P A S.
      destruct (Z.le_gt_cases T q) as [|Hlt]; [assumption|exfalso].
      assert (Zpos m2 * (q + 1) <= P * T) by nia.
      assert (A * S <= m') by nia.
      nia. }
    change (fexp 53 1024 (Zdigits2 q + e')) with (Z.max (Zdigits2 q + e' - 53) emin).
    assert (He' : e' <= Z.max (d1 + e1 - (d2 + e2) - 53) emin)
      by (unfold e'; apply Z.le_min_l).
    unfold s in Hdq. lia.
Qed.

Lemma div_finite (sx : bool) (mx : positive) (ex : Z)
    (sy : bool) (my : positive) (ey : Z) :
  exists m e,
    B64.div (S754_finite sx mx ex) (S754_finite sy my ey) = build (xorb sx sy) m e
    /\ faithful (scaled (Zpos mx) ex / scaled (Zpos my) ey) m e.
Proof.
  unfold B64.div, B64.prec, B64.emax. cbn [SFdiv].
  pose proof (div_core_spec mx my ex ey) as Hcore.
  destruct (SFdiv_core_binary 53 1024 (Zpos mx) ex (Zpos my) ey) as [[q e'] l].
  destruct Hcore as [Hrep HP].
  now apply binary_round_aux_faithful.
Qed.

(** ** Sums and means of numbers that are not negative *)

Lemma nonneg_cases (x : B64.float) :
  B64.nonneg x = true ->
  x = S754_zero false \/ x = S754_infinity false
  \/ exists m e, x = S754_finite false m e.
Proof.
  destruct x as [[|]|[|]| |[|] m e]; cbn; intros H; try discriminate; eauto.
Qed.

Lemma nonneg_build (m e : Z) : 0 <= m -> B64.nonneg (build false m e) = true.
Proof.
  intros Hm. destruct m as [|p|p]; try lia; cbn [build]; [reflexivity|].
  destruct (e <=? 971); reflexivity.
Qed.

Lemma nonneg_leb (x : B64.float) : B64.nonneg x = true -> B64.leb B64.zero x = true.
Proof.
  intros H. destruct (nonneg_cases x H) as [->|[->|(m & e & ->)]]; reflexivity.
Qed.

Lemma wf_nonneg (m e : Z) : wf m e -> 0 <= m.
Proof. intros (_ & [H _] & _). exact H. Qed.

Lemma faithful_nonneg (x : Q) (m e : Z) : faithful x m e -> 0 <= m.
Proof. intros [H _]. now apply wf_nonneg in H. Qed.

Lemma wf_min : wf 1 emin.
Proof. repeat split; unfold emin; lia. Qed.

Lemma faithful_positive (x : Q) (m e : Z) :
  faithful x m e -> (scaled 1 emin <= x)%Q -> 1 <= m.
Proof.
  intros Hf Hx. pose proof (faithful_ge _ _ _ _ _ Hf wf_min Hx) as H.
  pose proof (faithful_nonneg _ _ _ Hf).
  destruct (Z.eq_dec m 0) as [->|]; [|lia].
  rewrite scaled_0 in H. pose proof (scaled_pos 1 emin ltac:(lia)). lra.
Qed.

Lemma value_pos (m : positive) (e : Z) : (0 < value (S754_finite false m e))%Q.
Proof. cbn. apply scaled_pos. lia. Qed.

Lemma add_nonneg (x y : B64.float) :
  B64.nonneg x = true -> B64.nonneg y = true -> B64.nonneg (B64.add x y) = true.
Proof.
  intros Hx Hy.
  destruct (nonneg_cases x Hx) as [->|[->|(mx & ex & ->)]];
  destruct (nonneg_cases y Hy) as [->|[->|(my & ey & ->)]];
    try reflexivity.
  destruct (add_finite false mx ex false my ey) as (M & Hr & HM). rewrite Hr.
  pose proof (value_pos mx ex). pose proof (value_pos my ey).
  assert (HMpos : 0 < M).
  { apply (scaled_lt_inv _ _ (Z.min ex ey)). rewrite scaled_0. lra. }
  destruct (binary_normalize_pos M (Z.min ex ey) false HMpos) as (m & e & Hr' & Hf).
  rewrite Hr'.
  apply nonneg_build. now apply faithful_nonneg in Hf.
Qed.

(** A sum of numbers that are not negative is not negative, in whatever
    order they are added. *)
Lemma sum_of_nonneg (k : Z) (s : B64.float) :
  sum_of (fun x => B64.nonneg x = true) k s -> B64.nonneg s = true.
Proof.
  induction 1 as [|x Hx|j k x y _ IHx _ IHy]; [reflexivity | exact Hx |].
  now apply add_nonneg.
Qed.

(** Adding a number that is not negative to a zero of either sign
    gives the number. *)
Lemma add_any_zero (s : bool) (x : B64.float) :
  B64.nonneg x = true -> B64.add (S754_zero s) x = x.
Proof.
  intros Hx. destruct (nonneg_cases x Hx) as [->|[->|(m & e & ->)]];
    destruct s; reflexivity.
Qed.

Lemma sum_block_any_zero (s : bool) (a : list B64.float) :
  a <> [] -> Forall (fun x => B64.nonneg x = true) a ->
  @sum_block B64.float _ (S754_zero s) a = sum_block B64.zero a.
Proof.
  intros Hne Ha.
  destruct a as [|x0 a]; [congruence|].
  assert (Hsmall : fold_left B64.add (x0 :: a) (S754_zero s)
                   = fold_left B64.add (x0 :: a) B64.zero).
  { inversion Ha; subst. cbn [fold_left].
    change B64.zero with (S754_zero false).
    now rewrite !add_any_zero by assumption. }
  destruct a as [|x1 [|x2 [|x3 [|x4 [|x5 [|x6 [|x7 rest]]]]]]];
    try exact Hsmall.
  reflexivity.
Qed.

Lemma pairwise_sum_any_zero (s : bool) (fuel : nat) (a : list B64.float) :
  a <> [] -> Forall (fun x => B64.nonneg x = true) a ->
  @pairwise_sum B64.float _ (S754_zero s) fuel a = pairwise_sum B64.zero fuel a.
Proof.
  revert a. induction fuel as [|fuel IH]; intros a Hne Ha; cbn [pairwise_sum].
  - now apply sum_block_any_zero.
  - destruct (Nat.ltb_spec 128 (length a)) as [Hbig|_];
      [|now apply sum_block_any_zero].
    pose proof (halves_shorter Hbig) as Hn2. cbn zeta in Hn2.
    set (n2 := (length a / 2 - (length a / 2) mod 8)%nat) in *.
    rewrite <- (firstn_skipn n2 a) in Ha. apply Forall_app in Ha as [Ha1 Ha2].
    rewrite !IH; try assumption; try reflexivity.
    + intros Hnil. apply (f_equal (@length _)) in Hnil.
      rewrite length_skipn in Hnil. cbn [length] in Hnil. lia.
    + intros Hnil. apply (f_equal (@length _)) in Hnil.
      rewrite length_firstn in Hnil. cbn [length] in Hnil. lia.
Qed.

(** The sum of an array of numbers that are not negative, one at least,
    is the same whether the reduction starts from 0.0 or from -0.0. *)
Lemma add_reduce_negative_zero (a : list B64.float) :
  a <> [] -> Forall (fun x => B64.nonneg x = true) a ->
  add_reduce (B64.neg B64.zero) a = np_sum a.
Proof.
  intros Hne Ha. unfold np_sum, add_reduce.
  change (B64.neg B64.zero) with (S754_zero true).
  rewrite (pairwise_sum_any_zero true) by assumption.
  cbn [f_add f_zero binary64].
  assert (Hs : B64.nonneg (pairwise_sum B64.zero (length a) a) = true).
  { exact (sum_of_nonneg _ _ (@pairwise_sum_sum_of _ _ _ (length a) a Ha)). }
  change B64.zero with (S754_zero false) at 2.
  now rewrite !add_any_zero by assumption.
Qed.

(** The order of the additions shows in the sum.  Added from left to
    right, each [2^-53] of [Examples.ragged] is rounded away and the sum
    is 1; the 8 accumulators of the pairwise sum keep [2^-50] of
    them. *)
Lemma np_sum_is_pairwise :
  np_sum Examples.ragged = S754_finite false 4503599627370500 (-52)
  /\ fold_left B64.add Examples.ragged B64.zero = B64.one.
Proof. vm_compute. split; reflexivity. Qed.

Lemma np_sum_nonneg (l : list B64.float) :
  Forall (fun x => B64.nonneg x = true) l -> B64.nonneg (np_sum l) = true.
Proof. intros Hl. exact (sum_of_nonneg _ _ (@np_sum_sum_of _ _ _ l Hl)). Qed.

Lemma div_nonneg (x y : B64.float) :
  B64.nonneg x = true -> B64.nonneg y = true ->
  B64.div x y = S754_nan \/ B64.nonneg (B64.div x y) = true.
Proof.
  intros Hx Hy.
  destruct (nonneg_cases x Hx) as [->|[->|(mx & ex & ->)]];
  destruct (nonneg_cases y Hy) as [->|[->|(my & ey & ->)]];
    try (now left); try (right; reflexivity).
  right. destruct (div_finite false mx ex false my ey) as (m & e & Hr & Hf). rewrite Hr.
  apply nonneg_build. now apply faithful_nonneg in Hf.
Qed.

Lemma of_Z_nonneg (n : Z) : 0 <= n -> B64.nonneg (B64.of_Z n) = true.
Proof.
  intros Hn. destruct (Z.eq_dec n 0) as [->|Hne]; [reflexivity|].
  destruct (binary_normalize_pos n 0 false ltac:(lia)) as (m & e & H & Hf).
  unfold B64.of_Z, B64.prec, B64.emax. rewrite H.
  apply nonneg_build. now apply faithful_nonneg in Hf.
Qed.

Lemma gains_nonneg (deltas : list B64.float) :
  Forall (fun x => B64.nonneg x = true) (gains_of deltas).
Proof.
  unfold gains_of, np_where. apply Forall_map, Forall_forall. intros d _.
  cbn [f_ltb f_zero binary64].
  destruct (B64.ltb B64.zero d) eqn:Hlt; [|reflexivity].
  destruct d as [s|[|]| |[|] m e]; try discriminate; reflexivity.
Qed.

Lemma losses_nonneg (deltas : list B64.float) :
  Forall (fun x => B64.nonneg x = true) (losses_of deltas).
Proof.
  unfold losses_of, np_where. apply Forall_map, Forall_forall. intros d _.
  cbn [f_ltb f_zero f_neg binary64].
  destruct (B64.ltb d B64.zero) eqn:Hlt; [|reflexivity].
  destruct d as [s|[|]| |[|] m e]; try discriminate; reflexivity.
Qed.

Lemma Forall_skipn {A} (P : A -> Prop) (k : nat) (l : list A) :
  Forall P l -> Forall P (skipn k l).
Proof.
  revert l. induction k as [|k IH]; intros l Hl; [exact Hl|].
  destruct l as [|x l]; [exact Hl|]. inversion Hl; subst. now apply IH.
Qed.

Lemma Forall_slice_from {A} (P : A -> Prop) (i : Z) (l : list A) :
  Forall P l -> Forall P (slice_from i l).
Proof. intros Hl. unfold slice_from. destruct (i <? 0); now apply Forall_skipn. Qed.

Lemma mean_nonneg (l : list B64.float) :
  Forall (fun x => B64.nonneg x = true) l ->
  np_mean l = S754_nan \/ B64.nonneg (np_mean l) = true.
Proof.
  intros Hl. unfold np_mean. cbn [f_div f_of_Z binary64].
  apply div_nonneg.
  - now apply np_sum_nonneg.
  - apply of_Z_nonneg, len_nonneg.
Qed.

(** ** From the relative strength to the indicator *)

Lemma one_eq : B64.one = S754_finite false 4503599627370496 (-52).
Proof. reflexivity. Qed.
Lemma hundred_eq : B64.hundred = S754_finite false 7036874417766400 (-46).
Proof. reflexivity. Qed.
Lemma ten_thousand_eq : ten_thousand = S754_finite false 5497558138880000 (-39).
Proof. reflexivity. Qed.

Lemma wf_one : wf 4503599627370496 (-52).
Proof. repeat split; unfold emin; lia. Qed.
Lemma wf_hundred : wf 7036874417766400 (-46).
Proof. repeat split; unfold emin; lia. Qed.
Lemma wf_ten_thousand : wf 5497558138880000 (-39).
Proof. repeat split; unfold emin; lia. Qed.

Lemma value_one : (scaled 4503599627370496 (-52) == 1)%Q.
Proof. reflexivity. Qed.
Lemma value_hundred : (scaled 7036874417766400 (-46) == 100)%Q.
Proof. reflexivity. Qed.
Lemma value_ten_thousand : (scaled 5497558138880000 (-39) == 10000)%Q.
Proof. reflexivity. Qed.

Lemma in_range_cases (mc : positive) (ec : Z) (x : B64.float) :
  wf (Zpos mc) ec -> ec <= 971 ->
  in_range (S754_finite false mc ec) x ->
  x = S754_zero false
  \/ exists m e, x = S754_finite false m e /\ wf (Zpos m) e
                 /\ (scaled (Zpos m) e <= scaled (Zpos mc) ec)%Q.
Proof.
  intros Hc Hec (Hv & Hn & Hle).
  destruct (nonneg_cases x Hn) as [->|[->|(m & e & ->)]];
    [now left | discriminate |].
  right. exists m, e. split; [reflexivity|].
  pose proof Hv as Hv'. apply valid_wf in Hv' as [Hwf He].
  split; [assumption|].
  apply (SFleb_value (S754_finite false m e) (S754_finite false mc ec)) in Hle;
    try reflexivity; try assumption.
  apply valid_wf. now split.
Qed.

Lemma faithful_in_range (x : Q) (m e : Z) (mc : positive) (ec : Z) :
  faithful x m e -> wf (Zpos mc) ec -> ec <= 971 ->
  (x <= scaled (Zpos mc) ec)%Q ->
  in_range (S754_finite false mc ec) (build false m e).
Proof.
  intros Hf Hc Hec Hx. pose proof Hf as [Hwf _].
  split; [now apply valid_build|].
  split; [apply nonneg_build; now apply wf_nonneg in Hwf|].
  apply build_le_finite; try assumption.
  now apply (faithful_le x).
Qed.

Lemma in_range_zero (mc : positive) (ec : Z) :
  in_range (S754_finite false mc ec) (S754_zero false).
Proof. repeat split. Qed.

(** [1 + rs] is at least 1. *)
Lemma add_one_ge (rs : B64.float) :
  B64.nonneg rs = true ->
  B64.valid (B64.add B64.one rs) = true /\ B64.leb B64.one (B64.add B64.one rs) = true.
Proof.
  intros Hn. destruct (nonneg_cases rs Hn) as [->|[->|(m & e & ->)]];
    [split; reflexivity | split; reflexivity |].
  rewrite one_eq.
  destruct (add_finite false 4503599627370496 (-52) false m e) as (M & Hr & HM).
  rewrite Hr. pose proof (value_pos m e) as Hpos.
  cbn [value cond_Zopp] in HM. rewrite value_one in HM.
  assert (HMpos : 0 < M).
  { apply (scaled_lt_inv _ _ (Z.min (-52) e)). rewrite scaled_0.
    cbn [value cond_Zopp] in Hpos. lra. }
  destruct (binary_normalize_pos M (Z.min (-52) e) false HMpos) as (m' & e' & Hr' & Hf).
  rewrite Hr'. pose proof Hf as [Hwf _].
  split; [now apply valid_build|].
  apply build_ge_finite; try assumption; [apply wf_one | lia |].
  apply (faithful_ge _ _ _ _ _ Hf wf_one).
  rewrite value_one, HM. cbn [value cond_Zopp] in Hpos. lra.
Qed.

(** [100 / t] is at most 100 when [t] is at least 1. *)
Lemma div_hundred_le (t : B64.float) :
  B64.valid t = true -> B64.leb B64.one t = true ->
  in_range B64.hundred (B64.div B64.hundred t).
Proof.
  intros Hv Hle.
  destruct t as [s|[|]| |[|] m e]; try discriminate.
  - rewrite hundred_eq. apply in_range_zero.
  - pose proof Hv as Hv'. apply valid_wf in Hv' as [Hwf He].
    apply (SFleb_value B64.one (S754_finite false m e)) in Hle;
      try reflexivity; try assumption.
    rewrite one_eq in Hle. cbn [value cond_Zopp] in Hle. rewrite value_one in Hle.
    rewrite hundred_eq.
    destruct (div_finite false 7036874417766400 (-46) false m e) as (m' & e' & Hr & Hf).
    rewrite Hr. cbn [xorb].
    apply (faithful_in_range _ _ _ _ _ Hf wf_hundred); [lia|].
    rewrite value_hundred.
    apply Qle_shift_div_r; [lra|]. nra.
Qed.

(** [100 - u] stays between 0 and 100. *)
Lemma sub_hundred_range (u : B64.float) :
  in_range B64.hundred u -> in_range B64.hundred (B64.sub B64.hundred u).
Proof.
  rewrite hundred_eq. intros Hu.
  destruct (in_range_cases _ _ _ wf_hundred ltac:(lia) Hu)
    as [->|(m & e & -> & Hwf & Hle)].
  - repeat split.
  - destruct (sub_finite false 7036874417766400 (-46) false m e) as (M & Hr & HM).
    rewrite Hr. pose proof (scaled_pos (Zpos m) e ltac:(lia)) as Hpos.
    cbn [value cond_Zopp] in HM.
    destruct (Z.lt_trichotomy M 0) as [Hneg|[->|HMpos]].
    + exfalso. apply (scaled_lt_mono _ _ (Z.min (-46) e)) in Hneg.
      rewrite scaled_0 in Hneg. lra.
    + cbn [binary_normalize]. apply in_range_zero.
    + destruct (binary_normalize_pos M (Z.min (-46) e) false HMpos)
        as (m' & e' & Hr' & Hf).
      rewrite Hr'.
      apply (faithful_in_range _ _ _ _ _ Hf wf_hundred); [lia|]. lra.
Qed.

(** [round(v, 2)], step by step: [v * 100], *)
Lemma mul_hundred_range (v : B64.float) :
  in_range B64.hundred v -> in_range ten_thousand (B64.mul v B64.hundred).
Proof.
  rewrite hundred_eq, ten_thousand_eq. intros Hv.
  destruct (in_range_cases _ _ _ wf_hundred ltac:(lia) Hv)
    as [->|(m & e & -> & Hwf & Hle)].
  - repeat split.
  - destruct (mul_finite false m e false 7036874417766400 (-46) Hwf wf_hundred)
      as (m' & e' & Hr & Hf).
    rewrite Hr. cbn [xorb].
    apply (faithful_in_range _ _ _ _ _ Hf wf_ten_thousand); [lia|].
    pose proof (scaled_pos (Zpos m) e ltac:(lia)) as Hpos.
    rewrite value_hundred in *. rewrite value_ten_thousand. nra.
Qed.

(** the division by 100, *)
Lemma div_hundred_range (w : B64.float) :
  in_range ten_thousand w -> in_range B64.hundred (B64.div w B64.hundred).
Proof.
  rewrite hundred_eq, ten_thousand_eq. intros Hw.
  destruct (in_range_cases _ _ _ wf_ten_thousand ltac:(lia) Hw)
    as [->|(m & e & -> & Hwf & Hle)].
  - repeat split.
  - destruct (div_finite false m e false 7036874417766400 (-46)) as (m' & e' & Hr & Hf).
    rewrite Hr. cbn [xorb].
    apply (faithful_in_range _ _ _ _ _ Hf wf_hundred); [lia|].
    rewrite value_hundred, value_ten_thousand in *.
    apply Qle_shift_div_r; lra.
Qed.

Lemma scaled_exp0 (n : Z) : (scaled n 0 == inject_Z n)%Q.
Proof. unfold scaled. rewrite pow2_0. ring. Qed.

(** and [rint] between them. *)
Lemma rint_range (w : B64.float) :
  in_range ten_thousand w -> in_range ten_thousand (B64.rint w).
Proof.
  intros Hw. pose proof Hw as Hw'. rewrite ten_thousand_eq in Hw' |- *.
  destruct (in_range_cases _ _ _ wf_ten_thousand ltac:(lia) Hw')
    as [->|(m & e & -> & Hwf & Hle)].
  - repeat split.
  - cbn [B64.rint]. destruct (Z.leb_spec 0 e) as [|Hneg]; [exact Hw'|].
    destruct (shr_represents (shr_record_of_loc (Zpos m) loc_Exact) e (- e)
                (scaled (Zpos m) e) ltac:(lia) (represents_exact (Zpos m) e ltac:(lia)))
      as [Hrep _].
    replace (e + - e) with 0 in Hrep by lia.
    destruct (shr (shr_record_of_loc (Zpos m) loc_Exact) e (- e)) as [mrs e0].
    cbn [fst] in Hrep.
    pose proof (round_nearest_even_cases _ _ _ Hrep) as Hrne. cbn zeta in Hrne.
    pose proof (represents_bounds _ _ _ Hrep) as [Hlo Hhi].
    assert (Hm0 : 0 <= shr_m mrs) by (destruct Hrep as [H _]; exact H).
    set (n := round_nearest_even (shr_m mrs) (loc_of_shr_record mrs)) in *.
    cbn [cond_Zopp]. rewrite value_ten_thousand in Hle.
    assert (Hn : 0 <= n <= 10000).
    { rewrite scaled_exp0 in Hlo.
      destruct Hrne as [->|[-> Hinex]].
      - split; [assumption|]. rewrite Zle_Qle.
        change (inject_Z 10000) with 10000%Q. lra.
      - split; [lia|]. rewrite scaled_exp0 in Hinex.
        assert (Hlt : (inject_Z (shr_m mrs) < inject_Z 10000)%Q)
          by (change (inject_Z 10000) with 10000%Q; lra).
        rewrite <- Zlt_Qlt in Hlt. lia. }
    destruct (Z.eq_dec n 0) as [->|Hne]; [repeat split|].
    destruct (binary_normalize_pos n 0 false ltac:(lia)) as (m' & e' & Hr & Hf).
    unfold B64.prec, B64.emax. rewrite Hr.
    apply (faithful_in_range _ _ _ _ _ Hf wf_ten_thousand); [lia|].
    rewrite value_ten_thousand, scaled_exp0.
    change 10000%Q with (inject_Z 10000). rewrite <- Zle_Qle. lia.
Qed.

Lemma round2_range (v : B64.float) :
  in_range B64.hundred v -> in_range B64.hundred (B64.round2 v).
Proof.
  intros Hv. unfold B64.round2.
  now apply div_hundred_range, rint_range, mul_hundred_range.
Qed.

(** [round(100 - 100 / (1 + rs), 2)]. *)
Lemma rsi_of_strength_range (rs : B64.float) :
  B64.nonneg rs = true ->
  in_range B64.hundred
    (B64.round2 (B64.sub B64.hundred (B64.div B64.hundred (B64.add B64.one rs)))).
Proof.
  intros Hn. destruct (add_one_ge rs Hn) as [Hv Hle].
  now apply round2_range, sub_hundred_range, div_hundred_le.
Qed.

Lemma in_range_in_0_100 (r : B64.float) :
  in_range B64.hundred r -> B64.in_0_100 r = true.
Proof.
  intros (_ & Hn & Hle). unfold B64.in_0_100. now rewrite (nonneg_leb r Hn), Hle.
Qed.

(** ** The range of [calculate_rsi] *)

Lemma of_Z_ge_one (n : Z) :
  1 <= n -> B64.valid (B64.of_Z n) = true /\ B64.leb B64.one (B64.of_Z n) = true.
Proof.
  intros Hn.
  destruct (binary_normalize_pos n 0 false ltac:(lia)) as (m & e & Hr & Hf).
  unfold B64.of_Z, B64.prec, B64.emax. rewrite Hr. pose proof Hf as [Hwf _].
  split; [now apply valid_build|]. rewrite one_eq.
  apply build_ge_finite; try assumption; [apply wf_one | lia |].
  apply (faithful_ge _ _ _ _ _ Hf wf_one).
  rewrite value_one, scaled_exp0. change 1%Q with (inject_Z 1). now rewrite <- Zle_Qle.
Qed.

Lemma ge_one_cases (y : B64.float) :
  B64.leb B64.one y = true ->
  y = S754_infinity false \/ exists m e, y = S754_finite false m e.
Proof.
  destruct y as [s|[|]| |[|] m e]; intros H; try discriminate; eauto.
Qed.


Lemma div_nan_r (x : B64.float) : B64.div x S754_nan = S754_nan.
Proof. now destruct x. Qed.

Lemma div_by_finite_nonneg (x : B64.float) (m : positive) (e : Z) :
  B64.nonneg x = true -> B64.nonneg (B64.div x (S754_finite false m e)) = true.
Proof.
  intros Hx.
  destruct (div_nonneg x (S754_finite false m e) Hx eq_refl) as [Hnan|H]; [|exact H].
  destruct (nonneg_cases x Hx) as [->|[->|(mx & ex & ->)]]; try discriminate.
  destruct (div_finite false mx ex false m e) as (m' & e' & Hr & Hf).
  rewrite Hr in Hnan. apply faithful_nonneg in Hf.
  destruct m' as [|q|q]; try lia; cbn [build xorb] in Hnan; try discriminate.
  destruct (e' <=? 971); discriminate.
Qed.

Lemma div_finite_divisor (x y : B64.float) (m : positive) (e : Z) :
  B64.nonneg x = true -> B64.nonneg y = true ->
  B64.div x y = S754_finite false m e ->
  exists my ey, y = S754_finite false my ey.
Proof.
  intros Hx Hy.
  destruct (nonneg_cases x Hx) as [->|[->|(mx & ex & ->)]];
  destruct (nonneg_cases y Hy) as [->|[->|(my & ey & ->)]];
    try discriminate; eauto.
Qed.

Lemma len_slice_np_where (c1 c2 : B64.float -> bool) (v1 v2 : B64.float -> B64.float)
    (i : Z) (a : list B64.float) :
  len (slice_from i (np_where c1 v1 a)) = len (slice_from i (np_where c2 v2 a)).
Proof.
  unfold slice_from, len, np_where.
  destruct (i <? 0); rewrite !length_skipn, !length_map; reflexivity.
Qed.

Lemma calculate_rsi_range (p : Z) (ps : list B64.float) :
  1 <= p -> p + 1 <= len ps ->
  let avg_loss := np_mean (slice_from (- p) (losses_of (np_diff ps))) in
  exists r,
    calculate_rsi p ps = Some r
    /\ (B64.in_0_100 r = true
        \/ (r = S754_nan /\ B64.is_finite avg_loss = false)).
Proof.
  intros Hp Hlen avg_loss. unfold calculate_rsi.
  destruct (Z.ltb_spec (len ps) (p + 1)); [lia|].
  fold avg_loss.
  set (deltas := np_diff ps) in *.
  set (avg_gain := np_mean (slice_from (- p) (gains_of deltas))).
  cbn [f_eqb f_zero f_hundred f_div f_sub f_add f_one f_round2 binary64].
  pose proof (Forall_slice_from _ (- p) _ (gains_nonneg deltas)) as HFG.
  pose proof (Forall_slice_from _ (- p) _ (losses_nonneg deltas)) as HFL.
  pose proof (mean_nonneg _ HFG) as HG. fold avg_gain in HG.
  pose proof (mean_nonneg _ HFL) as HL. fold avg_loss in HL.
  destruct HL as [HL|HL].
  - (* the average loss is NaN *)
    rewrite HL. cbn [B64.eqb SFeqb SFcompare]. rewrite div_nan_r.
    eexists. split; [reflexivity|]. right. split; reflexivity.
  - destruct (nonneg_cases _ HL) as [HL0|[HLinf|(m & e & HLfin)]].
    + rewrite HL0. eexists. split; [reflexivity|]. left. reflexivity.
    + rewrite HLinf. cbn [B64.eqb SFeqb SFcompare B64.zero].
      eexists. split; [reflexivity|].
      destruct HG as [HG|HG].
      * right. rewrite HG. split; reflexivity.
      * destruct (div_nonneg avg_gain (S754_infinity false) HG eq_refl) as [Hn|Hn].
        -- right. rewrite Hn. split; reflexivity.
        -- left. now apply in_range_in_0_100, rsi_of_strength_range.
    + rewrite HLfin. cbn [B64.eqb SFeqb SFcompare B64.zero].
      eexists. split; [reflexivity|]. left.
      apply in_range_in_0_100, rsi_of_strength_range, div_by_finite_nonneg.
      (* the divisor of both means is a finite number, so the average
         gain is not NaN *)
      unfold avg_loss, np_mean in HLfin. cbn [f_div f_of_Z binary64] in HLfin.
      destruct (div_finite_divisor _ _ _ _
                  (np_sum_nonneg _ HFL)
                  (of_Z_nonneg _ (len_nonneg _)) HLfin) as (my & ey & Hy).
      unfold avg_gain, np_mean. cbn [f_div f_of_Z binary64].
      unfold gains_of, losses_of in *.
      rewrite (len_slice_np_where _ (fun d => f_ltb d f_zero) _ f_neg), Hy.
      apply div_by_finite_nonneg.
      apply (np_sum_nonneg _ HFG).
Qed.

(** ** Differences of ordered prices *)

Lemma signed_inf (s : bool) : signed s (S754_infinity s).
Proof. exists (2 ^ 52), 972. repeat split; unfold emin; lia. Qed.

Lemma signed_finite (s : bool) (m : positive) (e : Z) :
  B64.valid (S754_finite s m e) = true -> signed s (S754_finite s m e).
Proof.
  intros Hv. apply valid_wf in Hv as [Hwf He]. exists (Zpos m), e.
  split; [|split; [assumption|lia]].
  cbn [build]. destruct (Z.leb_spec e 971); [reflexivity|lia].
Qed.

Lemma signed_cases (s : bool) (x : B64.float) :
  signed s x -> x = S754_infinity s \/ exists m e, x = S754_finite s m e.
Proof.
  intros (m & e & -> & Hwf & Hm). destruct m as [|q|q]; try lia. cbn [build].
  destruct (e <=? 971); eauto.
Qed.

Lemma signed_neg (s : bool) (x : B64.float) :
  signed s x -> signed (negb s) (B64.neg x).
Proof.
  intros (m & e & -> & Hwf & Hm). exists m, e. split; [|now split].
  destruct m as [|q|q]; try lia. cbn [build]. now destruct (e <=? 971).
Qed.

Lemma scaled_min_le (M ez : Z) :
  1 <= M -> emin <= ez -> (scaled 1 emin <= scaled M ez)%Q.
Proof.
  intros HM He. apply Qle_trans with (scaled 1 ez).
  - unfold scaled. apply Qmult_le_l; [reflexivity|]. now apply pow2_le.
  - now apply scaled_le_mono.
Qed.

Lemma normalize_signed_pos (M ez : Z) :
  0 < M -> emin <= ez -> signed false (binary_normalize 53 1024 M ez false).
Proof.
  intros HM He. destruct (binary_normalize_pos M ez false HM) as (m & e & Hr & Hf).
  exists m, e. split; [exact Hr|]. split; [now destruct Hf|].
  apply (faithful_positive _ _ _ Hf). apply scaled_min_le; lia.
Qed.

Lemma normalize_signed_neg (M ez : Z) :
  M < 0 -> emin <= ez -> signed true (binary_normalize 53 1024 M ez false).
Proof.
  intros HM He. destruct (binary_normalize_neg M ez false HM) as (m & e & Hr & Hf).
  exists m, e. split; [exact Hr|]. split; [now destruct Hf|].
  apply (faithful_positive _ _ _ Hf). apply scaled_min_le; lia.
Qed.

Lemma sub_of_lt (a b : B64.float) :
  B64.valid a = true -> B64.valid b = true -> B64.ltb a b = true ->
  signed false (B64.sub b a) /\ signed true (B64.sub a b).
Proof.
  intros Va Vb Hlt.
  destruct a as [sa|sa| |sa ma ea], b as [sb|sb| |sb mb eb]; try discriminate.
  - (* zero < infinity *)
    destruct sb; try discriminate. split; apply signed_inf.
  - (* zero < finite *)
    destruct sb; try discriminate. split.
    + now apply signed_finite.
    + apply (signed_finite true). exact Vb.
  - (* infinity < zero *)
    destruct sa; try discriminate. split; apply signed_inf.
  - (* infinity < infinity *)
    destruct sa, sb; try discriminate. split; apply signed_inf.
  - (* infinity < finite *)
    destruct sa; try discriminate. split; apply signed_inf.
  - (* finite < zero *)
    destruct sa; try discriminate. split.
    + apply (signed_finite false). exact Va.
    + now apply signed_finite.
  - (* finite < infinity *)
    destruct sb; try discriminate. split; apply signed_inf.
  - (* finite < finite *)
    apply (SFltb_value _ _ Va Vb eq_refl eq_refl) in Hlt.
    pose proof Va as Va'. pose proof Vb as Vb'.
    apply valid_wf in Va' as [[Hea _] _]. apply valid_wf in Vb' as [[Heb _] _].
    split.
    + destruct (sub_finite sb mb eb sa ma ea) as (M & Hr & HM). rewrite Hr.
      apply normalize_signed_pos; [|lia].
      apply (scaled_lt_inv _ _ (Z.min eb ea)). rewrite scaled_0. lra.
    + destruct (sub_finite sa ma ea sb mb eb) as (M & Hr & HM). rewrite Hr.
      apply normalize_signed_neg; [|lia].
      apply (scaled_lt_inv _ _ (Z.min ea eb)). rewrite scaled_0. lra.
Qed.

Lemma slice_from_map {A B} (f : A -> B) (i : Z) (l : list A) :
  slice_from i (map f l) = map f (slice_from i l).
Proof.
  unfold slice_from, len. rewrite length_map.
  destruct (i <? 0); apply skipn_map.
Qed.

Lemma len_slice_from_neg {A} (p : Z) (l : list A) :
  1 <= p -> p <= len l -> len (slice_from (- p) l) = p.
Proof.
  intros Hp Hl. rewrite slice_from_neg by assumption.
  unfold len in *. rewrite length_lastn. lia.
Qed.

Lemma len_np_diff (ps : list B64.float) : 1 <= len ps -> len (np_diff ps) = len ps - 1.
Proof. unfold len. rewrite length_np_diff. lia. Qed.


Lemma decreasing_deltas (ps : list B64.float) :
  Forall (fun x => B64.valid x = true) ps -> B64.decreasing ps = true ->
  Forall (signed true) (np_diff ps).
Proof.
  induction ps as [|x [|y rest] IH]; intros Hv Hdec; cbn [np_diff]; try constructor.
  - cbn [B64.decreasing] in Hdec. apply andb_true_iff in Hdec as [Hlt _].
    inversion Hv as [|? ? Vx Hv']; subst. inversion Hv' as [|? ? Vy _]; subst.
    cbn [f_sub binary64]. now apply (sub_of_lt y x).
  - apply IH.
    + now inversion Hv.
    + cbn [B64.decreasing] in Hdec. now apply andb_true_iff in Hdec as [_ H].
Qed.


Lemma signed_true_lt (d : B64.float) :
  signed true d -> B64.ltb d B64.zero = true /\ B64.ltb B64.zero d = false.
Proof.
  intros H. destruct (signed_cases _ _ H) as [->|(m & e & ->)];
    split; reflexivity.
Qed.

(** ** No loss: the losses sum to zero *)

(** Zeros sum to zero, in whatever order they are added. *)
Lemma sum_of_zeros (k : Z) (s : B64.float) :
  sum_of (fun x => x = B64.zero) k s -> s = B64.zero.
Proof.
  induction 1 as [|x Hx|j k x y _ IHx _ IHy]; [reflexivity | exact Hx |].
  rewrite IHx, IHy. reflexivity.
Qed.

Lemma np_sum_zeros (l : list B64.float) :
  Forall (fun x => x = B64.zero) l -> np_sum l = B64.zero.
Proof. intros Hl. exact (sum_of_zeros _ _ (@np_sum_sum_of _ _ _ l Hl)). Qed.


Lemma gains_zero (ds : list B64.float) :
  Forall (fun d => B64.ltb B64.zero d = false) ds ->
  Forall (fun x => x = B64.zero) (gains_of ds).
Proof.
  intros H. unfold gains_of, np_where. apply Forall_map.
  eapply Forall_impl; [|exact H]. cbn beta. intros d Hd.
  cbn [f_ltb f_zero binary64]. now rewrite Hd.
Qed.

Lemma div_zero_by_count (n : Z) :
  1 <= n -> B64.div B64.zero (B64.of_Z n) = B64.zero.
Proof.
  intros Hn. destruct (of_Z_ge_one n Hn) as [_ Hle].
  destruct (ge_one_cases _ Hle) as [->|(m & e & ->)]; reflexivity.
Qed.

Lemma mean_zeros (l : list B64.float) :
  1 <= len l -> Forall (fun x => x = B64.zero) l -> np_mean l = B64.zero.
Proof.
  intros Hl Hz. unfold np_mean. cbn [f_div f_of_Z binary64].
  rewrite (np_sum_zeros l Hz). now apply div_zero_by_count.
Qed.


(** ** Only losses: their mean is not zero

    Every loss is at least the smallest positive float; as long as
    fewer than [2^53] of them are added, the sum of [n] of them is at
    least [n] times that float, and the mean at least once. *)

Lemma wf_units (k : Z) : 1 <= k < 2 ^ 53 -> wf k emin.
Proof. intros Hk. repeat split; unfold emin; lia. Qed.

Lemma at_least_cases (k : Z) (x : B64.float) :
  1 <= k < 2 ^ 53 -> at_least k x ->
  x = S754_infinity false
  \/ exists m e, x = S754_finite false m e
                 /\ (scaled k emin <= scaled (Zpos m) e)%Q.
Proof.
  intros Hk [Hv Hle].
  destruct x as [s|[|]| |[|] m e]; try discriminate; [now left|right].
  exists m, e. split; [reflexivity|].
  apply (SFleb_value (S754_finite false (Z.to_pos k) emin)
           (S754_finite false m e)) in Hle;
    try reflexivity; try assumption.
  - cbn [value cond_Zopp] in Hle. now rewrite Z2Pos.id in Hle by lia.
  - apply valid_wf. rewrite Z2Pos.id by lia.
    split; [now apply wf_units | unfold emin; lia].
Qed.

Lemma at_least_inf (k : Z) : at_least k (S754_infinity false).
Proof. split; reflexivity. Qed.

Lemma faithful_at_least (k : Z) (x : Q) (m e : Z) :
  1 <= k < 2 ^ 53 -> faithful x m e -> (scaled k emin <= x)%Q ->
  at_least k (build false m e).
Proof.
  intros Hk Hf Hx. pose proof Hf as [Hwf _].
  split; [now apply valid_build|].
  apply build_ge_finite; try assumption.
  - rewrite Z2Pos.id by lia. now apply wf_units.
  - unfold emin. lia.
  - rewrite Z2Pos.id by lia. apply (faithful_ge _ _ _ _ _ Hf (wf_units k Hk) Hx).
Qed.

Lemma signed_at_least (x : B64.float) : signed false x -> at_least 1 x.
Proof.
  intros (m & e & -> & Hwf & Hm).
  split; [now apply valid_build|].
  apply build_ge_finite; try assumption; [apply wf_min | unfold emin; lia |].
  change (Zpos (Z.to_pos 1)) with 1. apply scaled_min_le; [lia|]. now destruct Hwf.
Qed.

Lemma add_at_least (j k : Z) (x y : B64.float) :
  1 <= j -> 1 <= k -> j + k < 2 ^ 53 ->
  at_least j x -> at_least k y -> at_least (j + k) (B64.add x y).
Proof.
  intros Hj Hk Hjk Hx Hy.
  destruct (at_least_cases j x ltac:(lia) Hx) as [->|(mx & ex & -> & Hvx)];
  destruct (at_least_cases k y ltac:(lia) Hy) as [->|(my & ey & -> & Hvy)];
    try apply at_least_inf.
  destruct (add_finite false mx ex false my ey) as (M & Hr & HM). rewrite Hr.
  cbn [value cond_Zopp] in HM.
  assert (Hsum : (scaled (j + k) emin <= scaled M (Z.min ex ey))%Q).
  { rewrite scaled_add, HM. lra. }
  assert (HMpos : 0 < M).
  { apply (scaled_lt_inv _ _ (Z.min ex ey)). rewrite scaled_0.
    pose proof (scaled_pos (j + k) emin ltac:(lia)). lra. }
  destruct (binary_normalize_pos M (Z.min ex ey) false HMpos) as (m & e & Hr' & Hf).
  rewrite Hr'. apply (faithful_at_least (j + k) _ _ _ ltac:(lia) Hf Hsum).
Qed.

Lemma at_least_add_zero (k : Z) (x : B64.float) :
  1 <= k < 2 ^ 53 -> at_least k x ->
  B64.add B64.zero x = x /\ B64.add x B64.zero = x.
Proof.
  intros Hk Hx.
  destruct (at_least_cases k x Hk Hx) as [->|(m & e & -> & _)]; split; reflexivity.
Qed.

(** A sum of [k] positive numbers, fewer than [2^53], is at least [k]
    times the smallest positive float, in whatever order they are
    added. *)
Lemma sum_of_at_least (k : Z) (s : B64.float) :
  sum_of (signed false) k s -> k < 2 ^ 53 ->
  (k = 0 /\ s = B64.zero) \/ (1 <= k /\ at_least k s).
Proof.
  induction 1 as [|x Hx|j k x y Hsx IHx Hsy IHy]; intros Hk.
  - left. split; reflexivity.
  - right. split; [lia|]. now apply signed_at_least.
  - pose proof (sum_of_count Hsx). pose proof (sum_of_count Hsy).
    cbn [f_add binary64].
    destruct (IHx ltac:(lia)) as [[-> ->]|[Hj Hx]];
      destruct (IHy ltac:(lia)) as [[-> ->]|[Hk' Hy]].
    + left. split; reflexivity.
    + right. split; [lia|].
      destruct (at_least_add_zero k y ltac:(lia) Hy) as [-> _]. exact Hy.
    + right. split; [lia|]. rewrite Z.add_0_r.
      destruct (at_least_add_zero j x ltac:(lia) Hx) as [_ ->]. exact Hx.
    + right. split; [lia|]. apply add_at_least; try assumption; lia.
Qed.

Lemma np_sum_at_least (l : list B64.float) :
  1 <= len l < 2 ^ 53 -> Forall (signed false) l -> at_least (len l) (np_sum l).
Proof.
  intros Hlen Hl.
  destruct (sum_of_at_least _ _ (@np_sum_sum_of _ _ _ l Hl)) as [[H0 _]|[_ Hs]];
    [lia | lia | exact Hs].
Qed.

(** An integer below [2^53] converts exactly. *)
Lemma of_Z_exact (n : Z) :
  1 <= n < 2 ^ 53 ->
  exists m e, B64.of_Z n = S754_finite false m e
              /\ (scaled (Zpos m) e == inject_Z n)%Q.
Proof.
  intros Hn.
  destruct (binary_normalize_pos n 0 false ltac:(lia)) as (m & e & Hr & Hf).
  (* the canonical form of n *)
  destruct (Zdigits2_spec n ltac:(lia)) as [[Hlo Hhi] Hd].
  pose proof (Zdigits2_le n 53 ltac:(lia) ltac:(lia)) as Hd53.
  set (d := Zdigits2 n) in *.
  assert (Hwfc : wf (n * 2 ^ (53 - d)) (d - 53)).
  { split; [unfold emin; lia|]. split.
    - split; [apply Z.mul_nonneg_nonneg; [lia | apply Z.pow_nonneg; lia]|].
      replace (2 ^ 53) with (2 ^ d * 2 ^ (53 - d))
        by (rewrite <- Z.pow_add_r by lia; f_equal; lia).
      apply Z.mul_lt_mono_pos_r; [apply Z.pow_pos_nonneg; lia | assumption].
    - intros _. replace (2 ^ 52) with (2 ^ (d - 1) * 2 ^ (53 - d))
        by (rewrite <- Z.pow_add_r by lia; f_equal; lia).
      apply Z.mul_le_mono_nonneg_r; [apply Z.pow_nonneg; lia | assumption]. }
  assert (Hvc : (scaled (n * 2 ^ (53 - d)) (d - 53) == scaled n 0)%Q).
  { rewrite scaled_shift by lia.
    replace (d - 53 + (53 - d)) with 0 by lia. reflexivity. }
  pose proof (faithful_le _ _ _ _ _ Hf Hwfc ltac:(rewrite Hvc; lra)) as Hle.
  pose proof (faithful_ge _ _ _ _ _ Hf Hwfc ltac:(rewrite Hvc; lra)) as Hge.
  pose proof Hf as [Hwf _].
  destruct (wf_order_le _ _ _ _ Hwf Hwfc Hle) as [He|[He _]];
    (assert (Hm : 1 <= m);
     [apply (faithful_positive _ _ _ Hf); apply scaled_min_le; unfold emin; lia|]);
    destruct m as [|q|q]; try lia;
    exists q, e;
    (split; [unfold B64.of_Z, B64.prec, B64.emax; rewrite Hr; cbn [build];
             destruct (Z.leb_spec e 971); [reflexivity|lia]
            | rewrite <- scaled_exp0; lra]).
Qed.

(** The mean of positive numbers. *)
Lemma mean_positive (l : list B64.float) :
  1 <= len l < 2 ^ 53 -> Forall (signed false) l -> signed false (np_mean l).
Proof.
  intros Hlen Hl. unfold np_mean. cbn [f_div f_of_Z binary64].
  pose proof (np_sum_at_least l Hlen Hl) as Hs.
  destruct (of_Z_exact (len l) Hlen) as (mp & ep & Hp & Hvp). rewrite Hp.
  destruct (at_least_cases _ _ Hlen Hs) as [Hinf|(m & e & Hfin & Hv)].
  - rewrite Hinf. apply signed_inf.
  - rewrite Hfin.
    destruct (div_finite false m e false mp ep) as (m' & e' & Hr & Hf). rewrite Hr.
    exists m', e'. split; [reflexivity|]. split; [now destruct Hf|].
    apply (faithful_positive _ _ _ Hf).
    pose proof (scaled_pos 1 emin ltac:(lia)) as H1.
    assert (Hn : (0 < inject_Z (len l))%Q)
      by (change 0%Q with (inject_Z 0); rewrite <- Zlt_Qlt; lia).
    assert (Hk : (scaled (len l) emin == inject_Z (len l) * scaled 1 emin)%Q)
      by (unfold scaled; change (inject_Z 1) with 1%Q; ring).
    rewrite Hvp. apply Qle_shift_div_l; [assumption|]. rewrite Hk in Hv. lra.
Qed.

Lemma all_losses_gives_zero (p : Z) (ps : list B64.float) :
  1 <= p < 2 ^ 53 -> p + 1 <= len ps ->
  Forall (signed true) (slice_from (- p) (np_diff ps)) ->
  let avg_gain := np_mean (slice_from (- p) (gains_of (np_diff ps))) in
  let avg_loss := np_mean (slice_from (- p) (losses_of (np_diff ps))) in
  avg_gain = B64.zero
  /\ B64.eqb avg_loss B64.zero = false
  /\ B64.div avg_gain avg_loss = B64.zero
  /\ calculate_rsi p ps = Some B64.zero.
Proof.
  intros Hp Hlen Hd avg_gain avg_loss.
  assert (Hl : len (slice_from (- p) (np_diff ps)) = p).
  { rewrite len_slice_from_neg; [lia | lia |]. rewrite len_np_diff; lia. }
  assert (Hgain : avg_gain = B64.zero).
  { unfold avg_gain, gains_of, np_where. rewrite slice_from_map.
    apply mean_zeros.
    - unfold len. rewrite length_map. fold (len (slice_from (- p) (np_diff ps))). lia.
    - apply gains_zero. eapply Forall_impl; [|exact Hd].
      intros d Hs. now apply signed_true_lt. }
  assert (Hloss : signed false avg_loss).
  { unfold avg_loss, losses_of, np_where. rewrite slice_from_map.
    apply mean_positive.
    - unfold len. rewrite length_map. fold (len (slice_from (- p) (np_diff ps))). lia.
    - apply Forall_map. eapply Forall_impl; [|exact Hd].
      intros d Hs. cbn [f_ltb f_zero f_neg binary64].
      destruct (signed_true_lt d Hs) as [-> _]. now apply (signed_neg true). }
  unfold calculate_rsi.
  destruct (Z.ltb_spec (len ps) (p + 1)); [lia|].
  fold avg_gain. fold avg_loss. rewrite Hgain.
  destruct (signed_cases _ _ Hloss) as [->|(m & e & ->)]; repeat split; reflexivity.
Qed.

Set Implicit Arguments.

(** * The claims *)

(** C1: the worked example.  With a period of 3 the history
    [10, 12, 11, 13] has deltas [2, -1, 2], gains [2, 0, 2], losses
    [0, 1, 0], average gain 4/3, average loss 1/3, relative strength 4,
    and [calculate_rsi] returns 80.0. *)
Theorem C1_worked_example :
  let deltas := np_diff Samples.example in
  let avg_gain := np_mean (slice_from (- 3) (gains_of deltas)) in
  let avg_loss := np_mean (slice_from (- 3) (losses_of deltas)) in
  deltas = [Samples.price 2; Samples.price (-1); Samples.price 2]
  /\ gains_of deltas = [Samples.price 2; B64.zero; Samples.price 2]
  /\ losses_of deltas = [B64.zero; Samples.price 1; B64.zero]
  /\ avg_gain = B64.div (Samples.price 4) (Samples.price 3)
  /\ avg_loss = B64.div (Samples.price 1) (Samples.price 3)
  /\ B64.div avg_gain avg_loss = Samples.price 4
  /\ B64.sub B64.hundred
       (B64.div B64.hundred (B64.add B64.one (Samples.price 4)))
     = Samples.price 80
  /\ calculate_rsi 3 Samples.example = Some (Samples.price 80).
Proof. vm_compute. repeat split; reflexivity. Qed.

(** C2 fails in binary64: with a period of 4, on the history
    [0, M, 0, M, 0] with [M] the largest finite float, the sums of the
    gains and of the losses both overflow to infinity, their quotient is
    NaN, and so is the value returned. *)
Lemma C2_counterexample :
  ~ (forall (p : Z) (ps : list B64.float) (r : B64.float),
        1 <= p -> p + 1 <= len ps ->
        calculate_rsi p ps = Some r -> B64.in_0_100 r = true).
Proof.
  intros Hall.
  specialize (Hall 4 Samples.overflowing S754_nan).
  discriminate Hall; [lia | vm_compute; discriminate | vm_compute; reflexivity].
Qed.

(** C2, as it holds in binary64: with a period of at least 1 and enough
    history, [calculate_rsi] returns a number between 0 and 100, or NaN;
    and NaN only when the average of the losses is not a finite number,
    that is when sums have overflowed.  The averages are those of
    NumPy's pairwise sums; the proof uses of a sum only that it comes
    from its terms by additions ([np_sum_sum_of], [sum_of_nonneg]), so
    the order of the additions does not matter to it. *)
Theorem C2_rsi_between_0_and_100_or_nan :
  forall (p : Z) (ps : list B64.float),
    1 <= p -> p + 1 <= len ps ->
    let avg_loss := np_mean (slice_from (- p) (losses_of (np_diff ps))) in
    exists r,
      calculate_rsi p ps = Some r
      /\ (B64.in_0_100 r = true
          \/ (B64.is_nan r = true /\ B64.is_finite avg_loss = false)).
Proof.
  intros p ps Hp Hlen avg_loss.
  destruct (calculate_rsi_range p ps Hp Hlen) as (r & Hr & [Hin|[-> Hfin]]).
  - exists r. split; [exact Hr|]. now left.
  - exists S754_nan. split; [exact Hr|]. right. split; [reflexivity | exact Hfin].
Qed.

Lemma C2_witness :
  1 <= 14 /\ 14 + 1 <= len Examples.ripple /\
  exists r,
    calculate_rsi 14 Examples.ripple = Some r
    /\ (B64.in_0_100 r = true
        \/ (B64.is_nan r = true
            /\ B64.is_finite
                 (np_mean (slice_from (- 14) (losses_of (np_diff Examples.ripple))))
               = false)).
Proof.
  split; [lia|]. split; [vm_compute; discriminate|].
  apply (@C2_rsi_between_0_and_100_or_nan 14 Examples.ripple);
    [lia | vm_compute; discriminate].
Defined.

(** C3: a price list shorter than [period + 1], the empty list included,
    makes [calculate_rsi] return [None]: a value, no exception. *)
Theorem C3_short_history_returns_None :
  forall (F : Type) (A : Arith F) (p : Z) (ps : list F),
    1 <= p -> len ps < p + 1 ->
    calculate_rsi p ps = None /\ calculate_rsi p (@nil F) = None.
Proof.
  intros F A p ps Hp Hlen. split.
  - now apply calculate_rsi_None.
  - apply calculate_rsi_None. cbn. lia.
Qed.

Lemma C3_witness :
  1 <= 3 /\ len Samples.short < 3 + 1 /\
  calculate_rsi 3 Samples.short = None /\
  calculate_rsi 3 (@nil B64.float) = None.
Proof.
  split; [lia|]. split; [reflexivity|].
  apply (@C3_short_history_returns_None B64.float binary64 3 Samples.short);
    [lia | reflexivity].
Defined.



(** C5: with a period of at least 1, on strictly decreasing prices the
    average gain is 0, the average loss is not, the relative strength is
    0 and [calculate_rsi] returns 0.0.  The period is taken below
    [2^53]: up to there the number of averaged deltas is a float without
    rounding, and the sum of that many losses is at least as many times
    the smallest positive float in whatever order they are added
    ([sum_of_at_least]); no list in memory is that long. *)
Theorem C5_decreasing_prices_return_0 :
  forall (p : Z) (ps : list B64.float),
    1 <= p < 2 ^ 53 -> p + 1 <= len ps ->
    forallb B64.valid ps = true -> B64.decreasing ps = true ->
    let deltas := np_diff ps in
    let avg_gain := np_mean (slice_from (- p) (gains_of deltas)) in
    let avg_loss := np_mean (slice_from (- p) (losses_of deltas)) in
    avg_gain = B64.zero
    /\ B64.eqb avg_loss B64.zero = false
    /\ B64.div avg_gain avg_loss = B64.zero
    /\ calculate_rsi p ps = Some B64.zero.
Proof.
  intros p ps Hp Hlen Hv Hdec. cbn zeta.
  apply all_losses_gives_zero; [assumption | assumption |].
  apply Forall_slice_from, decreasing_deltas; [|exact Hdec].
  apply Forall_forall. intros x Hin. rewrite forallb_forall in Hv. now apply Hv.
Qed.

Lemma C5_witness :
  1 <= 14 < 2 ^ 53 /\ 14 + 1 <= len Examples.slide /\
  forallb B64.valid Examples.slide = true /\
  B64.decreasing Examples.slide = true /\
  calculate_rsi 14 Examples.slide = Some B64.zero.
Proof.
  split; [lia|]. split; [vm_compute; discriminate|].
  split; [reflexivity|]. split; [reflexivity|].
  apply (@C5_decreasing_prices_return_0 14 Examples.slide);
    [lia | vm_compute; discriminate | reflexivity | reflexivity].
Defined.

(** C6: started with an empty history and a period of at least 1, the
    loop is run against any sequence of inputs; it goes through them
    one iteration each ([done]; all of them unless an exception leaves
    the loop).  The prices fetched are those that [fetch_price] returns
    on these inputs, the history holds at most [2 * period] prices, and
    they are the most recent [min(n, 2 * period)] of the [n] prices
    returned so far, oldest first. *)
Theorem C6_history_is_the_recent_prices :
  forall (F : Type) (A : Arith F) (p delay : Z) (inputs : list (input F)),
    1 <= p ->
    let r := run_iters (new_tracker p delay) inputs in
    let done := firstn (fetch_calls (fst r)) inputs in
    let seen := returned done in
    let history := prices (tracker_of (snd r)) in
    fetched (fst r) = seen
    /\ len history <= 2 * p
    /\ history = lastn (Nat.min (length seen) (Z.to_nat (2 * p))) seen
    /\ (forall t', snd r = Continue t' -> done = inputs).
Proof.
  intros F A p delay inputs Hp r done seen history.
  destruct (run_iters_fetched inputs (new_tracker p delay)) as [Hfe Hall].
  fold r in Hfe, Hall. fold done in Hfe. fold seen in Hfe.
  destruct (@run_iters_history F A inputs (new_tracker p delay)) as [Hh _];
    [exact Hp | cbn; lia |].
  cbn [new_tracker period prices app] in Hh. fold r in Hh. rewrite Hfe in Hh.
  fold history in Hh. replace (p * 2) with (2 * p) in Hh by lia.
  assert (Heq : lastn (Nat.min (length seen) (Z.to_nat (2 * p))) seen =
                lastn (Z.to_nat (2 * p)) seen).
  { unfold lastn. f_equal. lia. }
  split; [exact Hfe|]. rewrite Heq, Hh.
  split; [unfold len; rewrite length_lastn; lia|].
  split; [reflexivity|].
  intros t' Ht'. unfold done. rewrite (Hall t' Ht'). apply firstn_all.
Qed.

Lemma C6_witness :
  1 <= 1
  /\ returned Samples.inputs
     = [Samples.price 10; Samples.price 12; Samples.price 11; Samples.price 13]
  /\ prices (tracker_of (snd (run_iters (new_tracker 1 60) Samples.inputs)))
     = [Samples.price 11; Samples.price 13].
Proof.
  split; [lia|]. split; [reflexivity|].
  refine (eq_trans
    (proj1 (proj2 (proj2
       (@C6_history_is_the_recent_prices B64.float binary64 1 60 Samples.inputs
          ltac:(lia))))) _).
  vm_compute. reflexivity.
Defined.

(** C7: an iteration whose fetch raises does nothing but log the error
    and sleep for the backoff delay: the history is as it was, no row is
    written, and the next iteration starts with another fetch. *)
Theorem C7_failed_fetch_changes_nothing :
  forall (F : Type) (A : Arith F) (t : tracker F) (i : input F) (e : exn),
    fetch_price i = Raise e -> is_Exception e = true ->
    fst (iteration t i) =
      [EvFetch (Raise e); EvLoopError e; EvBackoff (backoff_delay (api_delay t))]
    /\ csv_rows (fst (iteration t i)) = []
    /\ tracker_of (snd (iteration t i)) = t
    /\ (0 <= api_delay t ->
        snd (iteration t i) = Continue t
        /\ forall (i' : input F) (rest : list (input F)),
           exists evs,
             fst (run_iters t (i :: i' :: rest)) =
               [EvFetch (Raise e); EvLoopError e;
                EvBackoff (backoff_delay (api_delay t));
                EvFetch (fetch_price i')] ++ evs).
Proof.
  intros F A t i e Hf He.
  pose proof (iteration_handled _ _ (try_body_Raise t i Hf) He) as Hit.
  cbn [app] in Hit.
  split; [now rewrite Hit|]. split; [now rewrite Hit|].
  split; [rewrite Hit; cbn [snd]; now destruct (time_sleep_int _)|].
  intros Hd. rewrite backoff_delay_nonneg in Hit by exact Hd.
  split; [now rewrite Hit|].
  intros i' rest. rewrite run_iters_cons, Hit. cbn [fst snd].
  rewrite run_iters_cons.
  destruct (iteration_starts_with_fetch t i') as [evs' Hevs].
  destruct (snd (iteration t i')); cbn [fst]; rewrite Hevs; cbn [app]; eauto.
Qed.

Lemma C7_witness :
  fetch_price Samples.failing = Raise RequestException
  /\ is_Exception RequestException = true
  /\ fst (iteration Samples.tracker3 Samples.failing) =
       [EvFetch (Raise RequestException); EvLoopError RequestException;
        EvBackoff 120]
  /\ tracker_of (snd (iteration Samples.tracker3 Samples.failing)) =
       Samples.tracker3.
Proof.
  split; [reflexivity|]. split; [reflexivity|].
  destruct (@C7_failed_fetch_changes_nothing B64.float binary64
              Samples.tracker3 Samples.failing RequestException
              eq_refl eq_refl) as (H1 & _ & H3 & _).
  split; [exact H1 | exact H3].
Defined.

(** C8: with a delay that is not negative, whatever the fetch, the CSV
    write and the sleep do, the loop goes on.  A fetch that raises is
    logged by the handler and followed by the backoff sleep.  After a
    fetch that returns, a write that fails is logged by [log_data] and
    does not reach the handler, and a sleep that is refused is logged by
    the handler and followed by the backoff sleep; the computation of
    the indicator raises nothing.  So the loop goes through every input:
    it logs each failure of the body once, in order, sleeps for the
    backoff delay after each, and is left only by an interruption from
    outside, which is not an [Exception]. *)
Theorem C8_loop_survives_every_error :
  forall (F : Type) (A : Arith F) (t : tracker F) (inputs : list (input F)),
    0 <= api_delay t ->
    let backoff := backoff_delay (api_delay t) in
    (forall (i : input F) (e : exn),
        fetch_price i = Raise e -> is_Exception e = true ->
        iteration t i =
          ([EvFetch (Raise e); EvLoopError e; EvBackoff backoff], Continue t))
    /\ (forall (i : input F) (x : F),
          fetch_price i = Ok x ->
          let delay := f_add (f_of_Z (api_delay t)) (in_jitter i) in
          iteration t i =
            (EvFetch (Ok x) :: logged_of t i x ++ EvSleep delay ::
               match time_sleep delay with
               | Ok _ => []
               | Raise e => [EvLoopError e; EvBackoff backoff]
               end,
             Continue (set_prices t (trim (period t) (prices t ++ [x]))))
          /\ (forall r, calculate_rsi (period t) (prices t ++ [x]) = Some r ->
                in_csv_ok i = false -> logged_of t i x = [EvCsvError]))
    /\ (forall t0 t1 (i : input F) evs e,
          api_delay t0 = api_delay t ->
          try_body t0 i = (t1, evs, Raise e) -> is_Exception e = true ->
          iteration t0 i = (evs ++ [EvLoopError e; EvBackoff backoff], Continue t1))
    /\ ((forall i e, In i inputs -> fetch_price i = Raise e -> is_Exception e = true) ->
        exists evs t',
          run_iters t inputs = (evs, Continue t')
          /\ fetch_calls evs = length inputs
          /\ loop_errors evs = failures (api_delay t) inputs
          /\ backoffs evs = map (fun _ => backoff) (loop_errors evs))
    /\ (forall evs e t',
          run_iters t inputs = (evs, Propagate e t') ->
          is_Exception e = false
          /\ exists i, In i inputs /\ fetch_price i = Raise e).
Proof.
  intros F A t inputs Hd backoff. split; [|split; [|split; [|split]]].
  - intros i e Hf He. now apply iteration_Raise_continues.
  - intros i x Hf delay. split.
    + now apply iteration_Ok_continues.
    + intros r Hr Hok. now apply (logged_of_csv_error t i x Hr).
  - intros t0 t1 i evs e Hd0 Hb He.
    rewrite (iteration_handled _ _ Hb He), Hd0, backoff_delay_nonneg by exact Hd.
    reflexivity.
  - intros Hin.
    destruct (run_iters_errors inputs t Hd Hin) as (evs & t' & Hrun & _ & Hn & He & Hb).
    exists evs, t'. auto.
  - revert t Hd backoff. induction inputs as [|i rest IH]; intros t Hd backoff evs e t' Hrun.
    + discriminate.
    + rewrite run_iters_cons in Hrun.
      destruct (iteration_continues t i Hd) as [(t1 & Ht1 & Hd1)|(e1 & Hp & Hf & He)].
      * rewrite Ht1 in Hrun.
        destruct (run_iters t1 rest) as [evs1 o1] eqn:Hrest. cbn [fst snd] in Hrun.
        injection Hrun as _ ->.
        destruct (IH t1 ltac:(lia) _ _ _ Hrest) as (He & i0 & Hi0 & Hf0).
        split; [exact He|]. exists i0. split; [now right | exact Hf0].
      * rewrite Hp in Hrun. injection Hrun as _ <- _.
        split; [exact He|]. exists i. split; [now left | exact Hf].
Qed.

Lemma C8_witness :
  0 <= api_delay Samples.tracker3
  /\ (exists evs t',
        run_iters Samples.tracker3 Examples.troubled = (evs, Continue t')
        /\ fetch_calls evs = 5%nat
        /\ loop_errors evs = [RequestException]
        /\ backoffs evs = [120])
  /\ iteration Examples.warmed (Examples.unwritable (Samples.price 13))
     = ([EvFetch (Ok (Samples.price 13)); EvCsvError;
         EvSleep (Samples.price 61)],
        Continue {| period := 3; api_delay := 60;
                    prices := [Samples.price 10; Samples.price 12;
                               Samples.price 11; Samples.price 13] |}).
Proof.
  split; [cbn; lia|]. split.
  - destruct (proj1 (proj2 (proj2 (proj2
      (@C8_loop_survives_every_error B64.float binary64
         Samples.tracker3 Examples.troubled ltac:(cbn; lia)))))) as
      (evs & t' & Hrun & Hn & He & Hb).
    + intros i e Hin Hf. cbn in Hin.
      repeat (destruct Hin as [<-|Hin];
              [cbn in Hf; first [discriminate | now injection Hf as <-]|]).
      destruct Hin.
    + exists evs, t'. split; [exact Hrun|]. split; [exact Hn|].
      split; [exact He|]. rewrite Hb, He. reflexivity.
  - refine (eq_trans
      (proj1 (proj1 (proj2
         (@C8_loop_survives_every_error B64.float binary64
            Examples.warmed [] ltac:(cbn; lia)))
         (Examples.unwritable (Samples.price 13)) (Samples.price 13)
         eq_refl)) _).
    vm_compute. reflexivity.
Defined.

(** With a negative delay the handler's own sleep is refused, and the
    [ValueError] leaves the loop. *)
Lemma negative_delay_leaves_the_loop :
  run_iters {| period := 14; api_delay := -1; prices := @nil B64.float |}
    [Samples.failing]
  = ([EvFetch (Raise RequestException); EvLoopError RequestException;
      EvBackoff (-2)],
     Propagate ValueError
       {| period := 14; api_delay := -1; prices := @nil B64.float |}).
Proof. reflexivity. Qed.

(** C9: on the failure path the loop sleeps for
    [min(2 * api_delay, 300)] seconds, which is 120 seconds for the
    default delay of 60. *)
Theorem C9_backoff_is_min_of_twice_delay_and_300 :
  forall (F : Type) (A : Arith F) (t t' : tracker F) (i : input F)
         (evs : list (event F)) (e : exn),
    try_body t i = (t', evs, Raise e) -> is_Exception e = true ->
    fst (iteration t i) =
      evs ++ [EvLoopError e; EvBackoff (Z.min (2 * api_delay t) 300)]
    /\ (api_delay t = 60 ->
        fst (iteration t i) = evs ++ [EvLoopError e; EvBackoff 120]).
Proof.
  intros F A t t' i evs e Hb He.
  rewrite (iteration_handled _ _ Hb He). cbn [fst]. unfold backoff_delay.
  replace (api_delay t * 2) with (2 * api_delay t) by lia.
  split; [reflexivity|]. intros ->. reflexivity.
Qed.

Lemma C9_witness :
  try_body Samples.tracker3 Samples.failing =
    (Samples.tracker3, [EvFetch (Raise RequestException)], Raise RequestException)
  /\ is_Exception RequestException = true
  /\ fst (iteration Samples.tracker3 Samples.failing) =
       [EvFetch (Raise RequestException)]
         ++ [EvLoopError RequestException; EvBackoff 120].
Proof.
  split; [reflexivity|]. split; [reflexivity|].
  destruct (@C9_backoff_is_min_of_twice_delay_and_300 B64.float binary64
              Samples.tracker3 Samples.tracker3 Samples.failing
              [EvFetch (Raise RequestException)] RequestException
              eq_refl eq_refl) as [_ H60].
  apply H60. reflexivity.
Defined.

(** C10: for a period of at least 1, [calculate_rsi] depends only on the
    last [period + 1] prices; so computing the indicator before the
    history is trimmed, as the code does, gives in every iteration what
    trimming right after the append would give. *)
Theorem C10_indicator_depends_on_last_prices :
  forall (F : Type) (A : Arith F) (p : Z),
    1 <= p ->
    (forall l1 l2 : list F,
        p + 1 <= len l1 -> p + 1 <= len l2 ->
        lastn (Z.to_nat (p + 1)) l1 = lastn (Z.to_nat (p + 1)) l2 ->
        calculate_rsi p l1 = calculate_rsi p l2)
    /\ (forall (t : tracker F) (i : input F),
          period t = p -> iteration t i = iteration_spec_order t i)
    /\ (forall (t : tracker F) (inputs : list (input F)),
          period t = p -> run_iters t inputs = run_iters_spec_order t inputs).
Proof.
  intros F A p Hp. split; [|split].
  - intros l1 l2 H1 H2 Heq.
    rewrite !calculate_rsi_Some by assumption. now rewrite Heq.
  - intros t i Ht. symmetry. apply iteration_spec_order_eq. lia.
  - intros t inputs. revert t. induction inputs as [|i rest IH]; intros t Ht.
    + reflexivity.
    + cbn [run_iters run_iters_spec_order].
      rewrite iteration_spec_order_eq by lia.
      pose proof (iteration_period t i) as Hper.
      destruct (iteration t i) as [evs [t'|e t']]; [|reflexivity].
      cbn [snd tracker_of] in Hper. rewrite IH by lia. reflexivity.
Qed.

Lemma C10_witness :
  1 <= 3 /\
  (forall l1 l2 : list B64.float,
      3 + 1 <= len l1 -> 3 + 1 <= len l2 ->
      lastn (Z.to_nat (3 + 1)) l1 = lastn (Z.to_nat (3 + 1)) l2 ->
      calculate_rsi 3 l1 = calculate_rsi 3 l2).
Proof.
  split; [lia|].
  apply (@C10_indicator_depends_on_last_prices B64.float binary64 3). lia.
Defined.

(** * More of the tracker

    What the loop writes and when it sleeps, the shape of the value
    that [calculate_rsi] returns, and the names derived from the
    symbol. *)

(** ** The loop *)

Section LoopMore.
Context {F : Type} `{Arith F}.

Lemma log_calls_app (a b : list (event F)) :
  (log_calls (a ++ b) = log_calls a + log_calls b)%nat.
Proof.
  induction a as [|ev a IH]; [reflexivity|].
  destruct ev; cbn [app log_calls]; now rewrite ?IH.
Qed.

Lemma without_csv_app (a b : list (event F)) :
  without_csv (a ++ b) = without_csv a ++ without_csv b.
Proof.
  induction a as [|ev a IH]; [reflexivity|].
  destruct ev; cbn [app without_csv]; now rewrite ?IH.
Qed.

Lemma rows_with_seen_app (a b : list (event F)) (seen : list F) :
  rows_with_seen seen (a ++ b) =
    rows_with_seen seen a ++ rows_with_seen (seen ++ fetched a) b.
Proof.
  revert seen. induction a as [|ev a IH]; intros seen.
  - cbn. now rewrite app_nil_r.
  - destruct ev as [ | [x|e] | | | | | ]; cbn [app rows_with_seen fetched];
      rewrite ?IH, <- ?app_assoc; reflexivity.
Qed.

(** A row of a trace is one of [rows_with_seen], with the prices
    fetched before it. *)
Lemma rows_with_seen_split (pre post : list (event F)) ts x r seen :
  In (seen ++ fetched pre, (ts, x, r))
     (rows_with_seen seen (pre ++ EvCsvRow ts x r :: post)).
Proof.
  rewrite rows_with_seen_app. apply in_or_app. right. now left.
Qed.

(** ** The rows written *)

Lemma calculate_rsi_enough (p : Z) (ps : list F) :
  p + 1 <= len ps -> exists r, calculate_rsi p ps = Some r.
Proof.
  intros Hlen. unfold calculate_rsi.
  destruct (Z.ltb_spec (len ps) (p + 1)); [lia|].
  destruct (f_eqb _ _); eauto.
Qed.

(** The indicator of the kept history with a new price is the indicator
    of all prices with it. *)
Lemma calculate_rsi_kept (p : Z) (seen : list F) (x : F) :
  1 <= p ->
  calculate_rsi p (lastn (Z.to_nat (p * 2)) seen ++ [x])
  = calculate_rsi p (seen ++ [x]).
Proof.
  intros Hp.
  destruct (Nat.le_gt_cases (length seen) (Z.to_nat (p * 2))) as [Hle|Hgt].
  - now rewrite lastn_all.
  - assert (Hk : len (lastn (Z.to_nat (p * 2)) seen ++ [x]) = p * 2 + 1).
    { unfold len. rewrite length_app, length_lastn. cbn [length]. lia. }
    assert (Hs : p + 1 <= len (seen ++ [x])).
    { unfold len. rewrite length_app. cbn [length]. lia. }
    rewrite !calculate_rsi_Some by lia.
    rewrite <- (lastn_lastn (n := Z.to_nat (p + 1)) (k := Z.to_nat (p * 2))
                  (lastn (Z.to_nat (p * 2)) seen ++ [x])) by lia.
    rewrite lastn_app_lastn, lastn_lastn by lia. reflexivity.
Qed.

Lemma trim_kept (p : Z) (seen : list F) (x : F) :
  1 <= p ->
  trim p (lastn (Z.to_nat (p * 2)) seen ++ [x])
  = lastn (Z.to_nat (p * 2)) (seen ++ [x]).
Proof.
  intros Hp. rewrite trim_lastn by assumption. apply lastn_app_lastn.
Qed.

Lemma rows_with_seen_log_data seen ts (x r : F) ok :
  rows_with_seen seen (log_data ts x r ok) = if ok then [(seen, (ts, x, r))] else [].
Proof. now destruct ok. Qed.

Lemma row_of_cons p i inputs row : row_of p inputs row -> row_of p (i :: inputs) row.
Proof.
  destruct row as [seen [[ts x] r]]. intros (Ho & Hr & i0 & Hin & Hi).
  split; [exact Ho|]. split; [exact Hr|]. exists i0. split; [now right | exact Hi].
Qed.

Lemma run_iters_rows (inputs : list (input F)) (t : tracker F) (seen : list F) :
  1 <= period t ->
  prices t = lastn (Z.to_nat (period t * 2)) seen ->
  Forall (row_of (period t) inputs)
    (rows_with_seen seen (fst (run_iters t inputs))).
Proof.
  revert t seen. induction inputs as [|i rest IH]; intros t seen Hp Hinv.
  - constructor.
  - rewrite run_iters_cons.
    destruct (fetch_price i) as [x|e] eqn:Hf.
    + pose proof (iteration_Ok t i Hf) as Hit. cbn zeta in Hit.
      set (t' := set_prices t (trim (period t) (prices t ++ [x]))) in *.
      assert (Hinv' : prices t' = lastn (Z.to_nat (period t' * 2)) (seen ++ [x])).
      { unfold t'. cbn [set_prices prices period]. rewrite Hinv. now apply trim_kept. }
      assert (Hlog : Forall (row_of (period t) (i :: rest))
                       (rows_with_seen (seen ++ [x]) (logged_of t i x))).
      { unfold logged_of. rewrite Hinv, calculate_rsi_kept by assumption.
        destruct (calculate_rsi (period t) (seen ++ [x])) as [r|] eqn:Hr;
          [|constructor].
        rewrite rows_with_seen_log_data. destruct (in_csv_ok i); constructor;
          [|constructor].
        split; [now exists seen|]. split; [exact Hr|].
        exists i. split; [now left|]. now split. }
      assert (Hrest : Forall (row_of (period t) (i :: rest))
                        (rows_with_seen (seen ++ [x]) (fst (run_iters t' rest)))).
      { eapply Forall_impl; [|apply (IH t' (seen ++ [x])); [exact Hp | exact Hinv']].
        intros row. apply row_of_cons. }
      destruct (time_sleep _) as [u|e]; [|destruct (time_sleep_int _)]; rewrite Hit;
        cbn [fst snd app rows_with_seen];
        rewrite ?rows_with_seen_app, ?fetched_app, ?fetched_logged_of;
        cbn [app rows_with_seen fetched]; rewrite ?app_nil_r;
        first [exact Hlog | apply Forall_app; split; [exact Hlog | exact Hrest]].
    + rewrite (iteration_Raise t i Hf).
      assert (Hrest : Forall (row_of (period t) (i :: rest))
                        (rows_with_seen seen (fst (run_iters t rest)))).
      { eapply Forall_impl; [|apply (IH t seen); assumption].
        intros row. apply row_of_cons. }
      destruct (is_Exception e); [destruct (time_sleep_int _)|]; cbn [fst snd app rows_with_seen];
        first [constructor | exact Hrest].
Qed.

(** ** How many rows *)

Lemma log_calls_logged_of (t : tracker F) (i : input F) (x : F) :
  log_calls (logged_of t i x)
  = if period t <=? len (prices t) then 1%nat else 0%nat.
Proof.
  unfold logged_of.
  assert (Hl : len (prices t ++ [x]) = len (prices t) + 1).
  { unfold len. rewrite length_app. cbn [length]. lia. }
  destruct (Z.leb_spec (period t) (len (prices t))) as [Hle|Hgt].
  - destruct (calculate_rsi_enough (period t) (prices t ++ [x]) ltac:(lia)) as [r ->].
    now destruct (in_csv_ok i).
  - now rewrite calculate_rsi_None by lia.
Qed.

Lemma length_trim (p : Z) (ps : list F) :
  1 <= p -> length (trim p ps) = Nat.min (Z.to_nat (p * 2)) (length ps).
Proof. intros Hp. rewrite trim_lastn by assumption. apply length_lastn. Qed.

(** The count of the calls, once the lengths are natural numbers. *)
Lemma warm_up_count (P m k calls : nat) (logged : bool) :
  (1 <= P)%nat -> (m <= 2 * P)%nat ->
  logged = (P <=? m)%nat ->
  calls = (Nat.min (2 * P) (m + 1) + k - P
           - (Nat.min (2 * P) (m + 1) - P))%nat ->
  ((if logged then 1 else 0) + calls = m + S k - P - (m - P))%nat.
Proof.
  intros HP Hm -> ->.
  destruct (Nat.leb_spec P m);
    destruct (Nat.min_spec (2 * P) (m + 1)) as [[? ->]|[? ->]]; lia.
Qed.

Lemma run_iters_log_calls (inputs : list (input F)) (t : tracker F) :
  1 <= period t -> len (prices t) <= period t * 2 ->
  let evs := fst (run_iters t inputs) in
  log_calls evs =
    (length (prices t) + length (fetched evs) - Z.to_nat (period t)
     - (length (prices t) - Z.to_nat (period t)))%nat.
Proof.
  revert t. induction inputs as [|i rest IH]; intros t Hp Hlen; cbn zeta.
  - cbn. lia.
  - rewrite run_iters_cons.
    destruct (fetch_price i) as [x|e] eqn:Hf.
    + pose proof (iteration_Ok t i Hf) as Hit. cbn zeta in Hit.
      set (t' := set_prices t (trim (period t) (prices t ++ [x]))) in *.
      assert (Hl' : length (prices t') =
                    Nat.min (2 * Z.to_nat (period t)) (length (prices t) + 1)).
      { unfold t'. cbn [set_prices prices]. rewrite length_trim by assumption.
        rewrite length_app. cbn [length]. f_equal. lia. }
      assert (Hp' : period t' = period t) by reflexivity.
      assert (Hlen' : len (prices t') <= period t' * 2)
        by (unfold len; rewrite Hl', Hp'; lia).
      pose proof (IH t' ltac:(lia) Hlen') as IHt. cbn zeta in IHt.
      rewrite Hl', Hp' in IHt.
      assert (Hlog : (if period t <=? len (prices t) then 1%nat else 0%nat)
                     = if (Z.to_nat (period t) <=? length (prices t))%nat
                       then 1%nat else 0%nat).
      { unfold len. destruct (Z.leb_spec (period t) (Z.of_nat (length (prices t))));
          destruct (Nat.leb_spec (Z.to_nat (period t)) (length (prices t)));
          try reflexivity; lia. }
      assert (HP : (1 <= Z.to_nat (period t))%nat) by lia.
      assert (Hm : (length (prices t) <= 2 * Z.to_nat (period t))%nat)
        by (unfold len in Hlen; lia).
      pose proof (fun k calls =>
                    @warm_up_count (Z.to_nat (period t)) (length (prices t)) k calls
                      _ HP Hm eq_refl) as Hcount.
      assert (Hgoal : forall tail,
                 log_calls tail = 0%nat -> fetched tail = [] ->
                 log_calls ((EvFetch (Ok x) :: logged_of t i x ++ tail)
                            ++ fst (run_iters t' rest))
                 = (length (prices t)
                    + length (fetched ((EvFetch (Ok x) :: logged_of t i x ++ tail)
                                       ++ fst (run_iters t' rest)))
                    - Z.to_nat (period t)
                    - (length (prices t) - Z.to_nat (period t)))%nat).
      { intros tail Hc Hfe. cbn [app log_calls fetched].
        rewrite !log_calls_app, !fetched_app, fetched_logged_of, Hc, Hfe.
        rewrite log_calls_logged_of, Hlog. cbn [app length]. rewrite Nat.add_0_r.
        rewrite <- (Hcount _ _ IHt). rewrite IHt. reflexivity. }
      destruct (time_sleep _) as [u|e]; rewrite Hit; cbn [fst snd].
      * apply Hgoal; reflexivity.
      * destruct (time_sleep_int _); cbn [fst snd].
        -- apply Hgoal; reflexivity.
        -- cbn [app log_calls fetched].
           rewrite !log_calls_app, !fetched_app, fetched_logged_of.
           rewrite log_calls_logged_of, Hlog. cbn [app length log_calls fetched].
           destruct (Nat.leb_spec (Z.to_nat (period t)) (length (prices t))); lia.
    + rewrite (iteration_Raise t i Hf).
      pose proof (IH t Hp Hlen) as IHt. cbn zeta in IHt.
      destruct (is_Exception e); [destruct (time_sleep_int _)|];
        cbn [fst snd app log_calls fetched length]; rewrite ?IHt; lia.
Qed.

(** ** The CSV write does not reach the loop *)

Lemma without_csv_logged_of (t : tracker F) (i : input F) (x : F) :
  without_csv (logged_of t i x) = [].
Proof.
  unfold logged_of. destruct (calculate_rsi _ _); [|reflexivity].
  now destruct (in_csv_ok i).
Qed.

Lemma iteration_set_csv_ok ok (t : tracker F) (i : input F) :
  snd (iteration t (set_csv_ok ok i)) = snd (iteration t i)
  /\ without_csv (fst (iteration t (set_csv_ok ok i)))
     = without_csv (fst (iteration t i)).
Proof.
  destruct (fetch_price i) as [x|e] eqn:Hf.
  - pose proof (iteration_Ok t i Hf) as H1.
    pose proof (iteration_Ok t (set_csv_ok ok i) Hf) as H2.
    cbn zeta in H1, H2. cbn [set_csv_ok in_jitter] in H2.
    rewrite H1, H2.
    destruct (time_sleep _); cbn [fst snd]; (split; [reflexivity|]);
      cbn [without_csv]; rewrite !without_csv_app, !without_csv_logged_of;
      reflexivity.
  - rewrite (iteration_Raise t i Hf), (iteration_Raise t (set_csv_ok ok i) Hf).
    split; reflexivity.
Qed.

Lemma run_iters_set_csv_ok (f : input F -> bool) (inputs : list (input F))
    (t : tracker F) :
  let inputs' := map (fun i => set_csv_ok (f i) i) inputs in
  snd (run_iters t inputs') = snd (run_iters t inputs)
  /\ without_csv (fst (run_iters t inputs'))
     = without_csv (fst (run_iters t inputs)).
Proof.
  cbn zeta. revert t. induction inputs as [|i rest IH]; intros t.
  - split; reflexivity.
  - cbn [map]. rewrite !run_iters_cons.
    destruct (iteration_set_csv_ok (f i) t i) as [Hs He]. rewrite Hs.
    destruct (snd (iteration t i)) as [t'|e t']; cbn [fst snd].
    + destruct (IH t') as [IHs IHe].
      split; [exact IHs|]. now rewrite !without_csv_app, He, IHe.
    + split; [reflexivity | exact He].
Qed.

(** ** The delays never change *)

Lemma iteration_backoffs (t : tracker F) (i : input F) :
  Forall (fun s => s = backoff_delay (api_delay t)) (backoffs (fst (iteration t i)))
  /\ api_delay (tracker_of (snd (iteration t i))) = api_delay t.
Proof.
  destruct (fetch_price i) as [x|e] eqn:Hf.
  - pose proof (iteration_Ok t i Hf) as Hit. cbn zeta in Hit. rewrite Hit.
    destruct (time_sleep _); [|destruct (time_sleep_int _)]; cbn [fst snd tracker_of backoffs];
      rewrite backoffs_app, backoffs_logged_of; cbn [app backoffs];
      (split; [repeat constructor | reflexivity]).
  - rewrite (iteration_Raise t i Hf).
    destruct (is_Exception e); [destruct (time_sleep_int _)|];
      cbn [fst snd tracker_of backoffs]; (split; [repeat constructor | reflexivity]).
Qed.

Lemma run_iters_backoffs (inputs : list (input F)) (t : tracker F) :
  Forall (fun s => s = backoff_delay (api_delay t))
    (backoffs (fst (run_iters t inputs)))
  /\ api_delay (tracker_of (snd (run_iters t inputs))) = api_delay t.
Proof.
  revert t. induction inputs as [|i rest IH]; intros t.
  - split; [constructor | reflexivity].
  - rewrite run_iters_cons. destruct (iteration_backoffs t i) as [Hb Hd].
    destruct (snd (iteration t i)) as [t'|e t']; cbn [fst snd tracker_of] in *.
    + destruct (IH t') as [IHb IHd]. rewrite Hd in IHb, IHd.
      split; [|exact IHd]. rewrite backoffs_app. apply Forall_app. now split.
    + now split.
Qed.

(** ** A period of zero *)

Lemma trim_0 (ps : list F) : trim 0 ps = ps.
Proof. unfold trim. now destruct (_ <? _). Qed.

Lemma run_iters_period_0 (inputs : list (input F)) (t : tracker F) :
  period t = 0 ->
  prices (tracker_of (snd (run_iters t inputs)))
  = prices t ++ fetched (fst (run_iters t inputs)).
Proof.
  revert t. induction inputs as [|i rest IH]; intros t Hp.
  - cbn. now rewrite app_nil_r.
  - rewrite run_iters_cons.
    destruct (iteration_state t i) as (Hst & Hfe & _).
    pose proof (iteration_period t i) as Hper.
    assert (Hpr : prices (tracker_of (snd (iteration t i)))
                  = prices t ++ fetched (fst (iteration t i))).
    { rewrite Hst, Hfe. destruct (fetch_price i) as [x|e].
      - cbn [set_prices prices]. rewrite Hp. apply trim_0.
      - now rewrite app_nil_r. }
    destruct (snd (iteration t i)) as [t'|e t']; cbn [tracker_of fst snd] in *.
    + rewrite fetched_app, (IH t') by lia. rewrite Hpr. now rewrite app_assoc.
    + exact Hpr.
Qed.

(** ** A sleep between two fetches *)

Lemma paced_quiet (evs rest : list (event F)) (rested : bool) :
  fetch_calls evs = 0%nat ->
  paced rested (evs ++ rest) = paced (rested || existsb slept evs) rest.
Proof.
  revert rested. induction evs as [|ev evs IH]; intros rested Hq.
  - cbn. now rewrite orb_false_r.
  - destruct ev; try discriminate; cbn [app paced existsb fetch_calls] in *;
      rewrite IH by assumption; now rewrite ?orb_assoc.
Qed.

(** An iteration is a fetch followed by events that are no fetch, and
    when the loop goes on a sleep is among them. *)
Lemma iteration_paced (t : tracker F) (i : input F) :
  exists tail,
    fst (iteration t i) = EvFetch (fetch_price i) :: tail
    /\ fetch_calls tail = 0%nat
    /\ (forall t', snd (iteration t i) = Continue t' -> existsb slept tail = true).
Proof.
  destruct (fetch_price i) as [x|e] eqn:Hf.
  - pose proof (iteration_Ok t i Hf) as Hit. cbn zeta in Hit. rewrite Hit.
    destruct (time_sleep _) as [u|e] eqn:Hs; cbn [fst snd].
    + eexists. split; [reflexivity|].
      rewrite fetch_calls_app, fetch_calls_logged_of, existsb_app.
      split; [reflexivity|]. intros _ _. cbn [existsb slept]. rewrite Hs.
      apply orb_true_r.
    + eexists. split; [reflexivity|].
      rewrite fetch_calls_app, fetch_calls_logged_of, existsb_app.
      split; [reflexivity|]. intros t'. cbn [existsb slept].
      destruct (time_sleep_int _); [|discriminate]. intros _.
      rewrite !orb_true_r. reflexivity.
  - rewrite (iteration_Raise t i Hf).
    destruct (is_Exception e); cbn [fst snd].
    + eexists. split; [reflexivity|]. split; [reflexivity|].
      intros t'. cbn [existsb slept].
      destruct (time_sleep_int _); [|discriminate]. reflexivity.
    + eexists. split; [reflexivity|]. split; [reflexivity|]. discriminate.
Qed.

Lemma run_iters_paced (inputs : list (input F)) (t : tracker F) :
  paced true (fst (run_iters t inputs)) = true.
Proof.
  revert t. induction inputs as [|i rest IH]; intros t; [reflexivity|].
  rewrite run_iters_cons.
  destruct (iteration_paced t i) as (tail & Ht & Hq & Hs).
  destruct (snd (iteration t i)) as [t'|e t']; cbn [fst snd]; rewrite Ht.
  - cbn [app paced andb]. rewrite paced_quiet by assumption.
    rewrite (Hs t' eq_refl). apply IH.
  - cbn [paced andb]. rewrite <- (app_nil_r tail), paced_quiet by assumption.
    reflexivity.
Qed.

Lemma csv_rows_log_calls (evs : list (event F)) :
  (length (csv_rows evs) <= log_calls evs)%nat.
Proof.
  induction evs as [|ev evs IH]; [constructor|].
  destruct ev; cbn [csv_rows log_calls length]; lia.
Qed.

Lemma csv_rows_app (a b : list (event F)) :
  csv_rows (a ++ b) = csv_rows a ++ csv_rows b.
Proof.
  induction a as [|ev a IH]; [reflexivity|].
  destruct ev; cbn [app csv_rows]; now rewrite ?IH.
Qed.

(** When every write succeeds, every call of [log_data] is a row. *)
Lemma run_iters_all_written (inputs : list (input F)) (t : tracker F) :
  (forall i, In i inputs -> in_csv_ok i = true) ->
  length (csv_rows (fst (run_iters t inputs)))
  = log_calls (fst (run_iters t inputs)).
Proof.
  revert t. induction inputs as [|i rest IH]; intros t Hok; [reflexivity|].
  assert (Hrest : forall t', length (csv_rows (fst (run_iters t' rest)))
                             = log_calls (fst (run_iters t' rest))).
  { intros t'. apply IH. intros i0 Hi0. apply Hok. now right. }
  assert (Hlog : forall x, length (csv_rows (logged_of t i x))
                           = log_calls (logged_of t i x)).
  { intros x. unfold logged_of. destruct (calculate_rsi _ _); [|reflexivity].
    now rewrite (Hok i (or_introl eq_refl)). }
  rewrite run_iters_cons.
  destruct (fetch_price i) as [x|e] eqn:Hf.
  - pose proof (iteration_Ok t i Hf) as Hit. cbn zeta in Hit.
    destruct (time_sleep _) as [u|e]; [|destruct (time_sleep_int _)]; rewrite Hit;
      cbn [fst snd app csv_rows log_calls];
      rewrite ?csv_rows_app, ?log_calls_app, ?length_app, ?Hrest, ?Hlog;
      cbn [csv_rows log_calls length]; lia.
  - rewrite (iteration_Raise t i Hf).
    destruct (is_Exception e); [destruct (time_sleep_int _)|];
      cbn [fst snd app csv_rows log_calls length]; rewrite ?Hrest; reflexivity.
Qed.

Lemma run_iters_period (inputs : list (input F)) (t : tracker F) :
  period (tracker_of (snd (run_iters t inputs))) = period t.
Proof.
  revert t. induction inputs as [|i rest IH]; intros t; [reflexivity|].
  rewrite run_iters_cons. pose proof (iteration_period t i) as Hp.
  destruct (snd (iteration t i)) as [t'|e t']; cbn [snd tracker_of] in *.
  - now rewrite IH.
  - exact Hp.
Qed.

Lemma calculate_rsi_0 (x : F) (rest : list F) :
  calculate_rsi 0 (x :: rest) = Some (rsi_of_window (np_diff (x :: rest))).
Proof.
  unfold calculate_rsi, rsi_of_window.
  destruct (Z.ltb_spec (len (x :: rest)) (0 + 1)) as [Hlt|_].
  - unfold len in Hlt. cbn [length] in Hlt. lia.
  - change (slice_from (- 0)) with (fun l : list F => l).
    cbn beta. destruct (f_eqb _ _); reflexivity.
Qed.

End LoopMore.

(** ** Names *)

Module NamesFacts.
Import Ascii String PyStr Names.
Local Open Scope string_scope.

Lemma contains_char (c : ascii) (s : string) :
  contains (String c "") s = negb (all_chars (fun a => negb (Ascii.eqb c a)) s).
Proof.
  induction s as [|a rest IH]; [reflexivity|].
  cbn [contains starts_with all_chars]. rewrite IH.
  destruct (Ascii.eqb c a); reflexivity.
Qed.

Lemma all_chars_app (p : ascii -> bool) (a b : string) :
  all_chars p (a ++ b) = all_chars p a && all_chars p b.
Proof.
  induction a as [|c a IH]; [reflexivity|].
  cbn [append all_chars]. rewrite IH. apply andb_assoc.
Qed.

Lemma all_chars_map (p : ascii -> bool) (f : ascii -> ascii) (s : string) :
  all_chars p (map_chars f s) = all_chars (fun a => p (f a)) s.
Proof.
  induction s as [|c s IH]; [reflexivity|].
  cbn [map_chars all_chars]. now rewrite IH.
Qed.

Lemma all_chars_impl (p q : ascii -> bool) (s : string) :
  (forall a, p a = true -> q a = true) ->
  all_chars p s = true -> all_chars q s = true.
Proof.
  intros Hpq. induction s as [|c s IH]; [reflexivity|].
  cbn [all_chars]. rewrite !andb_true_iff. intros [Hc Hs]. auto.
Qed.

Lemma length_append (a b : string) :
  String.length (a ++ b) = (String.length a + String.length b)%nat.
Proof. induction a as [|c a IH]; [reflexivity|]. cbn. now rewrite IH. Qed.

Lemma append_assoc (a b c : string) : (a ++ b) ++ c = a ++ (b ++ c).
Proof. induction a as [|x a IH]; [reflexivity|]. cbn. now rewrite IH. Qed.

Lemma map_chars_app (f : ascii -> ascii) (a b : string) :
  map_chars f (a ++ b) = map_chars f a ++ map_chars f b.
Proof. induction a as [|c a IH]; [reflexivity|]. cbn. now rewrite IH. Qed.

Lemma replace_char_app (c : ascii) (new a b : string) :
  replace_char c new (a ++ b) = replace_char c new a ++ replace_char c new b.
Proof.
  induction a as [|x a IH]; [reflexivity|].
  cbn [append replace_char]. rewrite IH.
  destruct (Ascii.eqb x c); [now rewrite append_assoc | reflexivity].
Qed.

(** Replacing a character by a string without it leaves none. *)
Lemma replace_char_none (c : ascii) (new s : string) :
  all_chars (fun a => negb (Ascii.eqb c a)) new = true ->
  all_chars (fun a => negb (Ascii.eqb c a)) (replace_char c new s) = true.
Proof.
  intros Hnew. induction s as [|a rest IH]; [reflexivity|].
  cbn [replace_char]. destruct (Ascii.eqb a c) eqn:Hac.
  - rewrite all_chars_app, Hnew, IH. reflexivity.
  - cbn [all_chars]. rewrite IH, Ascii.eqb_sym, Hac. reflexivity.
Qed.

(** A string without the character is left as it is. *)
Lemma replace_char_absent (c : ascii) (new s : string) :
  all_chars (fun a => negb (Ascii.eqb c a)) s = true ->
  replace_char c new s = s.
Proof.
  induction s as [|a rest IH]; [reflexivity|].
  cbn [all_chars replace_char]. rewrite andb_true_iff. intros [Ha Hr].
  rewrite Ascii.eqb_sym. apply negb_true_iff in Ha. rewrite Ha.
  now rewrite IH.
Qed.

Lemma length_replace_char_one (c d : ascii) (s : string) :
  String.length (replace_char c (String d "") s) = String.length s.
Proof.
  induction s as [|a rest IH]; [reflexivity|].
  cbn [replace_char]. destruct (Ascii.eqb a c); cbn; now rewrite IH.
Qed.

Lemma upper_char_idem (a : ascii) : upper_char (upper_char a) = upper_char a.
Proof. destruct a as [[] [] [] [] [] [] [] []]; reflexivity. Qed.

Lemma lower_upper_char (a : ascii) : lower_char (upper_char a) = lower_char a.
Proof. destruct a as [[] [] [] [] [] [] [] []]; reflexivity. Qed.

Lemma upper_char_not_lower (a : ascii) : is_lower_char (upper_char a) = false.
Proof. destruct a as [[] [] [] [] [] [] [] []]; reflexivity. Qed.

Lemma upper_char_slash (a : ascii) :
  Ascii.eqb "/" (upper_char a) = Ascii.eqb "/" a.
Proof. destruct a as [[] [] [] [] [] [] [] []]; reflexivity. Qed.

Lemma upper_char_ascii (a : ascii) :
  is_ascii_char a = true -> is_ascii_char (upper_char a) = true.
Proof. destruct a as [[] [] [] [] [] [] [] []]; intros H; try discriminate; reflexivity. Qed.

Lemma map_chars_map (f g : ascii -> ascii) (s : string) :
  map_chars f (map_chars g s) = map_chars (fun a => f (g a)) s.
Proof. induction s as [|c s IH]; [reflexivity|]. cbn. now rewrite IH. Qed.

Lemma map_chars_ext (f g : ascii -> ascii) (s : string) :
  (forall a, f a = g a) -> map_chars f s = map_chars g s.
Proof.
  intros Hfg. induction s as [|c s IH]; [reflexivity|]. cbn. now rewrite IH, Hfg.
Qed.

Lemma upper_idem (s : string) : upper (upper s) = upper s.
Proof.
  unfold upper. rewrite map_chars_map. apply map_chars_ext, upper_char_idem.
Qed.

Lemma lower_upper (s : string) : lower (upper s) = lower s.
Proof.
  unfold upper, lower. rewrite map_chars_map. apply map_chars_ext, lower_upper_char.
Qed.

Lemma no_slash_append (a b : string) :
  contains "/" (a ++ b) = contains "/" a || contains "/" b.
Proof.
  rewrite !contains_char, all_chars_app. now destruct (all_chars _ a).
Qed.

Lemma api_symbol_no_slash (s : string) :
  all_chars (fun a => negb (Ascii.eqb "/" a)) (api_symbol s) = true.
Proof.
  unfold api_symbol, upper. rewrite all_chars_map.
  erewrite (all_chars_impl (fun a => negb (Ascii.eqb "/" a))).
  - reflexivity.
  - intros a Ha. now rewrite upper_char_slash.
  - now apply replace_char_none.
Qed.

Lemma is_ascii_replace_char (c : ascii) (new s : string) :
  is_ascii new = true -> is_ascii s = true ->
  is_ascii (replace_char c new s) = true.
Proof.
  unfold is_ascii. intros Hnew. induction s as [|a rest IH]; [reflexivity|].
  cbn [all_chars replace_char]. rewrite andb_true_iff. intros [Ha Hr].
  destruct (Ascii.eqb a c).
  - rewrite all_chars_app, Hnew. now apply IH.
  - cbn [all_chars]. rewrite Ha. now apply IH.
Qed.

Lemma api_symbol_facts (s : string) :
  contains "/" (api_symbol s) = false
  /\ all_chars (fun a => negb (is_lower_char a)) (api_symbol s) = true
  /\ api_symbol (api_symbol s) = api_symbol s
  /\ (is_ascii s = true -> is_ascii (api_symbol s) = true).
Proof.
  split; [|split; [|split]].
  - rewrite contains_char, api_symbol_no_slash. reflexivity.
  - unfold api_symbol, upper. rewrite all_chars_map.
    induction (replace_char "/" "" s) as [|a rest IH]; [reflexivity|].
    cbn [all_chars]. now rewrite upper_char_not_lower, IH.
  - unfold api_symbol at 1.
    rewrite (replace_char_absent _ _ _ (api_symbol_no_slash s)).
    unfold api_symbol. apply upper_idem.
  - intros Hs. unfold api_symbol, upper, is_ascii. rewrite all_chars_map.
    apply (all_chars_impl is_ascii_char); [intros a; apply upper_char_ascii|].
    now apply is_ascii_replace_char.
Qed.

Lemma csv_filename_facts (symbol : string) :
  contains "/" (csv_filename symbol) = false
  /\ String.length (csv_filename symbol) = (String.length symbol + 12)%nat.
Proof.
  unfold csv_filename. split.
  - rewrite no_slash_append, contains_char, replace_char_none; reflexivity.
  - now rewrite length_append, length_replace_char_one.
Qed.

(** A symbol without a slash keeps its name in the file name. *)
Lemma csv_filename_plain (symbol : string) :
  contains "/" symbol = false -> csv_filename symbol = symbol ++ "_rsi_log.csv".
Proof.
  intros Hs. unfold csv_filename. rewrite replace_char_absent; [reflexivity|].
  rewrite contains_char in Hs. now apply negb_false_iff in Hs.
Qed.

(** ["usdt"] cannot begin inside a string and end in a ["usdt"] that
    follows it. *)
Lemma starts_with_usdt_app (x : string) :
  x <> "" -> starts_with "usdt" x = false ->
  starts_with "usdt" (x ++ "usdt") = false.
Proof.
  intros Hx H.
  destruct x as [|c1 [|c2 [|c3 [|c4 x']]]]; [congruence| | | |];
    cbn [append starts_with] in *;
    repeat match goal with
           | |- context [Ascii.eqb ?a ?b] =>
               lazymatch b with
               | Ascii _ _ _ _ _ _ _ _ => fail
               | _ => destruct (Ascii.eqb a b)
               end
           end;
    cbn in *; congruence.
Qed.

Lemma before_first_usdt (a : string) :
  contains "usdt" a = false -> before_first "usdt" (a ++ "usdt") = a.
Proof.
  induction a as [|c a IH]; [reflexivity|].
  intros Hc. cbn [contains] in Hc. apply orb_false_iff in Hc as [Hs Hr].
  change (String c a ++ "usdt") with (String c (a ++ "usdt")).
  cbn [before_first].
  change (String c (a ++ "usdt")) with (String c a ++ "usdt").
  rewrite starts_with_usdt_app by (assumption || discriminate).
  cbn [append]. now rewrite IH.
Qed.

Lemma api_symbol_pair (base : string) :
  api_symbol (base ++ "/USDT") = api_symbol base ++ "USDT".
Proof.
  unfold api_symbol, upper. now rewrite replace_char_app, map_chars_app.
Qed.

Lemma coin_id_usdt_pair (base : string) :
  contains "BTC" (api_symbol (base ++ "/USDT")) = false ->
  contains "usdt" (lower (replace_char "/" "" base)) = false ->
  coin_id (api_symbol (base ++ "/USDT")) = lower (replace_char "/" "" base).
Proof.
  intros Hbtc Husdt. unfold coin_id. rewrite Hbtc.
  rewrite api_symbol_pair. unfold lower at 1. rewrite map_chars_app.
  fold (lower (api_symbol base)). unfold api_symbol. rewrite lower_upper.
  change (map_chars lower_char "USDT") with "usdt".
  now apply before_first_usdt.
Qed.

End NamesFacts.

(** ** binary64 *)

Unset Implicit Arguments.

(** ** The jittered delay *)

(** A jitter between -2 and 2 is a zero or a finite number of that
    size. *)
Lemma jitter_cases (j : B64.float) :
  B64.valid j = true ->
  B64.leb (B64.of_Z (-2)) j = true -> B64.leb j (B64.of_Z 2) = true ->
  (exists s, j = S754_zero s)
  \/ exists s m e, j = S754_finite s m e /\ (-2 <= value j <= 2)%Q.
Proof.
  intros Hv Hlo Hhi.
  destruct j as [s|s| |s m e]; try discriminate.
  - left. now exists s.
  - destruct s; discriminate.
  - right. exists s, m, e. split; [reflexivity|].
    assert (Hm2 : (value (B64.of_Z (-2)) == -2)%Q) by reflexivity.
    assert (Hp2 : (value (B64.of_Z 2) == 2)%Q) by reflexivity.
    apply SFleb_value in Hlo; try reflexivity; try assumption.
    apply SFleb_value in Hhi; try reflexivity; try assumption.
    rewrite Hm2 in Hlo. rewrite Hp2 in Hhi. split; assumption.
Qed.

Lemma of_Z_exact_wf (n : Z) :
  1 <= n < 2 ^ 53 ->
  exists m e, B64.of_Z n = S754_finite false m e
              /\ wf (Zpos m) e /\ e <= 971
              /\ (scaled (Zpos m) e == inject_Z n)%Q.
Proof.
  intros Hn. destruct (of_Z_exact n Hn) as (m & e & Hr & Hv).
  exists m, e. split; [exact Hr|].
  destruct (of_Z_ge_one n ltac:(lia)) as [Hval _]. rewrite Hr in Hval.
  apply valid_wf in Hval as [Hwf He].
  split; [exact Hwf|]. split; [exact He | exact Hv].
Qed.

(** With a delay of at least 2 seconds that a float holds exactly, the
    jittered delay lies within 2 seconds of it. *)
Lemma jittered_delay_bounds (d : Z) (j : B64.float) :
  2 <= d -> d + 2 < 2 ^ 53 -> B64.valid j = true ->
  B64.leb (B64.of_Z (-2)) j = true -> B64.leb j (B64.of_Z 2) = true ->
  B64.leb (B64.of_Z (d - 2)) (B64.add (B64.of_Z d) j) = true
  /\ B64.leb (B64.add (B64.of_Z d) j) (B64.of_Z (d + 2)) = true.
Proof.
  intros Hd Hd53 Hv Hlo Hhi.
  destruct (of_Z_exact_wf d ltac:(lia)) as (md & ed & Hfd & Hwfd & Hed & Hvd).
  destruct (of_Z_exact_wf (d + 2) ltac:(lia)) as (mu & eu & Hfu & Hwfu & Heu & Hvu).
  assert (Hlow : forall m e, wf m e ->
            (inject_Z (d - 2) <= scaled m e)%Q ->
            B64.leb (B64.of_Z (d - 2)) (build false m e) = true).
  { intros m e Hwf Hle.
    destruct (Z.eq_dec d 2) as [->|Hne].
    - apply nonneg_leb, nonneg_build. now apply wf_nonneg in Hwf.
    - destruct (of_Z_exact_wf (d - 2) ltac:(lia))
        as (ml & el & Hfl & Hwfl & Hel & Hvl).
      rewrite Hfl. apply build_ge_finite; try assumption. now rewrite Hvl. }
  assert (Hupp : forall m e, wf m e ->
            (scaled m e <= inject_Z (d + 2))%Q ->
            B64.leb (build false m e) (B64.of_Z (d + 2)) = true).
  { intros m e Hwf Hle. rewrite Hfu. apply build_le_finite; try assumption.
    now rewrite Hvu. }
  assert (Hd2 : (inject_Z (d - 2) == inject_Z d - 2)%Q).
  { unfold Z.sub. rewrite inject_Z_plus. reflexivity. }
  assert (Hu2 : (inject_Z (d + 2) == inject_Z d + 2)%Q).
  { rewrite inject_Z_plus. reflexivity. }
  rewrite Hfd.
  destruct (jitter_cases j Hv Hlo Hhi) as [[s ->]|(s & m & e & -> & Hj)].
  - assert (Hb : B64.add (S754_finite false md ed) (S754_zero s)
                 = build false (Zpos md) ed).
    { cbn [build]. destruct (Z.leb_spec ed 971); [reflexivity|lia]. }
    rewrite Hb.
    split; [apply Hlow | apply Hupp]; try assumption; rewrite Hvd; lra.
  - destruct (add_finite false md ed s m e) as (M & Hr & HM). rewrite Hr.
    cbn [value cond_Zopp] in HM, Hj. rewrite Hvd in HM.
    assert (Hd0 : (2 <= inject_Z d)%Q).
    { change 2%Q with (inject_Z 2). now rewrite <- Zle_Qle. }
    assert (HM0 : 0 <= M).
    { apply (scaled_le_inv _ _ (Z.min ed e)). rewrite scaled_0. lra. }
    destruct (Z.eq_dec M 0) as [->|Hne].
    + cbn [binary_normalize].
      change (S754_zero false) with (build false 0 emin).
      assert (Hwf0 : wf 0 emin) by (repeat split; unfold emin; lia).
      rewrite scaled_0 in HM.
      split; [apply Hlow | apply Hupp]; try assumption; rewrite scaled_0; lra.
    + destruct (binary_normalize_pos M (Z.min ed e) false ltac:(lia))
        as (m' & e' & Hr' & Hf').
      rewrite Hr'. pose proof Hf' as [Hwf' _].
      split.
      * apply Hlow; [assumption|].
        destruct (Z.eq_dec d 2) as [->|Hne2].
        -- change (inject_Z (2 - 2)) with 0%Q. rewrite <- (scaled_0 e').
           apply scaled_le_mono. now apply wf_nonneg in Hwf'.
        -- destruct (of_Z_exact_wf (d - 2) ltac:(lia))
             as (ml & el & Hfl & Hwfl & Hel & Hvl).
           rewrite <- Hvl. apply (faithful_ge _ _ _ _ _ Hf' Hwfl).
           rewrite Hvl. lra.
      * apply Hupp; [assumption|].
        rewrite <- Hvu. apply (faithful_le _ _ _ _ _ Hf' Hwfu).
        rewrite Hvu. lra.
Qed.

(** ** What [time.sleep] accepts *)

(** The longest sleep that is a whole number of seconds. *)
Lemma wf_longest : wf (2 ^ 53 - 1) 10.
Proof. repeat split; unfold emin; lia. Qed.

Lemma two63_eq : B64.of_Z (2 ^ 63) = S754_finite false 4503599627370496 11.
Proof. reflexivity. Qed.

Lemma minus_two63_eq : B64.of_Z (- 2 ^ 63) = S754_finite true 4503599627370496 11.
Proof. reflexivity. Qed.

(** A length of at most 9223372036 seconds is accepted. *)
Lemma time_sleep_accepted (m e : Z) :
  wf m e -> (scaled m e <= inject_Z 9223372036)%Q ->
  time_sleep (build false m e) = Ok tt.
Proof.
  intros Hwf Hle.
  destruct m as [|p|p]; cbn [build].
  - vm_compute. reflexivity.
  - assert (He : e <= 971).
    { assert (Hw : wf (2 ^ 52) (-18)) by (repeat split; unfold emin; lia).
      assert (Hv : (scaled (Zpos p) e <= scaled (2 ^ 52) (-18))%Q).
      { assert (H34 : (scaled (2 ^ 52) (-18) == inject_Z 17179869184)%Q) by reflexivity.
        rewrite H34. eapply Qle_trans; [exact Hle|]. rewrite <- Zle_Qle. lia. }
      destruct (wf_order_le _ _ _ _ Hwf Hw Hv) as [?|[? _]]; lia. }
    destruct (Z.leb_spec e 971); [|lia].
    unfold time_sleep. cbn [f_is_nan f_mul f_of_Z f_ltb f_zero binary64 B64.is_nan].
    unfold f_leb. cbn [f_ltb f_eqb f_of_Z binary64].
    destruct (of_Z_exact_wf (10 ^ 9) ltac:(lia)) as (mg & eg & Hg & Hwfg & Heg & Hvg).
    rewrite Hg.
    destruct (mul_finite false p e false mg eg Hwf Hwfg) as (M & E & Hr & Hf).
    rewrite Hr. cbn [xorb].
    assert (Hb : (scaled M E <= scaled (2 ^ 53 - 1) 10)%Q).
    { apply (faithful_le _ _ _ _ _ Hf wf_longest).
      assert (HY : (scaled (2 ^ 53 - 1) 10 == inject_Z 9223372036854774784)%Q)
        by reflexivity.
      rewrite HY, Hvg.
      assert (H9 : (0 <= inject_Z (10 ^ 9))%Q) by (change 0%Q with (inject_Z 0); rewrite <- Zle_Qle; lia).
      assert (Hp : (inject_Z 9223372036 * inject_Z (10 ^ 9)
                    <= inject_Z 9223372036854774784)%Q).
      { rewrite <- inject_Z_mult, <- Zle_Qle. lia. }
      eapply Qle_trans; [|exact Hp].
      apply Qmult_le_compat_r; assumption. }
    pose proof Hf as [HwfM _].
    pose proof (wf_nonneg _ _ HwfM) as HM.
    rewrite two63_eq, minus_two63_eq.
    destruct M as [|q|q]; try lia; cbn [build]; [reflexivity|].
    assert (HE : E <= 971).
    { destruct (wf_order_le _ _ _ _ HwfM wf_longest Hb) as [?|[? _]]; lia. }
    destruct (Z.leb_spec E 971); [|lia].
    assert (Hlt : B64.ltb (S754_finite false q E)
                    (S754_finite false 4503599627370496 11) = true).
    { apply SFltb_value; try reflexivity.
      - apply valid_wf. now split.
      - cbn [value cond_Zopp].
        assert (H63 : (scaled 4503599627370496 11 == inject_Z 9223372036854775808)%Q)
          by reflexivity.
        assert (HY : (scaled (2 ^ 53 - 1) 10 == inject_Z 9223372036854774784)%Q)
          by reflexivity.
        rewrite H63. rewrite HY in Hb.
        eapply Qle_lt_trans; [exact Hb|]. rewrite <- Zlt_Qlt. lia. }
    rewrite Hlt. reflexivity.
  - destruct Hwf as (_ & [H _] & _). lia.
Qed.

(** Ten thousand million seconds, and an infinite length, are refused. *)
Lemma long_sleep_is_refused :
  time_sleep (B64.of_Z (10 ^ 10)) = Raise OverflowError
  /\ time_sleep (S754_infinity false) = Raise OverflowError
  /\ time_sleep (B64.of_Z 9223372036) = Ok tt
  /\ time_sleep (B64.of_Z 9223372037) = Raise OverflowError.
Proof. vm_compute. repeat split; reflexivity. Qed.

(** With a delay of at least 2 seconds that a float holds exactly, the
    jittered delay is a float within 2 seconds of it. *)
Lemma jittered_delay_value (d : Z) (j : B64.float) :
  2 <= d -> d + 2 < 2 ^ 53 -> B64.valid j = true ->
  B64.leb (B64.of_Z (-2)) j = true -> B64.leb j (B64.of_Z 2) = true ->
  exists m e,
    B64.add (B64.of_Z d) j = build false m e /\ wf m e
    /\ (inject_Z d - 2 <= scaled m e <= inject_Z d + 2)%Q.
Proof.
  intros Hd Hd53 Hv Hlo Hhi.
  destruct (of_Z_exact_wf d ltac:(lia)) as (md & ed & Hfd & Hwfd & Hed & Hvd).
  assert (Hd0 : (2 <= inject_Z d)%Q).
  { change 2%Q with (inject_Z 2). now rewrite <- Zle_Qle. }
  rewrite Hfd.
  destruct (jitter_cases j Hv Hlo Hhi) as [[s ->]|(s & m & e & -> & Hj)].
  - exists (Zpos md), ed. split; [|split; [exact Hwfd | rewrite Hvd; lra]].
    cbn [build]. destruct (Z.leb_spec ed 971); [reflexivity|lia].
  - destruct (add_finite false md ed s m e) as (M & Hr & HM). rewrite Hr.
    cbn [value cond_Zopp] in HM, Hj. rewrite Hvd in HM.
    assert (HM0 : 0 <= M).
    { apply (scaled_le_inv _ _ (Z.min ed e)). rewrite scaled_0. lra. }
    destruct (Z.eq_dec M 0) as [->|Hne].
    + exists 0, emin. split; [reflexivity|].
      split; [repeat split; unfold emin; lia|].
      rewrite scaled_0 in *. lra.
    + destruct (binary_normalize_pos M (Z.min ed e) false ltac:(lia))
        as (m' & e' & Hr' & Hf').
      exists m', e'. split; [exact Hr'|]. pose proof Hf' as [Hwf' _].
      split; [exact Hwf'|]. split.
      * destruct (Z.eq_dec d 2) as [->|Hne2].
        -- change (inject_Z 2 - 2)%Q with (0 + 0)%Q.
           rewrite Qplus_0_l, <- (scaled_0 e').
           apply scaled_le_mono. now apply wf_nonneg in Hwf'.
        -- destruct (of_Z_exact_wf (d - 2) ltac:(lia))
             as (ml & el & Hfl & Hwfl & Hel & Hvl).
           assert (Hd2 : (inject_Z (d - 2) == inject_Z d - 2)%Q).
           { unfold Z.sub. rewrite inject_Z_plus. reflexivity. }
           rewrite <- Hd2, <- Hvl. apply (faithful_ge _ _ _ _ _ Hf' Hwfl).
           rewrite Hvl, Hd2. lra.
      * destruct (of_Z_exact_wf (d + 2) ltac:(lia))
          as (mu & eu & Hfu & Hwfu & Heu & Hvu).
        assert (Hu2 : (inject_Z (d + 2) == inject_Z d + 2)%Q).
        { rewrite inject_Z_plus. reflexivity. }
        rewrite <- Hu2, <- Hvu. apply (faithful_le _ _ _ _ _ Hf' Hwfu).
        rewrite Hvu, Hu2. lra.
Qed.

(** With a delay from 2 seconds to 9223372034 seconds, the jittered
    delay is a length that [time.sleep] accepts. *)
Lemma jittered_delay_accepted (d : Z) (j : B64.float) :
  2 <= d <= 9223372034 -> B64.valid j = true ->
  B64.leb (B64.of_Z (-2)) j = true -> B64.leb j (B64.of_Z 2) = true ->
  time_sleep (B64.add (B64.of_Z d) j) = Ok tt.
Proof.
  intros Hd Hv Hlo Hhi.
  destruct (jittered_delay_value d j ltac:(lia) ltac:(lia) Hv Hlo Hhi)
    as (m & e & -> & Hwf & _ & Hup).
  apply time_sleep_accepted; [exact Hwf|].
  assert (Hle : (inject_Z d + 2 <= inject_Z 9223372036)%Q).
  { change 2%Q with (inject_Z 2). rewrite <- inject_Z_plus, <- Zle_Qle. lia. }
  lra.
Qed.

(** ** The indicator has two decimals *)

Lemma rint_integer (w : B64.float) :
  in_range ten_thousand w ->
  exists n, 0 <= n <= 10000 /\ B64.rint w = B64.of_Z n.
Proof.
  intros Hw. rewrite ten_thousand_eq in Hw.
  destruct (in_range_cases _ _ _ wf_ten_thousand ltac:(lia) Hw)
    as [->|(m & e & -> & Hwf & Hle)].
  - exists 0. split; [lia | reflexivity].
  - assert (He : e < 0)
      by (destruct (wf_order_le _ _ _ _ Hwf wf_ten_thousand Hle) as [|[? _]]; lia).
    cbn [B64.rint]. destruct (Z.leb_spec 0 e) as [|Hneg]; [lia|].
    destruct (shr_represents (shr_record_of_loc (Zpos m) loc_Exact) e (- e)
                (scaled (Zpos m) e) ltac:(lia)
                (represents_exact (Zpos m) e ltac:(lia)))
      as [Hrep _].
    replace (e + - e) with 0 in Hrep by lia.
    destruct (shr (shr_record_of_loc (Zpos m) loc_Exact) e (- e)) as [mrs e0].
    cbn [fst] in Hrep.
    pose proof (round_nearest_even_cases _ _ _ Hrep) as Hrne. cbn zeta in Hrne.
    pose proof (represents_bounds _ _ _ Hrep) as [Hlo Hhi].
    assert (Hm0 : 0 <= shr_m mrs) by (destruct Hrep as [H _]; exact H).
    set (n := round_nearest_even (shr_m mrs) (loc_of_shr_record mrs)) in *.
    cbn [cond_Zopp]. rewrite value_ten_thousand in Hle.
    exists n. split; [|reflexivity].
    rewrite scaled_exp0 in Hlo.
    destruct Hrne as [->|[-> Hinex]].
    + split; [assumption|]. rewrite Zle_Qle.
      change (inject_Z 10000) with 10000%Q. lra.
    + split; [lia|]. rewrite scaled_exp0 in Hinex.
      assert (Hlt : (inject_Z (shr_m mrs) < inject_Z 10000)%Q)
        by (change (inject_Z 10000) with 10000%Q; lra).
      rewrite <- Zlt_Qlt in Hlt. lia.
Qed.

(** [round(v, 2)] of a number between 0 and 100 is a number of
    hundredths. *)
Lemma round2_grid (v : B64.float) :
  in_range B64.hundred v ->
  exists k, 0 <= k <= 10000
            /\ B64.round2 v = B64.div (B64.of_Z k) B64.hundred.
Proof.
  intros Hv. unfold B64.round2.
  destruct (rint_integer _ (mul_hundred_range v Hv)) as (n & Hn & ->).
  now exists n.
Qed.

Lemma div_nan_l (y : B64.float) : B64.div S754_nan y = S754_nan.
Proof. reflexivity. Qed.

(** The relative strength is a number that is not negative, or NaN. *)
Lemma strength_cases (g l : B64.float) :
  g = S754_nan \/ B64.nonneg g = true ->
  l = S754_nan \/ B64.nonneg l = true ->
  B64.div g l = S754_nan \/ B64.nonneg (B64.div g l) = true.
Proof.
  intros [->|Hg] [->|Hl].
  - now left.
  - now left.
  - left. apply div_nan_r.
  - now apply div_nonneg.
Qed.

Lemma calculate_rsi_grid (p : Z) (ps : list B64.float) :
  1 <= p -> p + 1 <= len ps ->
  exists r,
    calculate_rsi p ps = Some r
    /\ (r = S754_nan
        \/ exists k, 0 <= k <= 10000 /\ r = B64.div (B64.of_Z k) B64.hundred).
Proof.
  intros Hp Hlen. unfold calculate_rsi.
  destruct (Z.ltb_spec (len ps) (p + 1)); [lia|].
  set (deltas := np_diff ps).
  set (avg_gain := np_mean (slice_from (- p) (gains_of deltas))).
  set (avg_loss := np_mean (slice_from (- p) (losses_of deltas))).
  cbn [f_eqb f_zero f_hundred f_div f_sub f_add f_one f_round2 binary64].
  pose proof (mean_nonneg _ (Forall_slice_from _ (- p) _ (gains_nonneg deltas)))
    as HG. fold avg_gain in HG.
  pose proof (mean_nonneg _ (Forall_slice_from _ (- p) _ (losses_nonneg deltas)))
    as HL. fold avg_loss in HL.
  destruct (B64.eqb avg_loss B64.zero).
  - eexists. split; [reflexivity|]. right. exists 10000. split; [lia | reflexivity].
  - eexists. split; [reflexivity|].
    destruct (strength_cases avg_gain avg_loss HG HL) as [Hn|Hn].
    + left. rewrite Hn. reflexivity.
    + right. destruct (add_one_ge _ Hn) as [Hv Hle].
      now apply round2_grid, sub_hundred_range, div_hundred_le.
Qed.

(** ** Equal averages *)

(** A finite number divided by itself is 1. *)
Lemma div_self (m : positive) (e : Z) :
  B64.div (S754_finite false m e) (S754_finite false m e) = B64.one.
Proof.
  destruct (div_finite false m e false m e) as (m' & e' & Hr & Hf).
  rewrite Hr. cbn [xorb].
  pose proof (scaled_pos (Zpos m) e ltac:(lia)) as Hpos.
  assert (H1 : (scaled (Zpos m) e / scaled (Zpos m) e == 1)%Q)
    by (field; lra).
  apply (faithful_compat _ _ _ _ H1) in Hf.
  pose proof Hf as [Hwf _].
  pose proof (faithful_le _ _ _ _ _ Hf wf_one ltac:(rewrite value_one; lra)) as Hle.
  pose proof (faithful_ge _ _ _ _ _ Hf wf_one ltac:(rewrite value_one; lra)) as Hge.
  destruct (wf_order_le _ _ _ _ Hwf wf_one Hle) as [Hlt|[He Hm]];
  destruct (wf_order_le _ _ _ _ wf_one Hwf Hge) as [Hgt|[He' Hm']]; try lia.
  subst e'. assert (Hm1 : m' = 4503599627370496) by lia. subst m'.
  reflexivity.
Qed.

Lemma calculate_rsi_balanced (p : Z) (ps : list B64.float) :
  1 <= p -> p + 1 <= len ps ->
  let deltas := np_diff ps in
  let avg_gain := np_mean (slice_from (- p) (gains_of deltas)) in
  let avg_loss := np_mean (slice_from (- p) (losses_of deltas)) in
  avg_gain = avg_loss -> B64.is_finite avg_loss = true ->
  B64.eqb avg_loss B64.zero = false ->
  calculate_rsi p ps = Some (B64.of_Z 50).
Proof.
  intros Hp Hlen deltas avg_gain avg_loss Heq Hfin Hnz. unfold calculate_rsi.
  destruct (Z.ltb_spec (len ps) (p + 1)); [lia|].
  fold deltas. fold avg_gain avg_loss.
  cbn [f_eqb f_zero f_hundred f_div f_sub f_add f_one f_round2 binary64].
  rewrite Hnz, Heq.
  pose proof (mean_nonneg _ (Forall_slice_from _ (- p) _ (losses_nonneg deltas)))
    as HL. fold avg_loss in HL.
  destruct HL as [HL|HL]; [rewrite HL in Hfin; discriminate|].
  destruct (nonneg_cases _ HL) as [HL0|[HLinf|(m & e & HLfin)]].
  - rewrite HL0 in Hnz. discriminate.
  - rewrite HLinf in Hfin. discriminate.
  - rewrite HLfin, div_self. reflexivity.
Qed.

(** ** Gains and losses *)

Lemma gain_or_loss (d : B64.float) :
  let g := if B64.ltb B64.zero d then d else B64.zero in
  let l := if B64.ltb d B64.zero then B64.neg d else B64.zero in
  B64.nonneg g = true /\ B64.nonneg l = true
  /\ (g = B64.zero \/ l = B64.zero)
  /\ (B64.is_nan d = true -> g = B64.zero /\ l = B64.zero).
Proof.
  destruct d as [[|]|[|]| |[|] m e]; cbn; repeat split; auto; discriminate.
Qed.

Lemma gains_losses_split (deltas : list B64.float) :
  Forall (fun gl => B64.nonneg (fst gl) = true /\ B64.nonneg (snd gl) = true
                    /\ (fst gl = B64.zero \/ snd gl = B64.zero))
    (combine (gains_of deltas) (losses_of deltas)).
Proof.
  induction deltas as [|d rest IH]; [constructor|].
  constructor; [|exact IH].
  unfold gains_of, losses_of, np_where. cbn [map combine fst snd].
  cbn [f_ltb f_zero f_neg binary64].
  destruct (gain_or_loss d) as (Hg & Hl & Hz & _). auto.
Qed.

Set Implicit Arguments.

(** ** The properties *)

(** X1: every row of the CSV file holds the price that was just fetched
    and the indicator of all prices fetched so far, that one included,
    though the tracker keeps only the last [2 * period] of them; its
    timestamp is that of the iteration that fetched the price. *)
Theorem X1_row_holds_price_and_indicator :
  forall (F : Type) (A : Arith F) (p d : Z) (inputs : list (input F))
         (pre post : list (event F)) (ts : String.string) (x r : F),
    1 <= p ->
    fst (run_iters (new_tracker p d) inputs) = pre ++ EvCsvRow ts x r :: post ->
    (exists older, fetched pre = older ++ [x])
    /\ calculate_rsi p (fetched pre) = Some r
    /\ exists i, In i inputs /\ in_now i = ts /\ fetch_price i = Ok x.
Proof.
  intros F A p d inputs pre post ts x r Hp Hsplit.
  pose proof (@run_iters_rows F A inputs (new_tracker p d) [] Hp eq_refl) as Hall.
  rewrite Hsplit in Hall. rewrite Forall_forall in Hall.
  exact (Hall _ (rows_with_seen_split pre post ts x r [])).
Qed.

Lemma X1_witness :
  1 <= 3 /\
  calculate_rsi 3
    (fetched (firstn 10 (fst (run_iters (new_tracker 3 60) Samples.inputs))))
  = Some (Samples.price 80).
Proof.
  split; [lia|].
  refine (proj1 (proj2
    (@X1_row_holds_price_and_indicator B64.float binary64 3 60 Samples.inputs
       (firstn 10 (fst (run_iters (new_tracker 3 60) Samples.inputs)))
       (skipn 11 (fst (run_iters (new_tracker 3 60) Samples.inputs)))
       (in_now (Samples.fetching (Samples.price 13)))
       (Samples.price 13) (Samples.price 80) _ _)));
    [lia | vm_compute; reflexivity].
Defined.

(** X2: started with an empty history, the tracker logs nothing for the
    first [period] prices and calls [log_data] once for every price
    after them: the rows written and the failures to write are as many
    as the prices fetched beyond the first [period], and so are the rows
    alone when every write succeeds. *)
Theorem X2_one_row_per_price_after_warm_up :
  forall (F : Type) (A : Arith F) (p d : Z) (inputs : list (input F)),
    1 <= p ->
    let evs := fst (run_iters (new_tracker p d) inputs) in
    log_calls evs = (length (fetched evs) - Z.to_nat p)%nat
    /\ (length (csv_rows evs) <= length (fetched evs) - Z.to_nat p)%nat
    /\ ((forall i, In i inputs -> in_csv_ok i = true) ->
        length (csv_rows evs) = (length (fetched evs) - Z.to_nat p)%nat).
Proof.
  intros F A p d inputs Hp evs.
  pose proof (@run_iters_log_calls F A inputs (new_tracker p d) Hp
                ltac:(cbn; lia)) as Hn.
  cbn zeta in Hn. fold evs in Hn. cbn [new_tracker prices period length] in Hn.
  pose proof (csv_rows_log_calls evs).
  split; [lia|]. split; [lia|].
  intros Hok. unfold evs. rewrite run_iters_all_written by exact Hok.
  fold evs. lia.
Qed.

Lemma X2_witness :
  1 <= 3 /\
  log_calls (fst (run_iters (new_tracker 3 60) Samples.inputs))
  = (length (fetched (fst (run_iters (new_tracker 3 60) Samples.inputs)))
     - Z.to_nat 3)%nat.
Proof.
  split; [lia|].
  apply (proj1 (@X2_one_row_per_price_after_warm_up B64.float binary64 3 60
                  Samples.inputs ltac:(lia))).
Defined.

(** X3: whether the write to the CSV file succeeds or fails makes no
    difference to the loop: with the fate of every write changed at
    will, the loop ends in the same state and does the same fetches,
    sleeps and error reports.  A failed write is never followed by the
    backoff. *)
Theorem X3_csv_failure_does_not_reach_the_loop :
  forall (F : Type) (A : Arith F) (t : tracker F) (inputs : list (input F))
         (f : input F -> bool),
    let inputs' := map (fun i => set_csv_ok (f i) i) inputs in
    snd (run_iters t inputs') = snd (run_iters t inputs)
    /\ without_csv (fst (run_iters t inputs'))
       = without_csv (fst (run_iters t inputs)).
Proof. intros F A t inputs f. apply run_iters_set_csv_ok. Qed.

(** X4: when the fetch succeeds and [time.sleep] refuses the jittered
    delay, the price has been appended and its row written all the
    same; the [ValueError] is reported as an error of the loop and
    followed by the backoff sleep. *)
Theorem X4_refused_sleep_keeps_the_sample :
  forall (F : Type) (A : Arith F) (t : tracker F) (i : input F) (x : F),
    fetch_price i = Ok x ->
    time_sleep (f_add (f_of_Z (api_delay t)) (in_jitter i)) = Raise ValueError ->
    fst (iteration t i) =
      EvFetch (Ok x) :: logged_of t i x
        ++ [EvSleep (f_add (f_of_Z (api_delay t)) (in_jitter i));
            EvLoopError ValueError;
            EvBackoff (backoff_delay (api_delay t))]
    /\ prices (tracker_of (snd (iteration t i)))
       = trim (period t) (prices t ++ [x])
    /\ (0 <= api_delay t ->
        snd (iteration t i)
        = Continue (set_prices t (trim (period t) (prices t ++ [x])))).
Proof.
  intros F A t i x Hf Hs.
  pose proof (iteration_Ok t i Hf) as Hit. cbn zeta in Hit.
  rewrite Hs in Hit. rewrite Hit. cbn [fst snd].
  split; [reflexivity|]. split.
  - now destruct (time_sleep_int _).
  - intros Hd. now rewrite backoff_delay_nonneg.
Qed.

Lemma X4_witness :
  fetch_price (Examples.early (Samples.price 10)) = Ok (Samples.price 10)
  /\ prices (tracker_of (snd (iteration Examples.eager
                                (Examples.early (Samples.price 10)))))
     = trim 3 ([] ++ [Samples.price 10]).
Proof.
  split; [reflexivity|].
  refine (proj1 (proj2
    (@X4_refused_sleep_keeps_the_sample B64.float binary64 Examples.eager
       (Examples.early (Samples.price 10)) (Samples.price 10) _ _)));
    reflexivity.
Defined.

(** X5: the backoff does not grow.  However many iterations fail, and
    however many in a row, every sleep of the handler has the same
    length [min(2 * api_delay, 300)]; the loop never changes its delay
    nor its period. *)
Theorem X5_backoff_never_grows :
  forall (F : Type) (A : Arith F) (t : tracker F) (inputs : list (input F)),
    Forall (fun s => s = backoff_delay (api_delay t))
      (backoffs (fst (run_iters t inputs)))
    /\ api_delay (tracker_of (snd (run_iters t inputs))) = api_delay t
    /\ period (tracker_of (snd (run_iters t inputs))) = period t.
Proof.
  intros F A t inputs.
  destruct (run_iters_backoffs inputs t) as [Hb Hd].
  split; [exact Hb|]. split; [exact Hd | apply run_iters_period].
Qed.

(** X6: with a period of 0 the history is never trimmed ([prices[-0:]]
    is the whole list): it holds every price fetched. *)
Theorem X6_period_zero_keeps_every_price :
  forall (F : Type) (A : Arith F) (d : Z) (inputs : list (input F)),
    prices (tracker_of (snd (run_iters (new_tracker 0 d) inputs)))
    = fetched (fst (run_iters (new_tracker 0 d) inputs)).
Proof.
  intros F A d inputs.
  now rewrite (@run_iters_period_0 F A inputs (new_tracker 0 d) eq_refl).
Qed.

(** X7: the loop never asks for a price twice without having slept in
    between: in every trace, each fetch after the first comes after a
    call of [time.sleep] that returned since the fetch before it. *)
Theorem X7_a_sleep_between_two_fetches :
  forall (F : Type) (A : Arith F) (t : tracker F) (inputs : list (input F)),
    paced true (fst (run_iters t inputs)) = true.
Proof. intros F A t inputs. apply run_iters_paced. Qed.

(** X8: for a delay that is not negative the backoff lasts at most 300
    seconds; it lasts 300 seconds exactly from a delay of 150 seconds
    on, and it is shorter than the delay itself exactly when the delay
    is above 300 seconds. *)
Theorem X8_backoff_against_delay :
  forall d : Z,
    0 <= d ->
    0 <= backoff_delay d <= 300
    /\ (backoff_delay d = 300 <-> 150 <= d)
    /\ (backoff_delay d < d <-> 300 < d).
Proof. intros d Hd. unfold backoff_delay. lia. Qed.

Lemma X8_witness :
  0 <= 60 /\ 0 <= backoff_delay 60 <= 300.
Proof.
  split; [lia|]. apply (proj1 (X8_backoff_against_delay (d := 60) ltac:(lia))).
Defined.

(** X9: with a delay from 2 seconds to 9223372034 seconds and a jitter
    between -2 and 2, [time.sleep] accepts the jittered delay, so an
    iteration whose fetch succeeds ends without error report and
    backoff, and the loop sleeps within 2 seconds of its delay.  (A
    length beyond 9223372036 seconds is more than the clock of
    [time.sleep] counts, see [long_sleep_is_refused].) *)
Theorem X9_jittered_sleep_is_accepted :
  forall (t : tracker B64.float) (i : input B64.float) (x : B64.float),
    2 <= api_delay t <= 9223372034 ->
    B64.valid (in_jitter i) = true ->
    B64.leb (B64.of_Z (-2)) (in_jitter i) = true ->
    B64.leb (in_jitter i) (B64.of_Z 2) = true ->
    fetch_price i = Ok x ->
    let delay := B64.add (B64.of_Z (api_delay t)) (in_jitter i) in
    iteration t i =
      (EvFetch (Ok x) :: logged_of t i x ++ [EvSleep delay],
       Continue (set_prices t (trim (period t) (prices t ++ [x]))))
    /\ time_sleep delay = Ok tt
    /\ B64.leb (B64.of_Z (api_delay t - 2)) delay = true
    /\ B64.leb delay (B64.of_Z (api_delay t + 2)) = true.
Proof.
  intros t i x Hd Hv Hlo Hhi Hf delay.
  assert (Hs : time_sleep delay = Ok tt)
    by (now apply jittered_delay_accepted).
  split; [|split; [exact Hs|]].
  - pose proof (iteration_Ok t i Hf) as Hit. cbn zeta in Hit.
    cbn [f_add f_of_Z binary64] in Hit. fold delay in Hit.
    rewrite Hs in Hit. exact Hit.
  - apply jittered_delay_bounds; try assumption; lia.
Qed.

Lemma X9_witness :
  2 <= api_delay Samples.tracker3 <= 9223372034 /\
  iteration Samples.tracker3 (Samples.fetching (Samples.price 10)) =
    (EvFetch (Ok (Samples.price 10))
       :: logged_of Samples.tracker3 (Samples.fetching (Samples.price 10))
            (Samples.price 10)
       ++ [EvSleep (B64.add (B64.of_Z 60) B64.one)],
     Continue (set_prices Samples.tracker3
                 (trim 3 ([] ++ [Samples.price 10])))).
Proof.
  split; [cbn; lia|].
  refine (proj1
    (@X9_jittered_sleep_is_accepted Samples.tracker3
       (Samples.fetching (Samples.price 10)) (Samples.price 10) _ _ _ _ _));
    first [reflexivity | cbn; lia].
Defined.

(** X10: with a period of at least 1 and enough history, what
    [calculate_rsi] returns is NaN or a number of hundredths: the
    float nearest to [k / 100] for an integer [k] from 0 to 10000.  Of
    the sums the proof uses only that they are not negative, which
    holds in whatever order they are added. *)
Theorem X10_indicator_has_two_decimals :
  forall (p : Z) (ps : list B64.float),
    1 <= p -> p + 1 <= len ps ->
    exists r,
      calculate_rsi p ps = Some r
      /\ (B64.is_nan r = true
          \/ exists k, 0 <= k <= 10000
                       /\ r = B64.div (B64.of_Z k) B64.hundred).
Proof.
  intros p ps Hp Hlen.
  destruct (calculate_rsi_grid p ps Hp Hlen) as (r & Hr & [->|Hk]).
  - exists S754_nan. split; [exact Hr|]. now left.
  - exists r. split; [exact Hr|]. now right.
Qed.

Lemma X10_witness :
  1 <= 14 /\ 14 + 1 <= len Examples.ripple /\
  exists r,
    calculate_rsi 14 Examples.ripple = Some r
    /\ (B64.is_nan r = true
        \/ exists k, 0 <= k <= 10000
                     /\ r = B64.div (B64.of_Z k) B64.hundred).
Proof.
  split; [lia|]. split; [vm_compute; discriminate|].
  apply (@X10_indicator_has_two_decimals 14 Examples.ripple);
    [lia | vm_compute; discriminate].
Defined.

(** X11: when the average gain and the average loss, as NumPy's
    pairwise sums give them, are the same finite number, not zero, the
    relative strength is 1 and [calculate_rsi] returns 50.0; so it does
    for the default period on 15 prices that go up by one seven times
    and down again. *)
Theorem X11_equal_averages_give_50 :
  forall (p : Z) (ps : list B64.float),
    1 <= p -> p + 1 <= len ps ->
    let deltas := np_diff ps in
    let avg_gain := np_mean (slice_from (- p) (gains_of deltas)) in
    let avg_loss := np_mean (slice_from (- p) (losses_of deltas)) in
    avg_gain = avg_loss -> B64.is_finite avg_loss = true ->
    B64.eqb avg_loss B64.zero = false ->
    B64.div avg_gain avg_loss = B64.one
    /\ calculate_rsi p ps = Some (B64.of_Z 50).
Proof.
  intros p ps Hp Hlen deltas avg_gain avg_loss Heq Hfin Hnz.
  split; [|now apply calculate_rsi_balanced].
  rewrite Heq.
  pose proof (mean_nonneg _ (Forall_slice_from _ (- p) _ (losses_nonneg deltas)))
    as HL. fold avg_loss in HL.
  destruct HL as [HL|HL]; [rewrite HL in Hfin; discriminate|].
  destruct (nonneg_cases _ HL) as [HL0|[HLinf|(m & e & HLfin)]].
  - rewrite HL0 in Hnz. discriminate.
  - rewrite HLinf in Hfin. discriminate.
  - rewrite HLfin. apply div_self.
Qed.

Lemma X11_witness :
  1 <= 14 /\ 14 + 1 <= len Examples.hill /\
  calculate_rsi 14 Examples.hill = Some (B64.of_Z 50).
Proof.
  split; [lia|]. split; [vm_compute; discriminate|].
  refine (proj2 (@X11_equal_averages_give_50 14 Examples.hill _ _ _ _ _));
    first [lia | vm_compute; discriminate | vm_compute; reflexivity].
Defined.

(** X12: whatever the deltas, NaN and infinities included, every gain
    and every loss is a number that is not negative and not NaN, and at
    each place the gain or the loss is 0; a NaN delta, which a NaN
    price gives, counts as no change. *)
Theorem X12_gain_or_loss_at_each_place :
  forall deltas : list B64.float,
    Forall (fun gl => B64.nonneg (fst gl) = true /\ B64.nonneg (snd gl) = true
                      /\ (fst gl = B64.zero \/ snd gl = B64.zero))
      (combine (gains_of deltas) (losses_of deltas))
    /\ gains_of [S754_nan] = [B64.zero]
    /\ losses_of [S754_nan] = [B64.zero].
Proof.
  intros deltas. split; [apply gains_losses_split|]. split; reflexivity.
Qed.

(** X13: with a period of 0 the length test lets every history that is
    not empty through and [gains[-0:]] is the whole array, so the
    indicator is computed over the whole history; on a single price the
    averages are means of nothing and the indicator is NaN. *)
Theorem X13_period_zero_uses_the_whole_history :
  forall (x : B64.float) (rest : list B64.float),
    calculate_rsi 0 (x :: rest) = Some (rsi_of_window (np_diff (x :: rest)))
    /\ calculate_rsi 0 [x] = Some S754_nan.
Proof.
  intros x rest. split; [apply calculate_rsi_0|].
  rewrite calculate_rsi_0. reflexivity.
Qed.

Module NameProps.
Import Ascii String PyStr Names.
Local Open Scope string_scope.

(** X14: the name of the CSV file contains no slash, so the file lies
    in the working directory; it is 12 characters longer than the
    symbol, and for a symbol without a slash it is the symbol followed
    by [_rsi_log.csv]. *)
Theorem X14_csv_filename_has_no_slash :
  forall symbol : string,
    contains "/" (csv_filename symbol) = false
    /\ String.length (csv_filename symbol)
       = (String.length symbol + 12)%nat
    /\ (contains "/" symbol = false ->
        csv_filename symbol = symbol ++ "_rsi_log.csv").
Proof.
  intros symbol. destruct (NamesFacts.csv_filename_facts symbol) as [H1 H2].
  split; [exact H1|]. split; [exact H2 | apply NamesFacts.csv_filename_plain].
Qed.

(** X15: for a symbol written in ASCII, the symbol sent to the first
    provider has no slash and no lower-case letter, is written in ASCII
    too, and is left as it is when it is normalized again. *)
Theorem X15_api_symbol_is_normalized :
  forall symbol : string,
    is_ascii symbol = true ->
    contains "/" (api_symbol symbol) = false
    /\ all_chars (fun a => negb (is_lower_char a))
         (api_symbol symbol) = true
    /\ api_symbol (api_symbol symbol) = api_symbol symbol
    /\ is_ascii (api_symbol symbol) = true.
Proof.
  intros symbol Hs.
  destruct (NamesFacts.api_symbol_facts symbol) as (H1 & H2 & H3 & H4).
  auto.
Qed.

Lemma X15_witness :
  is_ascii "btc/usdt" = true
  /\ api_symbol (api_symbol "btc/usdt") = api_symbol "btc/usdt".
Proof.
  split; [reflexivity|].
  exact (proj1 (proj2 (proj2
    (@X15_api_symbol_is_normalized "btc/usdt" eq_refl)))).
Defined.

(** X16: for a pair [BASE/USDT] written in ASCII whose symbol does not
    contain [BTC] and whose base does not contain [usdt], in any case of
    the letters, the coin that the second provider is asked for is the
    base in lower case, without its slashes. *)
Theorem X16_coin_id_of_usdt_pair :
  forall base : string,
    is_ascii base = true ->
    contains "BTC" (api_symbol (base ++ "/USDT")) = false ->
    contains "usdt" (lower (replace_char "/" "" base)) = false ->
    coin_id (api_symbol (base ++ "/USDT"))
    = lower (replace_char "/" "" base).
Proof. intros base _. apply NamesFacts.coin_id_usdt_pair. Qed.

Lemma X16_witness :
  is_ascii "ETH" = true
  /\ coin_id (api_symbol "ETH/USDT") = "eth".
Proof.
  split; [reflexivity|].
  exact (@X16_coin_id_of_usdt_pair "ETH" eq_refl eq_refl eq_refl).
Defined.

End NameProps.
